(** * ukgeolocate: postcode + address to UPRN and coordinates

    A shallow embedding of the Python package [ukgeolocate]
    ([postcode.py], [address.py], [_db.py], [client.py], [exceptions.py],
    [models.py], [cli.py]) together with the part of CPython's [difflib] that
    [address.similarity] calls, and the properties of the resolution engine
    proved about it.

    Conventions of the embedding

    - A Python [str] is a list of characters ([list ascii]).  The model
      covers 7-bit text: the builtins below ([isspace], [upper], [int], the
      classes of the regular expression) are those of Python restricted to
      code points below 128.  [address.py] is given a second time on text
      of any code points ([Unicode]), where the Unicode character database
      of the interpreter is an input; what is said of the case of letters
      beyond 7 bits is said there.
    - Python integers that index sequences are natural numbers; every
      subtraction is written so that the guard of the source makes it exact.
    - A similarity score is the exact rational [2*M/T], kept in lowest terms,
      so that Leibniz equality on scores is numeric equality.  Python computes
      the same quotient in binary floating point; for sequences shorter than
      2^26 elements two different quotients never round to one float, so the
      comparisons [>=], [>] and [== 1.0] of the source agree with the exact
      ones.
    - Exceptions are values of the type [exn]; a computation that can raise
      returns [exn + A].
    - The SQLite driver and the file system are an environment ([world])
      that answers each external call; the answer may change from one call to
      the next (a file can disappear between two calls).
    - The command line takes the lines typed at the keyboard and the two
      output streams as it finds them, and returns the streams as it leaves
      them; whether it runs on the terminal decides where [input] shows its
      prompt.  The texts Python makes of a float are parameters. *)

From Stdlib Require Import Ascii QArith Qreduction DecimalString.
From stdpp Require Import gmap strings list fin_maps sorting.

Open Scope nat_scope.

(** ** Python [str] builtins (7-bit) *)

Abbreviation str := (list ascii).

(** A string literal as a Python [str]. *)
Definition s (x : string) : str := String.list_ascii_of_string x.

Module Py.

Definition ord (c : ascii) : nat := nat_of_ascii c.
Definition chr (n : nat) : ascii := ascii_of_nat n.

(** [str.isspace] on one character: TAB, LF, VT, FF, CR, the four
    separators FS, GS, RS, US, and the space. *)
Definition isspace (c : ascii) : bool :=
  let n := ord c in
  (9 <=? n) && (n <=? 13) || (28 <=? n) && (n <=? 32).

Definition isdigit (c : ascii) : bool :=
  let n := ord c in (48 <=? n) && (n <=? 57).

Definition islower (c : ascii) : bool :=
  let n := ord c in (97 <=? n) && (n <=? 122).

Definition isupper (c : ascii) : bool :=
  let n := ord c in (65 <=? n) && (n <=? 90).

(** The case mapping of a code point below 128; the other characters of
    the model are given no case. *)
Definition upper_char (c : ascii) : ascii :=
  if islower c then chr (ord c - 32) else c.

Definition lower_char (c : ascii) : ascii :=
  if isupper c then chr (ord c + 32) else c.

(** [s.upper()] and [s.lower()] *)
Definition upper (x : str) : str := map upper_char x.
Definition lower (x : str) : str := map lower_char x.

(** Dropping from both ends of [x] the characters that satisfy [p]. *)
Fixpoint lstrip_with (p : ascii -> bool) (x : str) : str :=
  match x with
  | c :: x' => if p c then lstrip_with p x' else x
  | [] => []
  end.

Definition rstrip_with (p : ascii -> bool) (x : str) : str :=
  rev (lstrip_with p (rev x)).

Definition strip_with (p : ascii -> bool) (x : str) : str :=
  rstrip_with p (lstrip_with p x).

(** [s.strip()] *)
Definition strip (x : str) : str := strip_with isspace x.

(** [s.replace(old, new)] for a one-character [old]. *)
Definition replace (old : ascii) (new : str) (x : str) : str :=
  flat_map (fun c => if Ascii.eqb c old then new else [c]) x.

(** [s.split()] with no argument: the maximal runs of characters that are
    not whitespace.  [cur] is the current run, reversed. *)
Fixpoint split_from (cur : str) (x : str) : list str :=
  match x with
  | [] => match cur with [] => [] | _ => [rev cur] end
  | c :: x' =>
      if isspace c
      then match cur with
           | [] => split_from [] x'
           | _ => rev cur :: split_from [] x'
           end
      else split_from (c :: cur) x'
  end.

Definition split (x : str) : list str := split_from [] x.

(** [sep.join(words)] *)
Fixpoint join (sep : str) (words : list str) : str :=
  match words with
  | [] => []
  | [w] => w
  | w :: ws => w ++ sep ++ join sep ws
  end.

(** [s[:-3]] and [s[-3:]]; on a string shorter than three characters the
    first is empty and the second is the whole string. *)
Definition slice_to_m3 (x : str) : str := take (length x - 3) x.
Definition slice_from_m3 (x : str) : str := drop (length x - 3) x.

(** The whitespace that [int] skips around the digits of a 7-bit string:
    the space and TAB, LF, VT, FF, CR, but not the four separators. *)
Definition isspace_int (c : ascii) : bool :=
  let n := ord c in (9 <=? n) && (n <=? 13) || (n =? 32).

(** [int(s)] in base 10: surrounding whitespace is dropped, one sign is
    allowed, then decimal digits, where single underscores may separate
    digits.  [None] stands for [ValueError].  [seen] tells whether the
    previous character was a digit. *)
Fixpoint digits (acc : Z) (seen : bool) (x : str) : option Z :=
  match x with
  | [] => if seen then Some acc else None
  | c :: x' =>
      if Ascii.eqb c "_"
      then (if seen then digits acc false x' else None)
      else if isdigit c
           then digits (10 * acc + Z.of_nat (ord c - 48))%Z true x'
           else None
  end.

Definition int (x : str) : option Z :=
  match strip_with isspace_int x with
  | c :: r =>
      if Ascii.eqb c "+" then digits 0 false r
      else if Ascii.eqb c "-" then Z.opp <$> digits 0 false r
      else digits 0 false (c :: r)
  | [] => None
  end.

(** [x or ''] for a value that is a [str] or [None]. *)
Definition or_empty (x : option str) : str := default [] x.

(** Truth value of an optional string: [None] and the empty string are
    false. *)
Definition truthy (x : option str) : bool :=
  match x with Some (_ :: _) => true | _ => false end.

End Py.

(** ** Regular expressions (the fragment of [re] that [postcode.py] uses) *)

Module Re.

(** A set of characters, as written between brackets or as an escape. *)
Inductive cset : Type :=
| Range (lo hi : ascii)          (* [lo-hi] *)
| Digit                          (* \d *)
| Space                          (* \s *)
| Lit (c : ascii)
| Union (x y : cset).

Fixpoint in_cset (cs : cset) (c : ascii) : bool :=
  match cs with
  | Range lo hi => (Py.ord lo <=? Py.ord c) && (Py.ord c <=? Py.ord hi)
  | Digit => Py.isdigit c
  | Space => Py.isspace c
  | Lit d => Ascii.eqb c d
  | Union x y => in_cset x c || in_cset y c
  end.

(** Under [re.IGNORECASE] a character belongs to a set when it or its
    other-case form does; on 7-bit text, that is the other case of a letter
    of [A-Z] or [a-z], and [\d] and [\s] are the 7-bit digits and
    whitespace. *)
Definition in_cset_i (cs : cset) (c : ascii) : bool :=
  in_cset cs c || in_cset cs (Py.upper_char c) || in_cset cs (Py.lower_char c).

Inductive re : Type :=
| Void
| Eps
| Chr (cs : cset)
| Seq (r1 r2 : re)
| Alt (r1 r2 : re).

(** [r?], [r{1,2}], [r{2}] and the anchor [$], which matches at the end
    of the text or just before a final newline. *)
Definition Opt (r : re) : re := Alt r Eps.
Definition Rep12 (r : re) : re := Seq r (Opt r).
Definition Rep2 (r : re) : re := Seq r r.
Definition Dollar : re := Opt (Chr (Lit "010")).

Fixpoint nullable (r : re) : bool :=
  match r with
  | Void => false
  | Eps => true
  | Chr _ => false
  | Seq r1 r2 => nullable r1 && nullable r2
  | Alt r1 r2 => nullable r1 || nullable r2
  end.

(** The residual of [r] after reading [c]. *)
Fixpoint deriv (c : ascii) (r : re) : re :=
  match r with
  | Void => Void
  | Eps => Void
  | Chr cs => if in_cset_i cs c then Eps else Void
  | Seq r1 r2 =>
      if nullable r1
      then Alt (Seq (deriv c r1) r2) (deriv c r2)
      else Seq (deriv c r1) r2
  | Alt r1 r2 => Alt (deriv c r1) (deriv c r2)
  end.

(** [pattern.match(x)] for a pattern anchored by [^] and [$]: does the
    pattern accept the text? *)
Fixpoint matches (r : re) (x : str) : bool :=
  match x with
  | [] => nullable r
  | c :: x' => matches (deriv c r) x'
  end.

(** The language of a pattern, as a relation. *)
Inductive Lang : re -> str -> Prop :=
| L_eps : Lang Eps []
| L_chr cs c : in_cset_i cs c = true -> Lang (Chr cs) [c]
| L_seq r1 r2 x y : Lang r1 x -> Lang r2 y -> Lang (Seq r1 r2) (x ++ y)
| L_alt_l r1 r2 x : Lang r1 x -> Lang (Alt r1 r2) x
| L_alt_r r1 r2 x : Lang r2 x -> Lang (Alt r1 r2) x.

End Re.

(** ** [exceptions.py] *)

Inductive exn : Type :=
| PostcodeInvalid (postcode : str)
| DatabaseNotFound (path db_name : str)
| DatabaseInvalid (path detail : str)
| NoMatchFound (postcode address : str)
| OperationalError (msg : str)       (* sqlite3.OperationalError *)
| DriverError (msg : str).           (* any other exception of the driver *)

(** [str(exc)]: the message each constructor passes to [Exception]. *)
Definition exn_str (e : exn) : str :=
  match e with
  | PostcodeInvalid pc => s "Invalid UK postcode: '" ++ pc ++ s "'"
  | DatabaseNotFound path db_name => db_name ++ s " database not found at: " ++ path
  | DatabaseInvalid path detail => s "Invalid database at " ++ path ++ s ": " ++ detail
  | NoMatchFound pc addr => s "No match found for '" ++ addr ++ s "' at '" ++ pc ++ s "'"
  | OperationalError msg => msg
  | DriverError msg => msg
  end.

(** ** [postcode.py] *)

Module Postcode.

Import Re.

Definition letter : cset := Range "A" "Z".

(** [^[A-Z]{1,2}\d[A-Z\d]?\s?\d[A-Z]{2}$] with [re.IGNORECASE] *)
Definition _UK_POSTCODE_RE : re :=
  Seq (Rep12 (Chr letter))
 (Seq (Chr Digit)
 (Seq (Opt (Chr (Union letter Digit)))
 (Seq (Opt (Chr Space))
 (Seq (Chr Digit)
 (Seq (Rep2 (Chr letter))
      Dollar))))).

Definition validate (raw : str) : bool :=
  matches _UK_POSTCODE_RE (Py.strip raw).

Definition normalise (raw : str) : exn + str :=
  if negb (validate raw) then inl (PostcodeInvalid raw)
  else
    let stripped := Py.replace " " [] (Py.upper (Py.strip raw)) in
    inr (Py.slice_to_m3 stripped ++ s " " ++ Py.slice_from_m3 stripped).

(** The UK postcode grammar: the texts the pattern accepts once the
    surrounding whitespace is trimmed. *)
Definition grammar (raw : str) : Prop := Lang _UK_POSTCODE_RE (Py.strip raw).

End Postcode.

(** ** [difflib.SequenceMatcher(None, a, b).ratio()]

    After [Lib/difflib.py] of CPython 3.11.  The matcher is built with
    [isjunk = None] and [autojunk = True]: the set of junk elements is
    empty, and in a [b] of 200 elements or more the elements that occur more
    than [len(b) // 100 + 1] times are popular and are left out of the index
    [b2j].  The elements of the two sequences are of any type that can be
    compared and hashed. *)

#[global] Instance ascii_inhabited : Inhabited ascii := populate "000"%char.

Module Difflib.

(** A match [(i, j, k)]: [a[i:i+k] == b[j:j+k]]. *)
Abbreviation block := (nat * nat * nat)%type.

(** A pending region [(alo, ahi, blo, bhi)]. *)
Abbreviation region := (nat * nat * nat * nat)%type.

Definition size (x : block) : nat := x.2.

(** Tuples compare lexicographically. *)
Definition block_le (x y : block) : Prop :=
  let '(i1, j1, k1) := x in
  let '(i2, j2, k2) := y in
  i1 < i2 \/ (i1 = i2 /\ (j1 < j2 \/ (j1 = j2 /\ k1 <= k2))).

#[global] Instance block_le_dec : RelDecision block_le.
Proof. intros [[i1 j1] k1] [[i2 j2] k2]. unfold block_le. apply _. Defined.

Section SequenceMatcher.

Context {Elt : Type} {Elt_eq : EqDecision Elt} {Elt_countable : Countable Elt}
  {Elt_inhabited : Inhabited Elt}.

Variables a b : list Elt.

(** [__chain_b]: for each element of [b] the increasing list of the
    positions where it occurs. *)
Definition chain (m : gmap Elt (list nat)) (ie : nat * Elt) : gmap Elt (list nat) :=
  <[ie.2 := default [] (m !! ie.2) ++ [ie.1]]> m.

Definition b2j_all : gmap Elt (list nat) :=
  foldl chain ∅ (zip (seq 0 (length b)) b).

Definition bpopular : gset Elt :=
  let n := length b in
  if 200 <=? n
  then let ntest := n / 100 + 1 in
       dom (filter (fun kv : Elt * list nat => ntest < length kv.2) b2j_all)
  else ∅.

Definition b2j : gmap Elt (list nat) :=
  filter (fun kv : Elt * list nat => kv.1 ∉ bpopular) b2j_all.

(** [b2j.get(elt, nothing)] *)
Definition b2j_get (elt : Elt) : list nat := default [] (b2j !! elt).

(** [j2len.get(j-1, 0)]; no key is negative, so at [j = 0] the default
    is returned. *)
Definition j2lenget_pred (j2len : gmap nat nat) (j : nat) : nat :=
  match j with
  | 0 => 0
  | S j' => default 0 (j2len !! j')
  end.

(** The inner loop of [find_longest_match] over the positions [js] of
    [a[i]] in [b]: [continue] below [blo], [break] from [bhi] on. *)
Fixpoint scan_row (i blo bhi : nat) (j2len : gmap nat nat) (js : list nat)
    (newj2len : gmap nat nat) (best : block) : gmap nat nat * block :=
  match js with
  | [] => (newj2len, best)
  | j :: js' =>
      if j <? blo then scan_row i blo bhi j2len js' newj2len best
      else if bhi <=? j then (newj2len, best)
      else
        let k := j2lenget_pred j2len j + 1 in
        let best' := if size best <? k then (i + 1 - k, j + 1 - k, k) else best in
        scan_row i blo bhi j2len js' (<[j := k]> newj2len) best'
  end.

Definition row_step (blo bhi : nat) (st : gmap nat nat * block) (i : nat)
    : gmap nat nat * block :=
  scan_row i blo bhi st.1 (b2j_get (a !!! i)) ∅ st.2.

(** The loop [for i in range(alo, ahi)]. *)
Definition longest_indexed (alo ahi blo bhi : nat) : gmap nat nat * block :=
  foldl (row_step blo bhi) (∅, (alo, blo, 0)) (seq alo (ahi - alo)).

(** [while besti > alo and bestj > blo and a[besti-1] == b[bestj-1]] *)
Fixpoint extend_back (alo blo besti bestj bestsize : nat) : block :=
  match besti, bestj with
  | S i', S j' =>
      if (alo <? besti) && (blo <? bestj) && bool_decide (a !!! i' = b !!! j')
      then extend_back alo blo i' j' (bestsize + 1)
      else (besti, bestj, bestsize)
  | _, _ => (besti, bestj, bestsize)
  end.

(** [while besti+bestsize < ahi and bestj+bestsize < bhi and
    a[besti+bestsize] == b[bestj+bestsize]]; [gap] is
    [ahi - (besti+bestsize)], so the first test is [0 < gap]. *)
Fixpoint extend_fwd (gap bhi besti bestj bestsize : nat) : nat :=
  match gap with
  | 0 => bestsize
  | S gap' =>
      if (bestj + bestsize <? bhi)
         && bool_decide (a !!! (besti + bestsize) = b !!! (bestj + bestsize))
      then extend_fwd gap' bhi besti bestj (bestsize + 1)
      else bestsize
  end.

(** The two loops that absorb junk on each side never run: no element
    is junk. *)
Definition find_longest_match (alo ahi blo bhi : nat) : block :=
  let '(besti, bestj, bestsize) := (longest_indexed alo ahi blo bhi).2 in
  let '(besti, bestj, bestsize) := extend_back alo blo besti bestj bestsize in
  let bestsize := extend_fwd (ahi - (besti + bestsize)) bhi besti bestj bestsize in
  (besti, bestj, bestsize).

(** The children of a region once its longest match is known, in the
    order in which [queue.pop()] will return them. *)
Definition push (r : region) (x : block) (queue : list region) : list region :=
  let '(alo, ahi, blo, bhi) := r in
  let '(i, j, k) := x in
  let queue := if (alo <? i) && (blo <? j)
               then (alo, i, blo, j) :: queue else queue in
  if (i + k <? ahi) && (j + k <? bhi)
  then (i + k, ahi, j + k, bhi) :: queue else queue.

(** The loop [while queue] of [get_matching_blocks].  The Python list
    [queue] is a stack; its last element is the head here.  One unit of
    [fuel] is spent per iteration. *)
Fixpoint blocks_loop (fuel : nat) (queue : list region)
    (matching_blocks : list block) : list block :=
  match fuel, queue with
  | S fuel', (alo, ahi, blo, bhi) :: queue' =>
      let x := find_longest_match alo ahi blo bhi in
      if 0 <? size x
      then blocks_loop fuel' (push (alo, ahi, blo, bhi) x queue')
                       (matching_blocks ++ [x])
      else blocks_loop fuel' queue' matching_blocks
  | _, _ => matching_blocks
  end.

(** One unit per region and two per element of [a] in it bound the
    number of iterations. *)
Definition region_cost (r : region) : nat :=
  let '(alo, ahi, _, _) := r in 2 * (ahi - alo) + 1.

Definition queue_cost (queue : list region) : nat :=
  sum_list_with region_cost queue.

(** The loop that merges adjacent blocks. *)
Definition collapse_step (st : block * list block) (x : block)
    : block * list block :=
  let '((i1, j1, k1), non_adjacent) := st in
  let '(i2, j2, k2) := x in
  if (i1 + k1 =? i2) && (j1 + k1 =? j2)
  then ((i1, j1, k1 + k2), non_adjacent)
  else ((i2, j2, k2),
        if 0 <? k1 then non_adjacent ++ [(i1, j1, k1)] else non_adjacent).

Definition get_matching_blocks : list block :=
  let la := length a in
  let lb := length b in
  let queue := [(0, la, 0, lb)] in
  let matching_blocks := blocks_loop (queue_cost queue) queue [] in
  let matching_blocks := merge_sort block_le matching_blocks in
  let '((i1, j1, k1), non_adjacent) :=
    foldl collapse_step ((0, 0, 0), []) matching_blocks in
  let non_adjacent :=
    if 0 <? k1 then non_adjacent ++ [(i1, j1, k1)] else non_adjacent in
  non_adjacent ++ [(la, lb, 0)].

(** [2.0 * matches / length], or [1.0] when [length] is zero. *)
Definition _calculate_ratio (matches length : nat) : Q :=
  if 0 <? length
  then Qred (Z.of_nat (2 * matches) # Pos.of_nat length)
  else 1%Q.

Definition ratio : Q :=
  let matches := sum_list_with size get_matching_blocks in
  _calculate_ratio matches (length a + length b).

End SequenceMatcher.

End Difflib.

(** ** [address.py] *)

Module Address.

Definition normalise (raw : str) : str :=
  Py.join (s " ") (Py.split (Py.replace "," [] (Py.upper raw))).

Definition similarity (candidate query : str) : Q :=
  let a := normalise candidate in
  let b := normalise query in
  Difflib.ratio a b.

End Address.

(** ** [address.py] on text beyond 7 bits

    A Python [str] is a sequence of Unicode code points.  [str.upper],
    [str.lower] and [str.split] consult the character database of the
    interpreter, which is no part of the package and changes with the
    version of Python: it is an input of the definitions below, which follow
    [Objects/unicodeobject.c] of CPython 3.11. *)

Module Unicode.

(** A code point, and a [str]. *)
Abbreviation code := N.
Abbreviation text := (list N).

(** What the methods ask the database: the full upper-case and lower-case
    mappings of a code point (one to three code points), the properties
    [Cased] and [Case_Ignorable], and whether the code point is whitespace
    ([_PyUnicode_ToUpperFull], [_PyUnicode_ToLowerFull], [_PyUnicode_IsCased],
    [_PyUnicode_IsCaseIgnorable], [Py_UNICODE_ISSPACE]). *)
Record ucd : Type := {
  to_upper_full : code -> text;
  to_lower_full : code -> text;
  is_cased : code -> bool;
  is_case_ignorable : code -> bool;
  is_whitespace : code -> bool;
}.

Definition COMMA : code := 44%N.
Definition SPACE : code := 32%N.
Definition CAPITAL_SIGMA : code := 0x3A3%N.
Definition FINAL_SIGMA : code := 0x3C2%N.
Definition SMALL_SIGMA : code := 0x3C3%N.

Section Str.

Variable db : ucd.

(** [s.upper()] *)
Definition upper (x : text) : text := flat_map (to_upper_full db) x.

(** The first code point of [x] that is not [Case_Ignorable]. *)
Fixpoint skip_ignorable (x : text) : option code :=
  match x with
  | [] => None
  | c :: x' => if is_case_ignorable db c then skip_ignorable x' else Some c
  end.

(** [handle_capital_sigma]: a capital sigma is final when a cased letter
    comes before it and none comes after it, code points that are
    [Case_Ignorable] being skipped on both sides.  [before] is the text
    that precedes the sigma, nearest code point first. *)
Definition handle_capital_sigma (before after : text) : code :=
  let final_sigma :=
    match skip_ignorable before with
    | Some c =>
        is_cased db c
        && match skip_ignorable after with
           | Some d => negb (is_cased db d)
           | None => true
           end
    | None => false
    end in
  if final_sigma then FINAL_SIGMA else SMALL_SIGMA.

(** [s.lower()]: every code point is mapped on its own, but for the
    capital sigma. *)
Fixpoint lower_from (before x : text) : text :=
  match x with
  | [] => []
  | c :: x' =>
      (if (c =? CAPITAL_SIGMA)%N then [handle_capital_sigma before x']
       else to_lower_full db c)
      ++ lower_from (c :: before) x'
  end.

Definition lower (x : text) : text := lower_from [] x.

(** [s.replace(old, new)] for a one-character [old]. *)
Definition replace (old : code) (new : text) (x : text) : text :=
  flat_map (fun c => if (c =? old)%N then new else [c]) x.

(** [s.split()] with no argument; [cur] is the current run, reversed. *)
Fixpoint split_from (cur : text) (x : text) : list text :=
  match x with
  | [] => match cur with [] => [] | _ => [rev cur] end
  | c :: x' =>
      if is_whitespace db c
      then match cur with
           | [] => split_from [] x'
           | _ => rev cur :: split_from [] x'
           end
      else split_from (c :: cur) x'
  end.

Definition split (x : text) : list text := split_from [] x.

(** [sep.join(words)] *)
Fixpoint join (sep : text) (words : list text) : text :=
  match words with
  | [] => []
  | [w] => w
  | w :: ws => w ++ sep ++ join sep ws
  end.

(** [address.normalise] and [address.similarity] *)
Definition normalise (raw : text) : text :=
  join [SPACE] (split (replace COMMA [] (upper raw))).

Definition similarity (candidate query : text) : Q :=
  let a := normalise candidate in
  let b := normalise query in
  Difflib.ratio a b.

End Str.

End Unicode.

(** ** [models.py] *)

Record LookupResult : Type := {
  uprn : Z;
  matched_address : str;
  match_score : Q;
  easting : Q;
  northing : Q;
  latitude : Q;
  longitude : Q;
}.

(** ** The two SQLite files and the driver *)

(** A row of the table [epc_addresses]; a column holds text or NULL. *)
Record epc_record : Type := {
  col_lmk_key : option str;
  col_postcode : option str;
  col_address1 : option str;
  col_address2 : option str;
  col_address3 : option str;
  col_address : option str;
  col_uprn : option str;
}.

(** A row of the table [uprns]. *)
Record uprn_record : Type := {
  col_UPRN : Z;
  col_X_COORDINATE : Q;
  col_Y_COORDINATE : Q;
  col_LATITUDE : Q;
  col_LONGITUDE : Q;
}.

(** What a database file holds: the names in [sqlite_master] and the rows
    of the two tables the package reads. *)
Record database : Type := {
  db_tables : list str;
  db_epc_addresses : list epc_record;
  db_uprns : list uprn_record;
}.

(** The exceptions of the driver: [sqlite3.OperationalError], or another
    one. *)
Inductive sqlite3_exn : Type :=
| Operational (msg : str)
| OtherFailure (msg : str).

Definition of_sqlite3 (e : sqlite3_exn) : exn :=
  match e with
  | Operational msg => OperationalError msg
  | OtherFailure msg => DriverError msg
  end.

(** The environment at each instant: which paths are files, whether a call
    of the driver on a file fails, and what the file holds. *)
Record world : Type := {
  is_file : nat -> str -> bool;
  fault : nat -> str -> option sqlite3_exn;
  content : nat -> str -> database;
}.

(** The result tuple of the address query:
    [(uprn, address1, address2, address3, address)]. *)
Abbreviation epc_row :=
  (option str * option str * option str * option str * option str)%type.

(** The result tuple of the coordinate query. *)
Abbreviation os_row := (Q * Q * Q * Q)%type.

(** The four statements the package executes; the index is the type of the
    rows the cursor yields. *)
Inductive query : Type -> Type :=
| Pragma_query_only : query unit
| Select_tables : query (list str)
| Select_epc (postcode : str) : query (list epc_row)
| Select_uprns (uprn : Z) : query (list os_row).

(** [WHERE postcode = ? AND uprn IS NOT NULL AND uprn != ''] *)
Definition epc_where (pc : str) (r : epc_record) : bool :=
  bool_decide (col_postcode r = Some pc)
  && bool_decide (col_uprn r <> None)
  && bool_decide (col_uprn r <> Some []).

Definition epc_select (r : epc_record) : epc_row :=
  (col_uprn r, col_address1 r, col_address2 r, col_address3 r, col_address r).

Definition os_select (r : uprn_record) : os_row :=
  (col_X_COORDINATE r, col_Y_COORDINATE r, col_LATITUDE r, col_LONGITUDE r).

(** A statement evaluated on the contents of a file.  Rows come in table
    order.  Reading a table that is not there is an operational error. *)
Definition run_query {A} (q : query A) (db : database) : exn + A :=
  match q with
  | Pragma_query_only => inr tt
  | Select_tables => inr (db_tables db)
  | Select_epc pc =>
      if bool_decide (s "epc_addresses" ∈ db_tables db)
      then inr (map epc_select (filter (fun r => epc_where pc r = true) (db_epc_addresses db)))
      else inl (OperationalError (s "no such table: epc_addresses"))
  | Select_uprns u =>
      if bool_decide (s "uprns" ∈ db_tables db)
      then inr (map os_select (filter (fun r => col_UPRN r = u) (db_uprns db)))
      else inl (OperationalError (s "no such table: uprns"))
  end.

(** ** [_db.py] *)

Inductive connection : Type := Connection (file : str).

Definition conn_file (c : connection) : str := let 'Connection f := c in f.

Record _DatabasePool : Type := {
  _path : str;
  _name : str;
  _conn : option connection;
}.

(** [_DatabasePool(path, name)] *)
Definition new_pool (path name : str) : _DatabasePool :=
  {| _path := path; _name := name; _conn := None |}.

(** The two pools an engine owns. *)
Inductive pool_ref : Type := _epc_pool | _os_pool.

(** The mutable state: the clock of the environment and the two pool
    objects. *)
Record state : Type := {
  now : nat;
  epc_pool : _DatabasePool;
  os_pool : _DatabasePool;
}.

Definition deref (self : pool_ref) (st : state) : _DatabasePool :=
  match self with _epc_pool => epc_pool st | _os_pool => os_pool st end.

Definition assign (self : pool_ref) (p : _DatabasePool) (st : state) : state :=
  match self with
  | _epc_pool => {| now := now st; epc_pool := p; os_pool := os_pool st |}
  | _os_pool => {| now := now st; epc_pool := epc_pool st; os_pool := p |}
  end.

(** Computations that read and write the state and may raise. *)
Definition M (A : Type) : Type := state -> (exn + A) * state.

Definition ret {A} (x : A) : M A := fun st => (inr x, st).

Definition raise {A} (e : exn) : M A := fun st => (inl e, st).

Definition bind {A B} (m : M A) (f : A -> M B) : M B :=
  fun st =>
    match m st with
    | (inr x, st') => f x st'
    | (inl e, st') => (inl e, st')
    end.

(** [try: body except Exception as e: handler(e)] *)
Definition try_except {A} (body : M A) (handler : exn -> M A) : M A :=
  fun st =>
    match body st with
    | (inr x, st') => (inr x, st')
    | (inl e, st') => handler e st'
    end.

Definition lift {A} (r : exn + A) : M A := fun st => (r, st).

Notation "'let*' x := m 'in' k" := (bind m (fun x => k))
  (at level 10, x name, m at level 100, k at level 200).
Notation "'let*' ' p := m 'in' k" := (bind m (fun p => k))
  (at level 10, p pattern, m at level 100, k at level 200).

(** Each question put to the environment takes one instant. *)
Definition tick : M nat :=
  fun st => (inr (now st),
             {| now := S (now st); epc_pool := epc_pool st; os_pool := os_pool st |}).

Definition get_self (self : pool_ref) : M _DatabasePool :=
  fun st => (inr (deref self st), st).

Definition set_conn (self : pool_ref) (c : option connection) : M unit :=
  fun st =>
    let p := deref self st in
    (inr tt, assign self {| _path := _path p; _name := _name p; _conn := c |} st).

Section Driver.

Variable w : world.

(** [path.is_file()] *)
Definition path_is_file (path : str) : M bool :=
  let* t := tick in ret (is_file w t path).

(** [sqlite3.connect(f"file:{path}?mode=ro", uri=True)] *)
Definition sqlite3_connect (path : str) : M connection :=
  let* t := tick in
  match fault w t path with
  | Some e => raise (of_sqlite3 e)
  | None => ret (Connection path)
  end.

(** [conn.execute(sql, params)]; the cursor is the list of its rows. *)
Definition conn_execute {A} (conn : connection) (sql : query A) : M A :=
  let* t := tick in
  match fault w t (conn_file conn) with
  | Some e => raise (of_sqlite3 e)
  | None => lift (run_query sql (content w t (conn_file conn)))
  end.

Definition close (self : pool_ref) : M unit :=
  let* p := get_self self in
  match _conn p with
  | Some _ => set_conn self None
  | None => ret tt
  end.

Definition _open (self : pool_ref) : M unit :=
  let* p := get_self self in
  let* ok := path_is_file (_path p) in
  if negb ok then raise (DatabaseNotFound (_path p) (_name p))
  else
    let* c := sqlite3_connect (_path p) in
    let* _ := set_conn self (Some c) in
    conn_execute c Pragma_query_only.

(** Returns [self._conn], which is a connection or [None]. *)
Definition get_connection (self : pool_ref) : M (option connection) :=
  let* p := get_self self in
  match _conn p with
  | None => let* _ := _open self in let* p' := get_self self in ret (_conn p')
  | Some c => ret (Some c)
  end.

(** The handler of [except sqlite3.OperationalError] in [execute]; any
    other exception is not caught. *)
Definition on_operational_error {A} (self : pool_ref) (e : exn) : M A :=
  match e with
  | OperationalError _ =>
      let* p := get_self self in
      let* ok := path_is_file (_path p) in
      if negb ok
      then let* _ := close self in raise (DatabaseNotFound (_path p) (_name p))
      else raise e
  | _ => raise e
  end.

Definition execute {A} (self : pool_ref) (sql : query A) : M A :=
  let* conn := get_connection self in
  try_except
    match conn with
    | Some c => conn_execute c sql
    | None => raise (DriverError (s "'NoneType' object has no attribute 'execute'"))
    end
    (on_operational_error self).

(** Strings compare by code point, as [sorted] does. *)
Fixpoint str_leb (x y : str) : bool :=
  match x, y with
  | [], _ => true
  | _ :: _, [] => false
  | c :: x', d :: y' =>
      if Py.ord c <? Py.ord d then true
      else if Py.ord d <? Py.ord c then false
      else str_leb x' y'
  end.

Definition str_le (x y : str) : Prop := str_leb x y = true.

#[global] Instance str_le_dec : RelDecision str_le.
Proof. intros x y. unfold str_le. apply _. Defined.

Definition validate_tables (self : pool_ref) (expected : list str) : M unit :=
  let* cur := execute self Select_tables in
  let actual := cur in
  let missing :=
    remove_dups (filter (fun t => t ∉ actual) expected) in
  match missing with
  | [] => ret tt
  | _ :: _ =>
      let* p := get_self self in
      raise (DatabaseInvalid (_path p)
               (s "missing tables: " ++ Py.join (s ", ") (merge_sort str_le missing)))
  end.

End Driver.

(** ** [client.py] *)

Definition _DEFAULT_THRESHOLD : Q := 0.45.

(** The engine object; its two pools live in the [state]. *)
Record UKGeolocate : Type := { _threshold : Q }.

(** The dictionary [health_check] returns. *)
Record health_status : Type := {
  healthy : bool;
  epc_db : str;
  os_db : str;
}.

Definition Qlt_bool (x y : Q) : bool := negb (Qle_bool y x).

(** The builtin [max] keeps its first argument unless a later one is
    strictly greater. *)
Definition max2 (x y : Q) : Q := if Qlt_bool x y then y else x.

Definition max4 (x y z t : Q) : Q := max2 (max2 (max2 x y) z) t.

(** The value of [row_score] in the loop of [_lookup_uprn]. *)
Definition row_score (norm_query : str) (row : epc_row) : Q :=
  let '(_, addr1, addr2, addr3, addr_full) := row in
  max4 (Address.similarity (Py.or_empty addr1) norm_query)
       (Address.similarity (Py.or_empty addr2) norm_query)
       (Address.similarity (Py.or_empty addr3) norm_query)
       (Address.similarity (Py.or_empty addr_full) norm_query).

(** [addr_full or addr1 or ''] *)
Definition best_address (row : epc_row) : str :=
  let '(_, addr1, _, _, addr_full) := row in
  if Py.truthy addr_full then Py.or_empty addr_full
  else if Py.truthy addr1 then Py.or_empty addr1
  else [].

(** [int(uprn_str)]; [None] stands for [ValueError] or, on NULL,
    [TypeError]. *)
Definition uprn_int (row : epc_row) : option Z :=
  let '(uprn_str, _, _, _, _) := row in uprn_str ≫= Py.int.

(** The loop [for ... in cur] of [_lookup_uprn], from the value of [best]
    on entry. *)
Fixpoint scan_rows (threshold : Q) (norm_query : str)
    (best : option (Z * str * Q)) (cur : list epc_row) : option (Z * str * Q) :=
  match cur with
  | [] => best
  | row :: cur' =>
      let score := row_score norm_query row in
      if Qle_bool threshold score
         && match best with
            | None => true
            | Some b => Qlt_bool b.2 score
            end
      then
        match uprn_int row with
        | None => scan_rows threshold norm_query best cur'
        | Some u =>
            let best' := Some (u, best_address row, score) in
            if Qeq_bool score 1 then best'
            else scan_rows threshold norm_query best' cur'
        end
      else scan_rows threshold norm_query best cur'
  end.

(** The two pools that [__init__] creates, before they are validated. *)
Definition fresh_pools (epc_db os_db : str) (st : state) : state :=
  {| now := now st;
     epc_pool := new_pool epc_db (s "EPC");
     os_pool := new_pool os_db (s "OS Open UPRN") |}.

Section Client.

Variable w : world.

Definition _validate_databases : M unit :=
  let* _ := validate_tables w _epc_pool [s "epc_addresses"] in
  validate_tables w _os_pool [s "uprns"].

(** [UKGeolocate(epc_db, os_db, match_threshold)] *)
Definition __init__ (epc_db os_db : str) (match_threshold : Q) : M UKGeolocate :=
  fun st =>
    (let* _ := _validate_databases in
     ret {| _threshold := match_threshold |}) (fresh_pools epc_db os_db st).

Definition _lookup_uprn (self : UKGeolocate) (norm_postcode address_line : str)
    : M (Z * str * Q) :=
  let norm_query := Address.normalise address_line in
  let* cur := execute w _epc_pool (Select_epc norm_postcode) in
  match scan_rows (_threshold self) norm_query None cur with
  | None => raise (NoMatchFound norm_postcode address_line)
  | Some best => ret best
  end.

Definition _lookup_coordinates (u : Z) (postcode_for_error address_for_error : str)
    : M os_row :=
  let* cur := execute w _os_pool (Select_uprns u) in
  match cur with
  | [] => raise (NoMatchFound postcode_for_error address_for_error)
  | row :: _ => ret row
  end.

Definition find_coordinates (self : UKGeolocate) (postcode_raw address_line : str)
    : M LookupResult :=
  let* pc := lift (Postcode.normalise postcode_raw) in
  let* '(u, matched, score) := _lookup_uprn self pc address_line in
  let* '(x, y, lat, lon) := _lookup_coordinates u pc address_line in
  ret {| uprn := u; matched_address := matched; match_score := score;
         easting := x; northing := y; latitude := lat; longitude := lon |}.

Definition health_check : M health_status :=
  let status := {| healthy := true; epc_db := s "ok"; os_db := s "ok" |} in
  let* status :=
    try_except
      (let* _ := validate_tables w _epc_pool [s "epc_addresses"] in ret status)
      (fun exc => ret {| healthy := false; epc_db := exn_str exc; os_db := os_db status |}) in
  let* status :=
    try_except
      (let* _ := validate_tables w _os_pool [s "uprns"] in ret status)
      (fun exc => ret {| healthy := false; epc_db := epc_db status; os_db := exn_str exc |}) in
  ret status.

Definition engine_close : M unit :=
  let* _ := close _epc_pool in close _os_pool.

(** [UKGeolocate.__enter__] and [UKGeolocate.__exit__] *)
Definition __enter__ (self : UKGeolocate) : M UKGeolocate := ret self.

Definition __exit__ : M unit := engine_close.

(** [with engine as c: body(c)].  [__exit__] runs when the body returns
    and when it raises; it returns [None], so an exception of the body is
    raised again once the pools are closed. *)
Definition with_ {A} (engine : UKGeolocate) (body : UKGeolocate -> M A) : M A :=
  let* c := __enter__ engine in
  fun st =>
    match body c st with
    | (inr x, st') => (let* _ := __exit__ in ret x) st'
    | (inl e, st') => (let* _ := __exit__ in raise e) st'
    end.

End Client.

(** ** [cli.py]

    The command line reads the keyboard and writes to the two output
    streams; both are part of what a run takes and returns.  Paths are
    texts, as everywhere in the model. *)

(** [x.ljust(width)] and [x.rjust(width)]: what the format specifications
    [<35] and [>20] do to a text. *)
Definition ljust (width : nat) (x : str) : str := x ++ replicate (width - length x) " "%char.
Definition rjust (width : nat) (x : str) : str := replicate (width - length x) " "%char ++ x.

(** [str(n)] for an integer. *)
Definition str_int (n : Z) : str := s (NilZero.string_of_int (Z.to_int n)).

Definition LF : str := ["010"%char].
Definition CR : str := ["013"%char].

(** What the standard input and the standard output of the process are:
    files or pipes, or both the terminal, and then with the module
    [readline] loaded in the interpreter or not ([cli.py] does not load
    it). *)
Inductive console : Type := Redirected | Terminal (readline : bool).

(** What the process is started with: [os.environ], the working directory
    as [str(Path.cwd())] prints it, [sys.argv], and its standard input and
    output. *)
Record process : Type := {
  environ : str -> option str;
  cwd : str;
  argv : list str;
  stdio : console;
}.

(** [str(Path.cwd() / name)] *)
Definition in_cwd (p : process) (name : str) : str :=
  if bool_decide (cwd p = s "/") then cwd p ++ name else cwd p ++ s "/" ++ name.

Definition _DEFAULT_EPC (p : process) : str :=
  default (in_cwd p (s "EPClocations.db")) (environ p (s "EPCLOCATIONS_DB")).

Definition _DEFAULT_OS (p : process) : str :=
  default (in_cwd p (s "OSOpenUPRN.db")) (environ p (s "OSOPENUPRN_DB")).

(** What [input] meets on the standard input: a line, or an interrupt from
    the keyboard; the end of the list is the end of the file. *)
Inductive keyboard : Type := Line (text : str) | Ctrl_C.

(** The two output streams, as the texts written to them, in order. *)
Record terminal : Type := { stdout : list str; stderr : list str }.

Definition write (x : str) (tty : terminal) : terminal :=
  {| stdout := stdout tty ++ [x]; stderr := stderr tty |}.

(** [print(x)] and [print(x, file=sys.stderr)] *)
Definition print (x : str) (tty : terminal) : terminal := write (x ++ LF) tty.

Definition print_err (x : str) (tty : terminal) : terminal :=
  {| stdout := stdout tty; stderr := stderr tty ++ [x ++ LF] |}.

(** [input(x)] shows its prompt [x] before it reads.  On the terminal
    CPython reads the line itself ([PyOS_Readline]) and, unless [readline]
    is loaded, writes the prompt to the standard error
    ([PyOS_StdioReadline]); in every other case the prompt is written to
    [sys.stdout]. *)
Definition prompt (io : console) (x : str) (tty : terminal) : terminal :=
  match io with
  | Terminal false => {| stdout := stdout tty; stderr := stderr tty ++ [x] |}
  | Terminal true | Redirected => write x tty
  end.

(** How a run ends when it does not return: an exception that nothing
    catches, or [sys.exit]. *)
Inductive signal : Type :=
| Raised (e : exn)
| SystemExit (code : nat).

(** The exit status of the process. *)
Definition exit_status (r : signal + unit) : nat :=
  match r with
  | inr _ => 0
  | inl (SystemExit code) => code
  | inl (Raised _) => 1
  end.

(** [isinstance(e, UKGeolocateError)] *)
Definition is_UKGeolocateError (e : exn) : bool :=
  match e with
  | PostcodeInvalid _ | DatabaseNotFound _ _ | DatabaseInvalid _ _ | NoMatchFound _ _ => true
  | OperationalError _ | DriverError _ => false
  end.

Definition _BANNER : str :=
  s "╔══════════════════════════════════════╗" ++ LF ++
  s "║       UPRN Coordinate Lookup         ║" ++ LF ++
  s "║  Postcode + Address → Coordinates    ║" ++ LF ++
  s "╚══════════════════════════════════════╝" ++ LF ++
  s "Type 'q' to quit." ++ LF.

(** A value of the dictionary [to_dict] returns. *)
Inductive value : Type := Int (n : Z) | Str (x : str) | Float (x : Q).

Section Cli.

Variable w : world.

(** The texts Python makes of a float are not modelled: [str(x)], the
    format [.0%] and [round(x, 3)] are parameters. *)
Variable float_str : Q -> str.
Variable percent : Q -> str.
Variable round3 : Q -> Q.

(** [LookupResult.to_dict], in the order of the keys. *)
Definition to_dict (r : LookupResult) : list (str * value) :=
  [ (s "uprn", Int (uprn r));
    (s "matched_address", Str (matched_address r));
    (s "match_score", Float (round3 (match_score r)));
    (s "easting", Float (easting r));
    (s "northing", Float (northing r));
    (s "latitude", Float (latitude r));
    (s "longitude", Float (longitude r)) ].

(** [str(val)] *)
Definition value_str (v : value) : str :=
  match v with Int n => str_int n | Str x => x | Float x => float_str x end.

(** The lines that show a match. *)
Definition display (result : LookupResult) (tty : terminal) : terminal :=
  let confidence := percent (match_score result) in
  let row (label : string) (x : str) :=
    print (s "  │  " ++ s label ++ ljust 35 x ++ s "│") in
  let tty := print (CR ++ s "  ✓ Match found (" ++ confidence ++ s " confidence)") tty in
  let tty := print [] tty in
  let tty := print (s "  ┌──────────────────────────────────────────────────────┐") tty in
  let tty := row "Matched Address   " (matched_address result) tty in
  let tty := row "UPRN              " (str_int (uprn result)) tty in
  let tty := row "Easting           " (float_str (easting result)) tty in
  let tty := row "Northing          " (float_str (northing result)) tty in
  let tty := row "Latitude          " (float_str (latitude result)) tty in
  let tty := row "Longitude         " (float_str (longitude result)) tty in
  let tty := row "Match Confidence  " confidence tty in
  print (s "  └──────────────────────────────────────────────────────┘") tty.

(** The loop [while True] of [_run_interactive].  [input] shows its
    prompt, then reads; [EOFError] and [KeyboardInterrupt] end the loop. *)
Fixpoint interactive_loop (io : console) (client : UKGeolocate) (keys : list keyboard)
    (tty : terminal) (st : state) {struct keys} : (signal + unit) * terminal * state :=
  let tty := prompt io (LF ++ s "Postcode:        ") tty in
  match keys with
  | [] | Ctrl_C :: _ => (inr tt, print (LF ++ s "Bye!") tty, st)
  | Line text :: keys =>
      let raw_postcode := Py.strip text in
      if bool_decide (Py.lower raw_postcode ∈ [s "q"; s "quit"; s "exit"])
      then (inr tt, print (s "Bye!") tty, st)
      else if negb (Py.truthy (Some raw_postcode))
      then interactive_loop io client keys (print (s "  ✗ Postcode is required.") tty) st
      else if negb (Postcode.validate raw_postcode)
      then interactive_loop io client keys
             (print (s "  ✗ Invalid UK postcode format: '" ++ raw_postcode ++ s "'") tty) st
      else
        let tty := prompt io (s "Address line 1:  ") tty in
        match keys with
        | [] | Ctrl_C :: _ => (inr tt, print (LF ++ s "Bye!") tty, st)
        | Line text :: keys =>
            let raw_address := Py.strip text in
            if negb (Py.truthy (Some raw_address))
            then interactive_loop io client keys
                   (print (s "  ✗ Address line 1 is required.") tty) st
            else
              let tty := write (s "  ⏳ Searching EPC database …") tty in
              match find_coordinates w client raw_postcode raw_address st with
              | (inr result, st) => interactive_loop io client keys (display result tty) st
              | (inl (NoMatchFound _ _), st) =>
                  interactive_loop io client keys
                    (print (CR ++ s "  ✗ No matching UPRN for '" ++ raw_postcode
                            ++ s "' / '" ++ raw_address ++ s "'") tty) st
              | (inl exc, st) =>
                  if is_UKGeolocateError exc
                  then interactive_loop io client keys
                         (print (CR ++ s "  ✗ Error: " ++ exn_str exc) tty) st
                  else (inl (Raised exc), tty, st)
              end
        end
  end.

Definition _run_interactive (io : console) (client : UKGeolocate) (keys : list keyboard)
    (tty : terminal) (st : state) : (signal + unit) * terminal * state :=
  interactive_loop io client keys (print _BANNER tty) st.

(** The branch [len(sys.argv) == 3] of [main]. *)
Definition single_shot (client : UKGeolocate) (postcode_raw address_line : str)
    (tty : terminal) (st : state) : (signal + unit) * terminal * state :=
  match find_coordinates w client postcode_raw address_line st with
  | (inr result, st) =>
      (inr tt,
       foldl (fun tty kv => print (rjust 20 kv.1 ++ s ": " ++ value_str kv.2) tty)
             tty (to_dict result),
       st)
  | (inl (PostcodeInvalid pc), st) =>
      (inl (SystemExit 1), print_err (s "Invalid postcode: " ++ pc) tty, st)
  | (inl (NoMatchFound _ _), st) =>
      (inl (SystemExit 1), print_err (s "No match found.") tty, st)
  | (inl exc, st) => (inl (Raised exc), tty, st)
  end.

Definition main (p : process) (keys : list keyboard) (tty : terminal) (st : state)
    : (signal + unit) * terminal * state :=
  match __init__ w (_DEFAULT_EPC p) (_DEFAULT_OS p) _DEFAULT_THRESHOLD st with
  | (inl (DatabaseNotFound path db_name as exc), st) =>
      let tty := print_err (s "Error: " ++ exn_str exc) tty in
      let tty :=
        print_err (s "Set EPCLOCATIONS_DB and OSOPENUPRN_DB environment variables, "
                   ++ s "or run from the directory containing the databases.") tty in
      (inl (SystemExit 2), tty, st)
  | (inl exc, st) => (inl (Raised exc), tty, st)
  | (inr client, st) =>
      let '(r, tty, st) :=
        match argv p with
        | [_; postcode_raw; address_line] => single_shot client postcode_raw address_line tty st
        | _ => _run_interactive (stdio p) client keys tty st
        end in
      (* finally: client.close() *)
      match engine_close st with
      | (inr _, st) => (r, tty, st)
      | (inl exc, st) => (inl (Raised exc), tty, st)
      end
  end.

End Cli.

(** ** Notions used to state the properties *)

(** A row can be selected: its score reaches the threshold and its UPRN
    field parses. *)
Definition eligible (threshold : Q) (norm_query : str) (row : epc_row) : Prop :=
  Qle_bool threshold (row_score norm_query row) = true /\ is_Some (uprn_int row).

(** The row has an address column that is NULL or normalises to the empty
    string. *)
Definition has_blank_column (row : epc_row) : Prop :=
  let '(_, addr1, addr2, addr3, addr_full) := row in
  Exists (fun c => Address.normalise (Py.or_empty c) = []) [addr1; addr2; addr3; addr_full].

(** The reading of the matched address in which an empty full address falls
    back to the first alternate column that is not empty. *)
Definition first_available_address (row : epc_row) : str :=
  let '(_, addr1, addr2, addr3, addr_full) := row in
  if Py.truthy addr_full then Py.or_empty addr_full
  else if Py.truthy addr1 then Py.or_empty addr1
  else if Py.truthy addr2 then Py.or_empty addr2
  else if Py.truthy addr3 then Py.or_empty addr3
  else [].

(** [x'] is [x] with the case of some letters changed. *)
Definition case_changed (x x' : str) : Prop :=
  Forall2 (fun c c' => c' = c \/ c' = Py.upper_char c \/ c' = Py.lower_char c) x x'.

(** The driver never words a failure as the text [ok]. *)
Definition driver_never_says_ok (w : world) : Prop :=
  forall t path e, fault w t path = Some e -> exn_str (of_sqlite3 e) <> s "ok".

(** The state [n] instants later. *)
Definition advance (n : nat) (st : state) : state :=
  {| now := n + now st; epc_pool := epc_pool st; os_pool := os_pool st |}.

(** The pool after a successful first use: same path and name, with a
    connection to its file. *)
Definition connected (self : pool_ref) (st : state) : state :=
  let p := deref self st in
  assign self {| _path := _path p; _name := _name p;
                 _conn := Some (Connection (_path p)) |} st.

(** The regions [get_matching_blocks] works on are well formed, and hold
    at most as many matched elements as their shorter side. *)
Definition region_wf (r : Difflib.region) : Prop :=
  let '(alo, ahi, blo, bhi) := r in alo <= ahi /\ blo <= bhi.

Definition region_cap (r : Difflib.region) : nat :=
  let '(alo, ahi, blo, bhi) := r in (ahi - alo) `min` (bhi - blo).

(** The positions of [c] in [l], counted from [off]. *)
Fixpoint positions {Elt : Type} {Elt_eq : EqDecision Elt} (c : Elt) (off : nat) (l : list Elt) : list nat :=
  match l with
  | [] => []
  | d :: l' => (if decide (d = c) then [off] else []) ++ positions c (S off) l'
  end.

(** Position [x] of [b] holds an element that the index [b2j] knows, that
    is, one that is not popular. *)
Definition indexed {Elt : Type} {Elt_eq : EqDecision Elt} {Elt_countable : Countable Elt}
    {Elt_inhabited : Inhabited Elt} (b : list Elt) (x : nat) : bool :=
  match Difflib.b2j_get b (b !!! x) with
  | [] => false
  | _ :: _ => true
  end.

(** The length of the run of indexed elements of [b] that ends at
    position [x]. *)
Fixpoint indexed_run {Elt : Type} {Elt_eq : EqDecision Elt} {Elt_countable : Countable Elt}
    {Elt_inhabited : Inhabited Elt} (b : list Elt) (x : nat) : nat :=
  match x with
  | 0 => if indexed b 0 then 1 else 0
  | S x' => if indexed b x then S (indexed_run b x') else 0
  end.

(** The word that [split] closes when it meets whitespace or the end of
    the text; [cur] is the word read so far, reversed. *)
Definition closed_word (cur : str) : list str :=
  match cur with [] => [] | _ :: _ => [rev cur] end.

(** A text without whitespace. *)
Definition spaceless (x : str) : Prop := Forall (fun c => Py.isspace c = false) x.

(** A character that [Address.normalise] leaves alone: [upper] does not
    change it and it is not a comma. *)
Definition settled (c : ascii) : Prop := Py.upper_char c = c /\ c <> ","%char.

(** The words of a normalised address. *)
Definition words (raw : str) : list str := Py.split (Py.replace "," [] (Py.upper raw)).

(** The [k] elements of [a] that end just before row [i] are the [k]
    elements of [b] that end at position [j]. *)
Definition run_ends (a b : str) (i j k : nat) : Prop :=
  k <= i /\ k <= j + 1 /\ forall t, t < k -> a !!! (i - 1 - t) = b !!! (j - t).

(** The block names equal elements of the two sequences. *)
Definition is_match (a b : str) (x : Difflib.block) : Prop :=
  forall t, t < Difflib.size x -> a !!! (x.1.1 + t) = b !!! (x.1.2 + t).

(** A match that lies inside the two sequences. *)
Definition sound_block (a b : str) (x : Difflib.block) : Prop :=
  is_match a b x /\ x.1.1 + Difflib.size x <= length a /\ x.1.2 + Difflib.size x <= length b.

(** A region that lies inside the two sequences. *)
Definition inner_region {Elt : Type} (a b : list Elt) (r : Difflib.region) : Prop :=
  let '(alo, ahi, blo, bhi) := r in
  alo <= ahi /\ ahi <= length a /\ blo <= bhi /\ bhi <= length b.

(** The two sides of the region are the same text. *)
Definition region_equal (a b : str) (r : Difflib.region) : Prop :=
  let '(alo, ahi, blo, bhi) := r in
  ahi - alo = bhi - blo /\ forall t, t < ahi - alo -> a !!! (alo + t) = b !!! (blo + t).

Definition region_len_a (r : Difflib.region) : nat :=
  let '(alo, ahi, _, _) := r in ahi - alo.

Definition region_len_b (r : Difflib.region) : nat :=
  let '(_, _, blo, bhi) := r in bhi - blo.

(** A handle that holds a connection holds one to its own file. *)
Definition own_connection (p : _DatabasePool) : Prop :=
  forall c, _conn p = Some c -> conn_file c = _path p.

(** The pool that [self] does not name. *)
Definition other (self : pool_ref) : pool_ref :=
  match self with _epc_pool => _os_pool | _os_pool => _epc_pool end.

(** The state once both pools are closed. *)
Definition closed (st : state) : state :=
  {| now := now st;
     epc_pool := new_pool (_path (epc_pool st)) (_name (epc_pool st));
     os_pool := new_pool (_path (os_pool st)) (_name (os_pool st)) |}.

(** One of the four address columns of the row is the query, up to
    normalisation. *)
Definition has_exact_column (query : str) (row : epc_row) : Prop :=
  let '(_, addr1, addr2, addr3, addr_full) := row in
  Exists (fun c => Address.normalise (Py.or_empty c) = Address.normalise query)
         [addr1; addr2; addr3; addr_full].

(** Two runs of the selection loop over the same rows, one with the
    threshold [th2] and one with a lower threshold, stay related: their best
    rows are the same, or the run with [th2] has none while the other holds a
    row that scores below [th2]. *)
Definition runs_related (th2 : Q) (best2 best1 : option (Z * str * Q)) : Prop :=
  (best1 = best2 /\ forall b, best2 = Some b -> (th2 <= b.2)%Q)
  \/ (best2 = None /\ exists b1, best1 = Some b1 /\ (b1.2 < th2)%Q).

(** At most one character, of the class [P]. *)
Definition optional (P : ascii -> Prop) (x : str) : Prop :=
  x = [] \/ exists c, x = [c] /\ P c.

(** The number of whitespace characters of a text. *)
Definition spaces (x : str) : nat :=
  sum_list_with (fun c => if Py.isspace c then 1 else 0) x.

(** A line that reports an error names a database that was not found. *)
Definition error_line_ok (x : str) : Prop :=
  forall msg, x = CR ++ s "  ✗ Error: " ++ msg ++ LF ->
    exists path db_name, msg = exn_str (DatabaseNotFound path db_name).

(** The two prompts of the interactive session. *)
Definition is_prompt (x : str) : Prop :=
  x = LF ++ s "Postcode:        " \/ x = s "Address line 1:  ".

(** [tty'] is [tty] with more text: on the standard error nothing but
    prompts, and none unless the session is on the terminal without
    [readline]; on the standard output, lines of which every one that
    reports an error is of that kind. *)
Definition extends (io : console) (tty tty' : terminal) : Prop :=
  (exists shown, stderr tty' = stderr tty ++ shown /\ Forall is_prompt shown
                 /\ (io <> Terminal false -> shown = []))
  /\ exists new, stdout tty' = stdout tty ++ new /\ Forall error_line_ok new.

(** [st'] is a later state of the same two pools. *)
Definition later (st st' : state) : Prop :=
  now st <= now st'
  /\ forall pool, _path (deref pool st') = _path (deref pool st)
                  /\ _name (deref pool st') = _name (deref pool st).

(** What holds of a run of the interactive loop that starts with the
    terminal [tty] and the state [st]: no exception of the package and no
    exit leaves it. *)
Definition safe_run (io : console) (tty : terminal) (st : state)
    (run : (signal + unit) * terminal * state) : Prop :=
  match run.1.1 with
  | inr _ => True
  | inl (Raised e) => is_UKGeolocateError e = false
  | inl (SystemExit _) => False
  end
  /\ extends io tty run.1.2
  /\ later st run.2.

(** The run of [main] between the construction of the engine and the
    clause [finally]. *)
Definition main_body (w : world) (float_str percent : Q -> str) (round3 : Q -> Q)
    (client : UKGeolocate) (p : process) (keys : list keyboard)
    (tty : terminal) (st : state) : (signal + unit) * terminal * state :=
  match argv p with
  | [_; postcode_raw; address_line] =>
      single_shot w float_str round3 client postcode_raw address_line tty st
  | _ => _run_interactive w float_str percent (stdio p) client keys tty st
  end.

(** A character of the 7-bit model as a code point, and a [str] of that
    model as a sequence of code points. *)
Definition code_of (c : ascii) : Unicode.code := N.of_nat (Py.ord c).
Definition of_str (x : str) : Unicode.text := code_of <$> x.

(** A text of code points below 128. *)
Definition seven_bit (x : str) : Prop := Forall (fun c => Py.ord c < 128) x.

(** What every version of the Unicode character database says of the
    Basic Latin block: the letters [a] to [z] and [A] to [Z] are mapped to
    each other, every other code point to itself, and the whitespace is
    TAB, LF, VT, FF, CR, the four separators and the space. *)
Definition basic_latin (db : Unicode.ucd) : Prop :=
  forall c, (c < 128)%N ->
    Unicode.to_upper_full db c
    = [if (97 <=? c)%N && (c <=? 122)%N then (c - 32)%N else c]
    /\ Unicode.to_lower_full db c
       = [if (65 <=? c)%N && (c <=? 90)%N then (c + 32)%N else c]
    /\ Unicode.is_whitespace db c
       = ((9 <=? c)%N && (c <=? 13)%N || (28 <=? c)%N && (c <=? 32)%N).

(** The Kelvin sign U+212A is a letter whose lower case is [k] and that is
    its own upper case ([UnicodeData.txt], since Unicode 1.1). *)
Definition KELVIN_SIGN : Unicode.code := 0x212A%N.

Definition kelvin_sign (db : Unicode.ucd) : Prop :=
  Unicode.to_upper_full db KELVIN_SIGN = [KELVIN_SIGN]
  /\ Unicode.to_lower_full db KELVIN_SIGN = [107%N]
  /\ Unicode.is_whitespace db KELVIN_SIGN = false.

(** [x'] is [x] with the case of some of the letters [A] to [Z] and [a] to
    [z] changed; the other code points of [x] are any. *)
Definition letters_changed (x x' : Unicode.text) : Prop :=
  Forall2 (fun c c' => c' = c
                       \/ ((65 <= c <= 90)%N /\ c' = (c + 32)%N)
                       \/ ((97 <= c <= 122)%N /\ c' = (c - 32)%N)) x x'.

(** ** Test data

    The two databases of [tests/conftest.py], an environment in which both
    files exist and the driver never fails, and variations of it. *)

Definition mk_epc (key pc a1 a2 a3 a u : string) : epc_record :=
  {| col_lmk_key := Some (s key); col_postcode := Some (s pc);
     col_address1 := Some (s a1); col_address2 := Some (s a2);
     col_address3 := Some (s a3); col_address := Some (s a);
     col_uprn := Some (s u) |}.

Definition blank : string := String.EmptyString.

Definition mk_uprn (u : Z) (x y lat lon : Q) : uprn_record :=
  {| col_UPRN := u; col_X_COORDINATE := x; col_Y_COORDINATE := y;
     col_LATITUDE := lat; col_LONGITUDE := lon |}.

Definition tmp_epc_db : database :=
  {| db_tables := [s "epc_addresses"];
     db_epc_addresses :=
       [ mk_epc "lmk001" "SW1A 2AA" "10 DOWNING STREET" blank blank
           "10, DOWNING STREET, LONDON" "100023336956";
         mk_epc "lmk002" "SW1A 2AA" "11 DOWNING STREET" blank blank
           "11, DOWNING STREET, LONDON" "100023336957";
         mk_epc "lmk003" "EC1A 1BB" "1 EXAMPLE ROAD" "FLAT A" blank
           "FLAT A, 1 EXAMPLE ROAD, LONDON" "200000000001";
         mk_epc "lmk004" "M1 1AE" "50 HIGH STREET" blank blank
           "50, HIGH STREET, MANCHESTER" "300000000001";
         mk_epc "lmk005" "SW1A 2AA" "12 DOWNING STREET" blank blank
           "12, DOWNING STREET, LONDON" "not_a_number" ];
     db_uprns := [] |}.

Definition tmp_os_db : database :=
  {| db_tables := [s "uprns"];
     db_epc_addresses := [];
     db_uprns :=
       [ mk_uprn 100023336956 530047 179951 51.5034 (-0.1276);
         mk_uprn 100023336957 530048 179952 51.5035 (-0.1275);
         mk_uprn 200000000001 532000 181000 51.52 (-0.1);
         mk_uprn 300000000001 383800 398000 53.4808 (-2.2426) ] |}.

Definition epc_path : str := s "test_epc.db".
Definition os_path : str := s "test_os.db".

(** Both files exist and hold the test data; the driver never fails. *)
Definition test_world : world :=
  {| is_file := fun _ p => bool_decide (p = epc_path) || bool_decide (p = os_path);
     fault := fun _ _ => None;
     content := fun _ p => if bool_decide (p = epc_path) then tmp_epc_db else tmp_os_db |}.

(** The state before any engine exists, and the engine under test with
    the state its construction leaves. *)
Definition no_pool : _DatabasePool := {| _path := []; _name := []; _conn := None |}.

Definition boot : state := {| now := 0; epc_pool := no_pool; os_pool := no_pool |}.

Definition client : UKGeolocate := {| _threshold := _DEFAULT_THRESHOLD |}.

Definition client_state : state :=
  (__init__ test_world epc_path os_path _DEFAULT_THRESHOLD boot).2.

(** What the test-suite expects for [10 Downing Street]. *)
Definition downing_10_result : LookupResult :=
  {| uprn := 100023336956; matched_address := s "10, DOWNING STREET, LONDON";
     match_score := 1; easting := 530047; northing := 179951;
     latitude := 51.5034; longitude := -0.1276 |}.

(** The candidate rows of the postcode [SW1A 2AA], in table order. *)
Definition downing_street_rows : list epc_row :=
  map epc_select (filter (fun r => epc_where (s "SW1A 2AA") r = true)
                    (db_epc_addresses tmp_epc_db)).

Definition row_10 : epc_row :=
  (Some (s "100023336956"), Some (s "10 DOWNING STREET"), Some [], Some [],
   Some (s "10, DOWNING STREET, LONDON")).

Definition row_12 : epc_row :=
  (Some (s "not_a_number"), Some (s "12 DOWNING STREET"), Some [], Some [],
   Some (s "12, DOWNING STREET, LONDON")).

(** A row that has only its second address line. *)
Definition row_flat_2 : epc_row :=
  (Some (s "42"), Some [], Some (s "FLAT 2"), None, Some []).

Definition flat_epc_db : database :=
  {| db_tables := [s "epc_addresses"];
     db_epc_addresses :=
       [ {| col_lmk_key := Some (s "lmk100"); col_postcode := Some (s "SW1A 2AA");
            col_address1 := Some []; col_address2 := Some (s "FLAT 2");
            col_address3 := None; col_address := Some [];
            col_uprn := Some (s "42") |} ];
     db_uprns := [] |}.

Definition flat_os_db : database :=
  {| db_tables := [s "uprns"];
     db_epc_addresses := [];
     db_uprns := [ mk_uprn 42 530047 179951 51.5034 (-0.1276) ] |}.

Definition flat_world : world :=
  {| is_file := fun _ _ => true;
     fault := fun _ _ => None;
     content := fun _ p => if bool_decide (p = epc_path) then flat_epc_db else flat_os_db |}.

Definition flat_state : state :=
  (__init__ flat_world epc_path os_path _DEFAULT_THRESHOLD boot).2.

(** What the lookup of [Flat 2] returns in [flat_world]. *)
Definition flat_2_result : LookupResult :=
  {| uprn := 42; matched_address := []; match_score := 1;
     easting := 530047; northing := 179951;
     latitude := 51.5034; longitude := -0.1276 |}.

(** A handle that is open on a file which has since disappeared: the
    driver reports a failure and the path is no longer a file. *)
Definition stale_world : world :=
  {| is_file := fun _ _ => false;
     fault := fun _ _ => Some (Operational (s "disk I/O error"));
     content := fun _ _ => tmp_epc_db |}.

(** The same failure of the driver while the file is still there. *)
Definition faulty_world : world :=
  {| is_file := fun _ _ => true;
     fault := fun _ _ => Some (Operational (s "disk I/O error"));
     content := fun _ _ => tmp_epc_db |}.

Definition open_pool : _DatabasePool :=
  {| _path := epc_path; _name := s "EPC"; _conn := Some (Connection epc_path) |}.

Definition open_state : state := {| now := 5; epc_pool := open_pool; os_pool := no_pool |}.

(** The address index is not a file. *)
Definition world_without_epc : world :=
  {| is_file := fun _ p => bool_decide (p = os_path);
     fault := fun _ _ => None;
     content := fun _ _ => tmp_os_db |}.

(** A valid postcode in which a TAB separates the two halves, and what
    [normalise] makes of it. *)
Definition tabbed_postcode : str := s "SW1A" ++ ["009"%char] ++ s "2AA".

Definition tabbed_postcode_normalised : str :=
  s "SW1A" ++ ["009"%char; " "%char] ++ s "2AA".

(** Characters as [normalise] leaves them: an upper-case letter, an
    upper-case letter or a digit, a digit; none is a space and [upper] does
    not change them. *)
Definition upper_letter (c : ascii) : Prop :=
  Ascii.eqb c " " = false /\ Py.isspace c = false /\ Py.upper_char c = c
  /\ Re.in_cset_i Postcode.letter c = true.

Definition upper_alnum (c : ascii) : Prop :=
  Ascii.eqb c " " = false /\ Py.isspace c = false /\ Py.upper_char c = c
  /\ Re.in_cset_i (Re.Union Postcode.letter Re.Digit) c = true.

Definition a_digit (c : ascii) : Prop :=
  Ascii.eqb c " " = false /\ Py.isspace c = false /\ Py.upper_char c = c
  /\ Re.in_cset_i Re.Digit c = true.

(** The driver fails and the address index is not a file until instant 7;
    from then on the file is back and the driver answers. *)
Definition returning_world : world :=
  {| is_file := fun t _ => 7 <=? t;
     fault := fun t _ => if t <? 7 then Some (Operational (s "disk I/O error")) else None;
     content := fun _ _ => tmp_epc_db |}.

(** [open_state] once the handle has found its file missing. *)
Definition dropped_state : state :=
  {| now := 7;
     epc_pool := {| _path := epc_path; _name := s "EPC"; _conn := None |};
     os_pool := no_pool |}.

(** A file that lacks two of the three tables asked for. *)
Definition sparse_world : world :=
  {| is_file := fun _ _ => true;
     fault := fun _ _ => None;
     content := fun _ _ => tmp_os_db |}.

(** A process started for one lookup, with the two test databases named
    in the environment, one started without arguments, its input and
    output redirected or on the terminal, and one started in a directory
    that holds no database. *)
Definition test_environ (name : str) : option str :=
  if bool_decide (name = s "EPCLOCATIONS_DB") then Some epc_path
  else if bool_decide (name = s "OSOPENUPRN_DB") then Some os_path
  else None.

Definition one_lookup : process :=
  {| environ := test_environ; cwd := s "/srv";
     argv := [s "ukgeolocate"; s "SW1A 2AA"; s "10 Downing Street"];
     stdio := Redirected |}.

Definition bad_postcode : process :=
  {| environ := test_environ; cwd := s "/srv";
     argv := [s "ukgeolocate"; s "INVALID"; s "10 Downing Street"];
     stdio := Redirected |}.

Definition session : process :=
  {| environ := test_environ; cwd := s "/srv"; argv := [s "ukgeolocate"];
     stdio := Redirected |}.

Definition session_on_the_terminal : process :=
  {| environ := test_environ; cwd := s "/srv"; argv := [s "ukgeolocate"];
     stdio := Terminal false |}.

Definition elsewhere : process :=
  {| environ := fun _ => None; cwd := s "/srv"; argv := [s "ukgeolocate"];
     stdio := Terminal false |}.

Definition blank_terminal : terminal := {| stdout := []; stderr := [] |}.

(** A stand-in for the texts Python makes of a float, and for [round]. *)
Definition float_text (x : Q) : str := s "<float>".
Definition same_float (x : Q) : Q := x.

(** The entries of the Unicode character database for the Basic Latin
    block and for the Kelvin sign.  In the block the cased code points are
    the letters, and ['], [.], [:], [^] and [`] are [Case_Ignorable]; the
    Kelvin sign is cased.  The code points that the excerpt leaves out are
    given no mapping. *)
Definition latin_and_kelvin : Unicode.ucd :=
  let small c := ((97 <=? c) && (c <=? 122))%N in
  let capital c := ((65 <=? c) && (c <=? 90))%N in
  {| Unicode.to_upper_full c := [if small c then (c - 32)%N else c];
     Unicode.to_lower_full c :=
       [if capital c then (c + 32)%N
        else if (c =? KELVIN_SIGN)%N then 107%N else c];
     Unicode.is_cased c := small c || capital c || (c =? KELVIN_SIGN)%N;
     Unicode.is_case_ignorable c :=
       bool_decide (c ∈ [0x27; 0x2E; 0x3A; 0x5E; 0x60]%N);
     Unicode.is_whitespace c :=
       ((9 <=? c) && (c <=? 13) || (28 <=? c) && (c <=? 32))%N |}.

(** An address written with the Kelvin sign for its [K]. *)
Definition kelvin_street : Unicode.text :=
  of_str (s "12 ") ++ KELVIN_SIGN :: of_str (s "ing Street").

(** * Properties *)

(** ** The store handle *)

Section PoolFacts.

Variable w : world.

Lemma deref_assign self p st : deref self (assign self p st) = p.
Proof. by destruct self. Qed.

Lemma now_assign self p st : now (assign self p st) = now st.
Proof. by destruct self. Qed.

Lemma close_conn_none self st : _conn (deref self (close self st).2) = None.
Proof.
  unfold close, bind, get_self; simpl.
  destruct (_conn (deref self st)) eqn:E; simpl; [|done].
  by rewrite deref_assign.
Qed.

Lemma close_returns self st : (close self st).1 = inr tt.
Proof.
  unfold close, bind, get_self; simpl.
  by destruct (_conn (deref self st)).
Qed.

(** [execute] is [get_connection] followed by the guarded driver call. *)
Lemma execute_after_connection {A} self (sql : query A) st c st1 :
  get_connection w self st = (inr (Some c), st1) ->
  execute w self sql st =
    try_except (conn_execute w c sql) (on_operational_error w self) st1.
Proof. intros H. unfold execute, bind. by rewrite H. Qed.

End PoolFacts.

(** C5. When the driver call of [execute] raises [OperationalError], the
    handle asks again whether its file exists.  If it does not, the
    connection is dropped and [DatabaseNotFound] is raised with the path and
    the name of the handle; if it does, the same error is raised again and
    the connection is kept.  Any other exception of the driver call leaves
    [execute] as it was raised. *)
Theorem C5_execute_reclassifies_only_missing_file
    (w : world) {A} (self : pool_ref) (sql : query A)
    (st st1 st2 : state) (c : connection) (e : exn) :
  get_connection w self st = (inr (Some c), st1) ->
  conn_execute w c sql st1 = (inl e, st2) ->
  let p := deref self st2 in
  let st3 := (tick st2).2 in
  match e with
  | OperationalError _ =>
      if is_file w (now st2) (_path p)
      then execute w self sql st = (inl e, st3) /\ deref self st3 = p
      else execute w self sql st
             = (inl (DatabaseNotFound (_path p) (_name p)), (close self st3).2)
           /\ _conn (deref self (close self st3).2) = None
  | _ => execute w self sql st = (inl e, st2)
  end.
Proof.
  intros Hconn Hexec p st3.
  rewrite (execute_after_connection w self sql st c st1 Hconn).
  unfold try_except. rewrite Hexec.
  destruct e; try reflexivity.
  unfold on_operational_error, bind, get_self, path_is_file, bind, tick, ret; simpl.
  fold p. destruct (is_file w (now st2) (_path p)) eqn:Hfile; simpl.
  - split; [reflexivity|]. subst st3 p. by destruct self.
  - split.
    + subst st3. unfold tick; simpl.
      pose proof (close_returns self
        {| now := S (now st2); epc_pool := epc_pool st2; os_pool := os_pool st2 |}) as Hr.
      destruct (close self _) as [r st']. simpl in *. by subst r.
    + apply close_conn_none.
Qed.

(** ** Opening and validating a dataset *)

Create HintDb pool.
#[global] Hint Unfold validate_tables execute get_connection _open
  on_operational_error close path_is_file sqlite3_connect conn_execute
  get_self set_conn tick try_except lift ret raise bind : pool.

Ltac run_pool := repeat autounfold with pool in *; simpl in *.

Section ValidateFacts.

Variable w : world.

Lemma validate_tables_missing_file self expected st :
  _conn (deref self st) = None ->
  is_file w (now st) (_path (deref self st)) = false ->
  validate_tables w self expected st
  = (inl (DatabaseNotFound (_path (deref self st)) (_name (deref self st))),
     advance 1 st).
Proof.
  intros Hc Hf. run_pool. rewrite Hc; simpl. by rewrite Hf.
Qed.

Lemma validate_tables_success self expected st st' :
  _conn (deref self st) = None ->
  validate_tables w self expected st = (inr tt, st') ->
  is_file w (now st) (_path (deref self st)) = true
  /\ (forall x, x ∈ expected ->
        x ∈ db_tables (content w (3 + now st) (_path (deref self st))))
  /\ st' = connected self (advance 4 st).
Proof.
  intros Hc H.
  assert (forall (l : list str) x, remove_dups (filter (fun t => t ∉ l) expected) = [] ->
            x ∈ expected -> x ∈ l) as Hall.
  { intros l x Hm Hx. destruct (decide (x ∈ l)) as [|Hn]; [done|].
    assert (x ∈ remove_dups (filter (fun t => t ∉ l) expected)) as Hin
      by by apply elem_of_remove_dups, list_elem_of_filter.
    rewrite Hm in Hin. by apply elem_of_nil in Hin. }
  destruct st as [t ep op], self; run_pool; rewrite Hc in H; simpl in H.
  all: repeat (case_match; simplify_eq/=).
  all: match goal with H : negb _ = false |- _ => apply negb_false_iff in H end.
  all: eauto.
Qed.

(** Validating through one pool leaves the other pool alone. *)
Lemma validate_tables_other_pool self expected st :
  let st' := (validate_tables w self expected st).2 in
  match self with
  | _epc_pool => os_pool st' = os_pool st
  | _os_pool => epc_pool st' = epc_pool st
  end.
Proof.
  destruct st as [t ep op], self; run_pool.
  all: repeat (case_match; simplify_eq/=); eauto.
Qed.

(** With a driver that does not fail, validation fails in two ways only. *)
Lemma validate_tables_failure_kinds self expected st e st' :
  (forall t path, fault w t path = None) ->
  validate_tables w self expected st = (inl e, st') ->
  e = DatabaseNotFound (_path (deref self st)) (_name (deref self st))
  \/ exists detail, e = DatabaseInvalid (_path (deref self st)) detail.
Proof.
  intros Hnf H.
  destruct st as [t ep op], self; run_pool.
  all: repeat (case_match; simplify_eq/=); eauto.
  all: match goal with H : fault _ _ _ = Some _ |- _ => by rewrite Hnf in H end.
Qed.

(** A table that is absent from an existing file is reported by name. *)
Lemma validate_tables_missing_table self table st :
  _conn (deref self st) = None ->
  let path := _path (deref self st) in
  is_file w (now st) path = true ->
  fault w (1 + now st) path = None ->
  fault w (2 + now st) path = None ->
  fault w (3 + now st) path = None ->
  table ∉ db_tables (content w (3 + now st) path) ->
  (validate_tables w self [table] st).1
  = inl (DatabaseInvalid path (s "missing tables: " ++ table)).
Proof.
  intros Hc path Hf F1 F2 F3 Hm. subst path.
  destruct st as [t ep op], self; run_pool; rewrite Hc; simpl.
  all: rewrite Hf; simpl; rewrite F1; simpl; rewrite F2; simpl; rewrite F3; simpl.
  all: rewrite filter_cons_True by done; simpl; reflexivity.
Qed.

(** Whatever validation raises, its text is not [ok]. *)
Lemma validate_tables_text_not_ok self expected st e st' :
  driver_never_says_ok w ->
  validate_tables w self expected st = (inl e, st') ->
  exn_str e <> s "ok".
Proof.
  intros Hd H.
  destruct st as [t ep op], self; run_pool.
  all: repeat (case_match; simplify_eq/=); eauto.
  all: try done.
  all: try (intros Heq; apply (f_equal length) in Heq;
            rewrite ?length_app in Heq; simpl in Heq; lia).
  all: match goal with
       | F : fault _ _ _ = Some _, E : of_sqlite3 _ = _ |- _ =>
           pose proof (Hd _ _ _ F) as Hok; by rewrite E in Hok
       end.
Qed.

End ValidateFacts.

(** C6. Construction validates the address-index dataset first and the
    coordinate dataset second, and raises at once: with a path that is not a
    file for the address index it raises [DatabaseNotFound] naming [EPC],
    whatever the coordinate path is; a failure of the first validation is
    the failure of the construction and the coordinate handle is never
    opened; when the first validation passes and the coordinate path is not
    a file it raises [DatabaseNotFound] naming [OS Open UPRN]; a file
    without its table raises [DatabaseInvalid]; a construction that returns
    has found both files and both tables; and with a driver that does not
    fail the only failures are [DatabaseNotFound] and [DatabaseInvalid]. *)
Theorem C6_construction_validates_eagerly
    (w : world) (epc_db os_db : str) (th : Q) (st : state) :
  let st0 := fresh_pools epc_db os_db st in
  let t := now st in
  (is_file w t epc_db = false ->
     __init__ w epc_db os_db th st
     = (inl (DatabaseNotFound epc_db (s "EPC")), advance 1 st0))
  /\ (forall e st1,
        validate_tables w _epc_pool [s "epc_addresses"] st0 = (inl e, st1) ->
        __init__ w epc_db os_db th st = (inl e, st1)
        /\ os_pool st1 = os_pool st0)
  /\ (forall st1,
        validate_tables w _epc_pool [s "epc_addresses"] st0 = (inr tt, st1) ->
        is_file w (now st1) os_db = false ->
        __init__ w epc_db os_db th st
        = (inl (DatabaseNotFound os_db (s "OS Open UPRN")), advance 1 st1))
  /\ (is_file w t epc_db = true ->
      fault w (1 + t) epc_db = None -> fault w (2 + t) epc_db = None ->
      fault w (3 + t) epc_db = None ->
      s "epc_addresses" ∉ db_tables (content w (3 + t) epc_db) ->
      (__init__ w epc_db os_db th st).1
      = inl (DatabaseInvalid epc_db (s "missing tables: epc_addresses")))
  /\ (forall self st',
        __init__ w epc_db os_db th st = (inr self, st') ->
        is_file w t epc_db = true
        /\ s "epc_addresses" ∈ db_tables (content w (3 + t) epc_db)
        /\ is_file w (4 + t) os_db = true
        /\ s "uprns" ∈ db_tables (content w (7 + t) os_db)
        /\ _threshold self = th)
  /\ ((forall t' path, fault w t' path = None) ->
      forall e st', __init__ w epc_db os_db th st = (inl e, st') ->
        (exists path name, e = DatabaseNotFound path name)
        \/ (exists path detail, e = DatabaseInvalid path detail)).
Proof.
  intros st0 t.
  assert (forall r, __init__ w epc_db os_db th st = r ->
            r = match validate_tables w _epc_pool [s "epc_addresses"] st0 with
                | (inl e, st1) => (inl e, st1)
                | (inr _, st1) =>
                    match validate_tables w _os_pool [s "uprns"] st1 with
                    | (inl e, st2) => (inl e, st2)
                    | (inr _, st2) => (inr {| _threshold := th |}, st2)
                    end
                end) as Hinit.
  { intros r <-. unfold __init__, _validate_databases, bind, ret.
    subst st0. unfold fresh_pools.
    destruct (validate_tables w _epc_pool _ _) as [[e|[]] st1]; [done|].
    by destruct (validate_tables w _os_pool _ st1) as [[e|[]] st2]. }
  split; [|split; [|split; [|split; [|split]]]].
  - intros Hf. rewrite (Hinit _ eq_refl).
    by rewrite (validate_tables_missing_file w _epc_pool _ st0 eq_refl Hf).
  - intros e st1 H. split.
    + rewrite (Hinit _ eq_refl). by rewrite H.
    + pose proof (validate_tables_other_pool w _epc_pool [s "epc_addresses"] st0) as Ho.
      cbv beta iota zeta in Ho. by rewrite H in Ho.
  - intros st1 H1 Hf. rewrite (Hinit _ eq_refl), H1.
    destruct (validate_tables_success w _epc_pool _ st0 st1 eq_refl H1) as (_ & _ & Hst).
    subst st1.
    by rewrite (validate_tables_missing_file w _os_pool _
                  (connected _epc_pool (advance 4 st0)) eq_refl Hf).
  - intros Hf F1 F2 F3 Hm. rewrite (Hinit _ eq_refl).
    pose proof (validate_tables_missing_table w _epc_pool (s "epc_addresses") st0
                  eq_refl Hf F1 F2 F3 Hm) as Hv.
    by destruct (validate_tables w _epc_pool _ st0) as [[e|[]] st1]; simplify_eq/=.
  - intros self st' H. apply Hinit in H. clear Hinit.
    destruct (validate_tables w _epc_pool _ st0) as [[e|[]] st1] eqn:H1; [done|].
    destruct (validate_tables_success w _epc_pool _ st0 st1 eq_refl H1) as (Hf1 & Ht1 & Hst).
    destruct (validate_tables w _os_pool _ st1) as [[e|[]] st2] eqn:H2; [done|].
    rewrite Hst in H2.
    destruct (validate_tables_success w _os_pool _
                (connected _epc_pool (advance 4 st0)) st2 eq_refl H2)
      as (Hf2 & Ht2 & _).
    simplify_eq/=. split; [done|]. split; [apply Ht1; set_solver|].
    split; [done|]. split; [apply Ht2; set_solver|done].
  - intros Hnf e st' H. apply Hinit in H. clear Hinit.
    destruct (validate_tables w _epc_pool _ st0) as [[e1|[]] st1] eqn:H1.
    { simplify_eq. destruct (validate_tables_failure_kinds w _ _ _ _ _ Hnf H1)
        as [->|[d ->]]; eauto. }
    destruct (validate_tables w _os_pool _ _) as [[e2|[]] st2] eqn:H2; [|done].
    simplify_eq. destruct (validate_tables_failure_kinds w _ _ _ _ _ Hnf H2)
        as [->|[d ->]]; eauto.
Qed.

(** C9. [health_check] always returns a status and never raises: what the
    validation of a store raises is caught and its text becomes the field of
    that store, which is [ok] otherwise; [healthy] is true exactly when both
    validations pass, and then both fields are [ok]; and, the driver never
    wording a failure as [ok], when both fields are [ok] then [healthy] is
    true. *)
Theorem C9_health_check_never_raises (w : world) (st : state) :
  let r1 := validate_tables w _epc_pool [s "epc_addresses"] st in
  let r2 := validate_tables w _os_pool [s "uprns"] r1.2 in
  exists status,
    health_check w st = (inr status, r2.2)
    /\ epc_db status = match r1.1 with inr _ => s "ok" | inl exc => exn_str exc end
    /\ os_db status = match r2.1 with inr _ => s "ok" | inl exc => exn_str exc end
    /\ (healthy status = true <-> r1.1 = inr tt /\ r2.1 = inr tt)
    /\ (healthy status = true -> epc_db status = s "ok" /\ os_db status = s "ok")
    /\ (driver_never_says_ok w ->
        epc_db status = s "ok" -> os_db status = s "ok" -> healthy status = true).
Proof.
  intros r1 r2. subst r2 r1.
  unfold health_check, bind, try_except, ret.
  destruct (validate_tables w _epc_pool _ st) as [[e1|[]] st1] eqn:H1;
    destruct (validate_tables w _os_pool _ st1) as [[e2|[]] st2] eqn:H2;
    cbn [fst snd]; rewrite H2; cbn [fst snd];
    eexists; (split; [reflexivity|]); cbn [epc_db os_db healthy];
    (split; [reflexivity|]); (split; [reflexivity|]);
    (split; [split; [done|by intros [? ?]]|]); (split; [done|]);
    intros Hd Ha Hb; try reflexivity.
  - by destruct (validate_tables_text_not_ok w _ _ _ _ _ Hd H1).
  - by destruct (validate_tables_text_not_ok w _ _ _ _ _ Hd H1).
  - by destruct (validate_tables_text_not_ok w _ _ _ _ _ Hd H2).
Qed.

(** ** The sequence matcher *)

Section DifflibBounds.

Context {Elt : Type} {Elt_eq : EqDecision Elt} {Elt_countable : Countable Elt}
  {Elt_inhabited : Inhabited Elt}.

Variables a b : list Elt.

Lemma j2lenget_pred_bound (j2len : gmap nat nat) (j n m : nat) :
  (forall j' k, j2len !! j' = Some k -> k <= n /\ k <= j' + 1 - m) ->
  m <= j ->
  Difflib.j2lenget_pred j2len j <= n /\ Difflib.j2lenget_pred j2len j <= j - m.
Proof.
  intros Hok Hj. destruct j as [|j']; simpl; [lia|].
  destruct (j2len !! j') as [k|] eqn:E; simpl; [|lia].
  destruct (Hok _ _ E). lia.
Qed.

(** One row of the main loop keeps the lengths and the best match inside
    the region. *)
Lemma scan_row_bounds (i alo blo bhi : nat) (j2len : gmap nat nat) (js : list nat) :
  alo <= i ->
  (forall j k, j2len !! j = Some k -> k <= i - alo /\ k <= j + 1 - blo) ->
  forall (newj2len : gmap nat nat) (best : Difflib.block),
    (forall j k, newj2len !! j = Some k -> k <= i + 1 - alo /\ k <= j + 1 - blo) ->
    (alo <= best.1.1 /\ best.1.1 + best.2 <= i + 1
     /\ blo <= best.1.2 /\ best.1.2 + best.2 <= bhi) ->
    let r := Difflib.scan_row i blo bhi j2len js newj2len best in
    (forall j k, r.1 !! j = Some k -> k <= i + 1 - alo /\ k <= j + 1 - blo)
    /\ (alo <= r.2.1.1 /\ r.2.1.1 + r.2.2 <= i + 1
        /\ blo <= r.2.1.2 /\ r.2.1.2 + r.2.2 <= bhi).
Proof.
  intros Hi Hold. induction js as [|j js IH]; intros newj2len best Hnew Hbest; simpl.
  { done. }
  destruct (j <? blo) eqn:E1; [by apply IH|].
  destruct (bhi <=? j) eqn:E2; [done|].
  apply Nat.ltb_ge in E1. apply Nat.leb_gt in E2.
  destruct (j2lenget_pred_bound j2len j (i - alo) blo Hold E1) as [P1 P2].
  apply IH.
  - intros j' k. rewrite lookup_insert. case_decide; [|by apply Hnew].
    intros [= <-]. lia.
  - destruct best as [[bi bj] bs]. unfold Difflib.size in *; simpl in *.
    destruct (bs <? _) eqn:E3; simpl; lia.
Qed.

Lemma longest_indexed_bounds_from (blo bhi alo : nat) (n i : nat)
    (st : gmap nat nat * Difflib.block) :
  alo <= i ->
  (forall j k, st.1 !! j = Some k -> k <= i - alo /\ k <= j + 1 - blo) ->
  (alo <= st.2.1.1 /\ st.2.1.1 + st.2.2 <= i
   /\ blo <= st.2.1.2 /\ st.2.1.2 + st.2.2 <= bhi) ->
  let r := foldl (Difflib.row_step a b blo bhi) st (seq i n) in
  alo <= r.2.1.1 /\ r.2.1.1 + r.2.2 <= i + n
  /\ blo <= r.2.1.2 /\ r.2.1.2 + r.2.2 <= bhi.
Proof.
  revert i st. induction n as [|n IH]; intros i st Hi Hlen Hbest; simpl.
  { lia. }
  pose proof (scan_row_bounds i alo blo bhi st.1 (Difflib.b2j_get b (a !!! i)) Hi Hlen
                ∅ st.2) as Hrow.
  destruct Hrow as [H1 H2].
  { intros j k. by rewrite lookup_empty. }
  { lia. }
  specialize (IH (S i) (Difflib.row_step a b blo bhi st i)).
  unfold Difflib.row_step at 2 3 4 5 in IH.
  replace (i + S n) with (S i + n) by lia.
  apply IH; [lia| |].
  - intros j k Hjk. destruct (H1 j k Hjk). lia.
  - replace (S i) with (i + 1) by lia. exact H2.
Qed.

Lemma extend_back_spec (alo blo : nat) (besti bestj bestsize : nat) :
  alo <= besti -> blo <= bestj ->
  let r := Difflib.extend_back a b alo blo besti bestj bestsize in
  alo <= r.1.1 /\ blo <= r.1.2
  /\ r.1.1 + r.2 = besti + bestsize /\ r.1.2 + r.2 = bestj + bestsize.
Proof.
  revert bestj bestsize.
  induction besti as [|i IH]; intros bestj bestsize Hi Hj; simpl; [lia|].
  destruct bestj as [|j]; simpl; [lia|].
  destruct ((alo <? S i) && (blo <? S j) && _) eqn:E; simpl; [|lia].
  apply andb_prop in E as [E _]. apply andb_prop in E as [E1 E2].
  apply Nat.ltb_lt in E1, E2.
  destruct (IH j (bestsize + 1)) as (? & ? & ? & ?); lia.
Qed.

Lemma extend_fwd_spec (gap bhi besti bestj bestsize : nat) :
  bestj + bestsize <= bhi ->
  let k := Difflib.extend_fwd a b gap bhi besti bestj bestsize in
  bestsize <= k /\ k <= bestsize + gap /\ bestj + k <= bhi.
Proof.
  revert bestsize. induction gap as [|gap IH]; intros bestsize Hj; simpl; [lia|].
  destruct ((bestj + bestsize <? bhi) && _) eqn:E; [|lia].
  apply andb_prop in E as [E _]. apply Nat.ltb_lt in E.
  destruct (IH (bestsize + 1)); lia.
Qed.

(** [find_longest_match] answers inside the region it is given. *)
Lemma find_longest_match_bounds (alo ahi blo bhi : nat) :
  alo <= ahi -> blo <= bhi ->
  let x := Difflib.find_longest_match a b alo ahi blo bhi in
  alo <= x.1.1 /\ x.1.1 + x.2 <= ahi /\ blo <= x.1.2 /\ x.1.2 + x.2 <= bhi.
Proof.
  intros Ha Hb. unfold Difflib.find_longest_match, Difflib.longest_indexed.
  pose proof (longest_indexed_bounds_from blo bhi alo (ahi - alo) alo
                (∅, (alo, blo, 0))) as H.
  simpl in H. destruct H as (H1 & H2 & H3 & H4); [lia| |lia|].
  { intros j k. by rewrite lookup_empty. }
  destruct (foldl _ _ _) as [j2len [[bi bj] bs]]; simpl in *.
  pose proof (extend_back_spec alo blo bi bj bs H1 H3) as H.
  destruct (Difflib.extend_back a b alo blo bi bj bs) as [[bi' bj'] bs']; simpl in *.
  pose proof (extend_fwd_spec (ahi - (bi' + bs')) bhi bi' bj' bs') as H'.
  simpl in H'. lia.
Qed.

End DifflibBounds.

Section DifflibBlocks.

Context {Elt : Type} {Elt_eq : EqDecision Elt} {Elt_countable : Countable Elt}
  {Elt_inhabited : Inhabited Elt}.

Variables a b : list Elt.

(** Splitting a region around a match of at least one element: the
    children are well formed, hold what the region held minus the match,
    and cost at least one unit less. *)
Lemma push_spec (r : Difflib.region) (x : Difflib.block) (queue : list Difflib.region) :
  let '(alo, ahi, blo, bhi) := r in
  alo <= x.1.1 /\ x.1.1 + x.2 <= ahi /\ blo <= x.1.2 /\ x.1.2 + x.2 <= bhi ->
  0 < Difflib.size x ->
  Forall region_wf queue ->
  Forall region_wf (Difflib.push r x queue)
  /\ sum_list_with region_cap (Difflib.push r x queue) + Difflib.size x
     <= region_cap r + sum_list_with region_cap queue
  /\ Difflib.queue_cost (Difflib.push r x queue) + 1
     <= Difflib.region_cost r + Difflib.queue_cost queue.
Proof.
  destruct r as [[[alo ahi] blo] bhi], x as [[i j] k].
  unfold Difflib.size, Difflib.push, Difflib.queue_cost; simpl.
  intros (H1 & H2 & H3 & H4) Hk Hq.
  destruct ((alo <? i) && (blo <? j)) eqn:E1;
    destruct ((i + k <? ahi) && (j + k <? bhi)) eqn:E2;
    simpl; repeat split; repeat constructor; simpl; try done; try lia.
Qed.

(** The loop never finds more matched elements than the pending regions
    can hold, whatever the fuel. *)
Lemma blocks_loop_sum (fuel : nat) (queue : list Difflib.region) (acc : list Difflib.block) :
  Forall region_wf queue ->
  sum_list_with Difflib.size (Difflib.blocks_loop a b fuel queue acc)
  <= sum_list_with Difflib.size acc + sum_list_with region_cap queue.
Proof.
  revert queue acc. induction fuel as [|fuel IH]; intros queue acc Hq.
  { destruct queue as [|[[[? ?] ?] ?] ?]; simpl; lia. }
  destruct queue as [|[[[alo ahi] blo] bhi] queue]; [simpl; lia|].
  cbn [Difflib.blocks_loop].
  apply Forall_cons in Hq as [Hr Hq].
  pose proof (find_longest_match_bounds a b alo ahi blo bhi (proj1 Hr) (proj2 Hr)) as Hx.
  cbv zeta in Hx.
  destruct (0 <? Difflib.size _) eqn:E.
  - apply Nat.ltb_lt in E.
    pose proof (push_spec (alo, ahi, blo, bhi) _ queue Hx E Hq) as (P1 & P2 & _).
    etrans; [apply IH, P1|].
    rewrite sum_list_with_app. cbn [sum_list_with]. lia.
  - etrans; [apply IH, Hq|]. cbn [sum_list_with]. lia.
Qed.

(** Once the fuel covers the cost of the queue, more fuel changes
    nothing: the loop has ended by itself. *)
Lemma blocks_loop_fuel_enough (fuel1 fuel2 : nat) (queue : list Difflib.region)
    (acc : list Difflib.block) :
  Forall region_wf queue ->
  Difflib.queue_cost queue <= fuel1 ->
  Difflib.queue_cost queue <= fuel2 ->
  Difflib.blocks_loop a b fuel1 queue acc = Difflib.blocks_loop a b fuel2 queue acc.
Proof.
  revert fuel2 queue acc.
  induction fuel1 as [|fuel1 IH]; intros fuel2 queue acc Hq H1 H2.
  { destruct queue as [|[[[alo ahi] blo] bhi] queue].
    - by destruct fuel2.
    - unfold Difflib.queue_cost in H1; simpl in H1. lia. }
  destruct queue as [|[[[alo ahi] blo] bhi] queue]; [by destruct fuel2|].
  destruct fuel2 as [|fuel2].
  { unfold Difflib.queue_cost in H2; simpl in H2. lia. }
  cbn [Difflib.blocks_loop].
  apply Forall_cons in Hq as [Hr Hq].
  pose proof (find_longest_match_bounds a b alo ahi blo bhi (proj1 Hr) (proj2 Hr)) as Hx.
  cbv zeta in Hx.
  unfold Difflib.queue_cost in H1, H2. cbn [sum_list_with] in H1, H2.
  destruct (0 <? Difflib.size _) eqn:E.
  - apply Nat.ltb_lt in E.
    pose proof (push_spec (alo, ahi, blo, bhi) _ queue Hx E Hq) as (P1 & _ & P3).
    apply IH; [done| |]; unfold Difflib.queue_cost in *; lia.
  - apply IH; [done| |]; unfold Difflib.queue_cost, Difflib.region_cost in *; lia.
Qed.

Lemma collapse_sum (l : list Difflib.block) (st : Difflib.block * list Difflib.block) :
  let r := foldl Difflib.collapse_step st l in
  Difflib.size r.1 + sum_list_with Difflib.size r.2
  = Difflib.size st.1 + sum_list_with Difflib.size st.2 + sum_list_with Difflib.size l.
Proof.
  revert st. induction l as [|[[i2 j2] k2] l IH]; intros [[[i1 j1] k1] na]; simpl; [lia|].
  destruct ((i1 + k1 =? i2) && (j1 + k1 =? j2)); cbv zeta in IH; rewrite IH;
    unfold Difflib.size; simpl; [lia|].
  destruct (0 <? k1) eqn:E; [rewrite sum_list_with_app; simpl; lia|].
  apply Nat.ltb_ge in E. lia.
Qed.

(** Sorting and merging the blocks keeps the number of matched elements. *)
Lemma matches_of_blocks :
  sum_list_with Difflib.size (Difflib.get_matching_blocks a b)
  = sum_list_with Difflib.size
      (Difflib.blocks_loop a b (Difflib.queue_cost [(0, length a, 0, length b)])
         [(0, length a, 0, length b)] []).
Proof.
  unfold Difflib.get_matching_blocks.
  set (found := Difflib.blocks_loop a b _ _ _).
  pose proof (collapse_sum (merge_sort Difflib.block_le found) ((0, 0, 0), [])) as H.
  cbv zeta in H.
  destruct (foldl Difflib.collapse_step _ _) as [[[i1 j1] k1] na].
  rewrite (merge_sort_Permutation _ found) in H.
  unfold Difflib.size in *; simpl in *.
  rewrite sum_list_with_app; simpl.
  destruct (0 <? k1) eqn:E.
  - rewrite sum_list_with_app; simpl. lia.
  - apply Nat.ltb_ge in E. lia.
Qed.

Lemma matches_le :
  sum_list_with Difflib.size (Difflib.get_matching_blocks a b)
  <= length a `min` length b.
Proof.
  rewrite matches_of_blocks.
  etrans; [apply blocks_loop_sum|].
  - repeat constructor; simpl; lia.
  - simpl. lia.
Qed.

(** The ratio is a number between 0 and 1. *)
Lemma ratio_bounds : (0 <= Difflib.ratio a b <= 1)%Q.
Proof.
  unfold Difflib.ratio, Difflib._calculate_ratio.
  pose proof matches_le as Hm.
  set (m := sum_list_with Difflib.size _) in *.
  destruct (0 <? length a + length b) eqn:E; [|done].
  apply Nat.ltb_lt in E.
  rewrite Qred_correct. unfold Qle; simpl. split; [lia|].
  rewrite <- (positive_nat_Z (Pos.of_nat (length a + length b))).
  rewrite Nat2Pos.id by lia. lia.
Qed.

End DifflibBlocks.

(** Nothing matches an empty side. *)
Lemma ratio_empty_r {Elt : Type} {Elt_eq : EqDecision Elt} {Elt_countable : Countable Elt}
    {Elt_inhabited : Inhabited Elt} (a : list Elt) : a <> [] -> Difflib.ratio a [] = 0%Q.
Proof.
  intros Ha. unfold Difflib.ratio, Difflib._calculate_ratio.
  pose proof (matches_le a []) as Hm. simpl in Hm.
  assert (sum_list_with Difflib.size (Difflib.get_matching_blocks a []) = 0) as -> by lia.
  destruct a; [done|]. simpl. reflexivity.
Qed.

(** ** The index [b2j] *)

Lemma positions_elem {Elt : Type} {Elt_eq : EqDecision Elt} (c : Elt) (l : list Elt) (off j : nat) :
  j ∈ positions c off l <-> off <= j /\ l !! (j - off) = Some c.
Proof.
  revert off. induction l as [|d l IH]; intros off; simpl.
  { rewrite elem_of_nil. split; [done|]. intros [_ H]. by rewrite lookup_nil in H. }
  rewrite elem_of_app, IH. case_decide as Hd.
  - subst d. rewrite list_elem_of_singleton. split.
    + intros [->|[Hle Hl]].
      * split; [lia|]. by rewrite Nat.sub_diag.
      * split; [lia|]. replace (j - off) with (S (j - S off)) by lia. done.
    + intros [Hle Hl]. destruct (decide (j = off)) as [|Hne]; [by left|right].
      split; [lia|]. replace (j - off) with (S (j - S off)) in Hl by lia. done.
  - rewrite elem_of_nil. split.
    + intros [[]|[Hle Hl]]. split; [lia|].
      replace (j - off) with (S (j - S off)) by lia. done.
    + intros [Hle Hl]. right.
      destruct (decide (j = off)) as [->|Hne].
      { rewrite Nat.sub_diag in Hl. simpl in Hl. congruence. }
      split; [lia|]. replace (j - off) with (S (j - S off)) in Hl by lia. done.
Qed.

Lemma positions_sorted {Elt : Type} {Elt_eq : EqDecision Elt} (c : Elt) (l : list Elt) (off : nat) :
  StronglySorted lt (positions c off l).
Proof.
  revert off. induction l as [|d l IH]; intros off; simpl; [constructor|].
  case_decide; simpl; [|apply IH].
  constructor; [apply IH|].
  apply Forall_forall. intros j Hj. apply positions_elem in Hj. lia.
Qed.

Lemma chain_positions {Elt : Type} {Elt_eq : EqDecision Elt} {Elt_countable : Countable Elt} (c : Elt) (l : list Elt) (off : nat) (m : gmap Elt (list nat)) :
  default [] (foldl Difflib.chain m (zip (seq off (length l)) l) !! c)
  = default [] (m !! c) ++ positions c off l.
Proof.
  revert off m. induction l as [|d l IH]; intros off m; simpl.
  { by rewrite app_nil_r. }
  rewrite IH. unfold Difflib.chain; simpl.
  rewrite lookup_insert. case_decide as Hd; simpl.
  - subst d. by rewrite <- app_assoc.
  - done.
Qed.

(** The index gives every position of an element, in increasing order, or
    nothing when the element is popular or absent. *)
Lemma b2j_get_positions {Elt : Type} {Elt_eq : EqDecision Elt} {Elt_countable : Countable Elt}
    {Elt_inhabited : Inhabited Elt} (b : list Elt) (c : Elt) :
  Difflib.b2j_get b c = [] \/ Difflib.b2j_get b c = positions c 0 b.
Proof.
  unfold Difflib.b2j_get.
  destruct (Difflib.b2j b !! c) as [l|] eqn:E; simpl; [right|by left].
  unfold Difflib.b2j in E. apply map_lookup_filter_Some in E as [E _].
  pose proof (chain_positions c b 0 ∅) as H.
  fold (Difflib.b2j_all b) in H. rewrite E, lookup_empty in H. done.
Qed.

Section Identical.

Context {Elt : Type} {Elt_eq : EqDecision Elt} {Elt_countable : Countable Elt}
  {Elt_inhabited : Inhabited Elt}.

Variable a : list Elt.

Lemma indexed_true_get (x : nat) :
  indexed a x = true ->
  Difflib.b2j_get a (a !!! x) = positions (a !!! x) 0 a.
Proof.
  unfold indexed. intros H.
  destruct (b2j_get_positions a (a !!! x)) as [E|E]; [by rewrite E in H|done].
Qed.

Lemma indexed_run_step (x : nat) :
  indexed a x = true ->
  indexed_run a x = S (match x with 0 => 0 | S x' => indexed_run a x' end).
Proof. intros H. destruct x; simpl; by rewrite H. Qed.

Lemma indexed_run_zero (x : nat) : indexed a x = false -> indexed_run a x = 0.
Proof. intros H. destruct x; simpl; by rewrite H. Qed.

(** The invariant of the main loop of [find_longest_match] when both
    sequences are [a] and the region is the whole of them: the lengths kept
    for the previous row are bounded by the runs, the one on the diagonal is
    the run itself, the best match is at least as long as every run seen,
    and it lies on the diagonal. *)
Lemma scan_row_diagonal (i : nat) (j2len : gmap nat nat) :
  (forall j k, j2len !! j = Some k ->
     k <= indexed_run a j /\ exists i', i = S i' /\ k <= indexed_run a i') ->
  (forall i', i = S i' -> default 0 (j2len !! i') = indexed_run a i') ->
  forall (rest : list nat) (newj2len : gmap nat nat) (best : Difflib.block),
    (forall j, j ∈ rest -> a !! j = Some (a !!! i) /\ indexed a j = true) ->
    StronglySorted lt rest ->
    (forall j k, newj2len !! j = Some k ->
       k <= indexed_run a j /\ k <= indexed_run a i) ->
    ((default 0 (newj2len !! i) = indexed_run a i
        /\ indexed_run a i <= Difflib.size best /\ i ∉ rest)
     \/ i ∈ rest) ->
    (forall i', i' < i -> indexed_run a i' <= Difflib.size best) ->
    best.1.1 = best.1.2 ->
    let r := Difflib.scan_row i 0 (length a) j2len rest newj2len best in
    (forall j k, r.1 !! j = Some k -> k <= indexed_run a j /\ k <= indexed_run a i)
    /\ default 0 (r.1 !! i) = indexed_run a i
    /\ (forall i', i' <= i -> indexed_run a i' <= Difflib.size r.2)
    /\ r.2.1.1 = r.2.1.2.
Proof.
  intros HA HB rest. induction rest as [|j rest IH];
    intros newj2len best Hrest Hsorted HA' HB' HC HD; simpl.
  { destruct HB' as [(B1 & B2 & _)|B]; [|by apply elem_of_nil in B].
    split; [done|]. split; [done|]. split; [|done].
    intros i' Hi'. destruct (decide (i' = i)) as [->|]; [done|]. apply HC. lia. }
  destruct (Hrest j) as [Hj Hjx]; [by left|].
  pose proof (lookup_lt_Some _ _ _ Hj) as Hjn.
  assert ((length a <=? j) = false) as -> by by apply Nat.leb_gt.
  apply StronglySorted_inv in Hsorted as [Hsorted Hlt].
  rewrite Forall_forall in Hlt.
  assert (indexed a i = true) as Hix.
  { unfold indexed in *. apply list_lookup_total_correct in Hj. by rewrite <- Hj. }
  set (k := Difflib.j2lenget_pred j2len j + 1).
  assert (k <= indexed_run a j /\ k <= indexed_run a i) as [Kj Ki].
  { subst k. rewrite (indexed_run_step j Hjx), (indexed_run_step i Hix).
    destruct j as [|j']; simpl; [destruct i; lia|].
    destruct (j2len !! j') as [k0|] eqn:E; simpl; [|destruct i; lia].
    destruct (HA _ _ E) as (K1 & i' & -> & K2). lia. }
  assert (j = i -> k = indexed_run a i) as Kdiag.
  { intros ->. subst k. rewrite (indexed_run_step i Hix).
    destruct i as [|i']; simpl; [done|]. rewrite (HB i' eq_refl). lia. }
  assert (Difflib.size best < k -> j = i) as Hbeat.
  { intros Hlt'. destruct HB' as [(_ & B2 & _)|B]; [lia|].
    apply elem_of_cons in B as [->|B]; [done|].
    specialize (Hlt _ B). specialize (HC j Hlt). lia. }
  apply IH.
  - intros j' Hj'. apply Hrest. by right.
  - done.
  - intros j' k'. rewrite lookup_insert. case_decide; [|by apply HA'].
    intros [= <-]. by subst j'.
  - destruct (decide (j = i)) as [->|Hne].
    + left. rewrite lookup_insert_eq; simpl. split; [by apply Kdiag|].
      split.
      * rewrite <- (Kdiag eq_refl). unfold Difflib.size.
        destruct (best.2 <? k) eqn:E; simpl; [lia|]. by apply Nat.ltb_ge in E.
      * intros Hin. specialize (Hlt _ Hin). lia.
    + destruct HB' as [(B1 & B2 & B3)|B].
      * left. rewrite lookup_insert_ne by done. split; [done|]. split.
        -- unfold Difflib.size in *. destruct (best.2 <? k) eqn:E; simpl; [|done].
           apply Nat.ltb_lt in E. lia.
        -- intros Hin. apply B3. by right.
      * right. apply elem_of_cons in B as [->|B]; done.
  - intros i' Hi'. specialize (HC i' Hi'). unfold Difflib.size in *.
    destruct (best.2 <? k) eqn:E; simpl; [|done]. apply Nat.ltb_lt in E. lia.
  - unfold Difflib.size in *. destruct (best.2 <? k) eqn:E; simpl; [|done].
    apply Nat.ltb_lt in E. rewrite (Hbeat E). done.
Qed.

Lemma longest_indexed_diagonal_from (n i : nat) (st : gmap nat nat * Difflib.block) :
  i + n <= length a ->
  (forall j k, st.1 !! j = Some k ->
     k <= indexed_run a j /\ exists i', i = S i' /\ k <= indexed_run a i') ->
  (forall i', i = S i' -> default 0 (st.1 !! i') = indexed_run a i') ->
  (forall i', i' < i -> indexed_run a i' <= Difflib.size st.2) ->
  st.2.1.1 = st.2.1.2 ->
  let r := foldl (Difflib.row_step a a 0 (length a)) st (seq i n) in
  r.2.1.1 = r.2.1.2.
Proof.
  revert i st. induction n as [|n IH]; intros i st Hn HA HB HC HD; simpl; [done|].
  unfold Difflib.row_step at 2.
  pose proof (scan_row_diagonal i st.1 HA HB
                (Difflib.b2j_get a (a !!! i)) ∅ st.2) as Hrow.
  destruct Hrow as (R1 & R2 & R3 & R4).
  - intros j Hj. destruct (b2j_get_positions a (a !!! i)) as [E|E];
      rewrite E in Hj; [by apply elem_of_nil in Hj|].
    apply positions_elem in Hj as [_ Hj]. rewrite Nat.sub_0_r in Hj.
    split; [done|]. unfold indexed.
    apply list_lookup_total_correct in Hj. rewrite Hj, E.
    assert (i ∈ positions (a !!! i) 0 a) as Hin.
    { apply positions_elem. split; [lia|]. rewrite Nat.sub_0_r.
      apply list_lookup_lookup_total_lt. lia. }
    by destruct (positions _ _ _); [apply elem_of_nil in Hin|].
  - destruct (b2j_get_positions a (a !!! i)) as [E|E]; rewrite E;
      [constructor|apply positions_sorted].
  - intros j k. by rewrite lookup_empty.
  - destruct (Difflib.b2j_get a (a !!! i)) as [|j0 js] eqn:E.
    + left. rewrite lookup_empty; simpl.
      assert (indexed a i = false) as Hix by (unfold indexed; by rewrite E).
      rewrite (indexed_run_zero i Hix). split; [done|]. split; [lia|].
      apply not_elem_of_nil.
    + right. rewrite <- E.
      assert (indexed a i = true) as Hix by (unfold indexed; by rewrite E).
      rewrite (indexed_true_get i Hix). apply positions_elem.
      split; [lia|]. rewrite Nat.sub_0_r. apply list_lookup_lookup_total_lt. lia.
  - done.
  - done.
  - apply IH; [lia| | | |done].
    + intros j k Hjk. destruct (R1 j k Hjk). eauto.
    + by intros i' [= <-].
    + intros i' Hi'. apply R3. lia.
Qed.

Lemma extend_back_identical (i k : nat) :
  Difflib.extend_back a a 0 0 i i k = (0, 0, k + i).
Proof.
  revert k. induction i as [|i IH]; intros k; simpl; [by rewrite Nat.add_0_r|].
  rewrite bool_decide_eq_true_2 by done. simpl. rewrite IH. f_equal. lia.
Qed.

Lemma extend_fwd_identical (gap k : nat) :
  Difflib.extend_fwd a a gap (k + gap) 0 0 k = k + gap.
Proof.
  revert k. induction gap as [|gap IH]; intros k; simpl; [lia|].
  rewrite bool_decide_eq_true_2 by done.
  assert ((k <? k + S gap) = true) as -> by (apply Nat.ltb_lt; lia). simpl.
  replace (k + S gap) with (k + 1 + gap) by lia. apply IH.
Qed.

(** A sequence matched against itself is one block. *)
Lemma find_longest_match_identical :
  Difflib.find_longest_match a a 0 (length a) 0 (length a) = (0, 0, length a).
Proof.
  unfold Difflib.find_longest_match, Difflib.longest_indexed.
  pose proof (longest_indexed_diagonal_from (length a - 0) 0 (∅, (0, 0, 0))) as Hd.
  pose proof (longest_indexed_bounds_from a a 0 (length a) 0 (length a - 0) 0
                (∅, (0, 0, 0))) as Hb.
  cbv zeta in Hd, Hb.
  destruct (foldl _ _ _) as [j2len [[bi bj] bs]].
  cbn [fst snd] in Hd, Hb |- *.
  assert (bi = bj) as ->.
  { apply Hd.
    - lia.
    - intros j k. by rewrite lookup_empty.
    - by intros i' [=].
    - intros i' Hi'. lia.
    - done. }
  assert (bj + bs <= length a) as Hle.
  { destruct Hb as (_ & Hb & _); [lia| |lia|lia].
    intros j k. by rewrite lookup_empty. }
  rewrite extend_back_identical.
  pose proof (extend_fwd_identical (length a - (bs + bj)) (bs + bj)) as Hf.
  replace (bs + bj + (length a - (bs + bj))) with (length a) in Hf by lia.
  replace (length a - (0 + (bs + bj))) with (length a - (bs + bj)) by lia.
  by rewrite Hf.
Qed.

(** The ratio of a sequence with itself is 1. *)
Lemma ratio_identical : Difflib.ratio a a = 1%Q.
Proof.
  unfold Difflib.ratio. rewrite matches_of_blocks.
  unfold Difflib.queue_cost; simpl. rewrite Nat.sub_0_r.
  replace (length a + (length a + 0) + 1 + 0) with (S (length a + length a)) by lia.
  cbn [Difflib.blocks_loop].
  rewrite find_longest_match_identical. unfold Difflib.size; simpl.
  unfold Difflib._calculate_ratio.
  destruct (0 <? length a) eqn:E.
  - unfold Difflib.push. simpl.
    rewrite !Nat.ltb_irrefl. simpl.
    replace (Difflib.blocks_loop a a _ [] _) with [(0, 0, length a)]
      by by destruct (length a + _).
    simpl.
    assert ((0 <? length a + length a) = true) as ->.
    { apply Nat.ltb_lt. apply Nat.ltb_lt in E. lia. }
    apply Nat.ltb_lt in E.
    replace 1%Q with (Qred 1) by reflexivity. apply Qred_complete.
    unfold Qeq; simpl. rewrite Z.mul_1_r.
    rewrite <- (positive_nat_Z (Pos.of_nat (length a + length a))).
    rewrite Nat2Pos.id by lia. lia.
  - apply Nat.ltb_ge in E. assert (length a = 0) as Hz by lia.
    replace (Difflib.blocks_loop a a _ [] _) with (@nil Difflib.block)
      by by destruct (length a + _).
    simpl. by rewrite Hz.
Qed.

End Identical.

(** ** Address normalisation and similarity *)

Lemma upper_char_idempotent (c : ascii) : Py.upper_char (Py.upper_char c) = Py.upper_char c.
Proof. destruct c as [[] [] [] [] [] [] [] []]; reflexivity. Qed.

Lemma upper_lower_char (c : ascii) : Py.upper_char (Py.lower_char c) = Py.upper_char c.
Proof. destruct c as [[] [] [] [] [] [] [] []]; reflexivity. Qed.

Lemma upper_case_changed (x x' : str) : case_changed x x' -> Py.upper x' = Py.upper x.
Proof.
  unfold case_changed, Py.upper. induction 1 as [|c c' x x' Hc _ IH]; simpl; [done|].
  rewrite IH. f_equal.
  destruct Hc as [->|[->| ->]];
    [done|apply upper_char_idempotent|apply upper_lower_char].
Qed.

Lemma normalise_case_changed (x x' : str) :
  case_changed x x' -> Address.normalise x' = Address.normalise x.
Proof. intros H. unfold Address.normalise. by rewrite (upper_case_changed x x' H). Qed.

Lemma normalise_comma (x1 x2 : str) :
  Address.normalise (x1 ++ ","%char :: x2) = Address.normalise (x1 ++ x2).
Proof.
  unfold Address.normalise, Py.upper, Py.replace.
  by rewrite !map_app, !flat_map_app.
Qed.

Lemma case_changed_upper (x : str) : case_changed x (Py.upper x).
Proof. unfold case_changed, Py.upper. induction x; constructor; auto. Qed.

Lemma case_changed_lower (x : str) : case_changed x (Py.lower x).
Proof. unfold case_changed, Py.lower. induction x; constructor; auto. Qed.

(** [x.upper()] and [x.lower()] normalise as [x] does. *)
Corollary normalise_upper_lower (x : str) :
  Address.normalise (Py.upper x) = Address.normalise x
  /\ Address.normalise (Py.lower x) = Address.normalise x.
Proof.
  split; apply normalise_case_changed;
    [apply case_changed_upper|apply case_changed_lower].
Qed.

(** A score is stored in lowest terms. *)
Lemma ratio_reduced (a b : str) : Qred (Difflib.ratio a b) = Difflib.ratio a b.
Proof.
  unfold Difflib.ratio, Difflib._calculate_ratio.
  destruct (0 <? _); [apply Qred_complete, Qred_correct|reflexivity].
Qed.

Lemma similarity_reduced (x y : str) :
  Qred (Address.similarity x y) = Address.similarity x y.
Proof. apply ratio_reduced. Qed.

Lemma similarity_bounds (x y : str) : (0 <= Address.similarity x y <= 1)%Q.
Proof. apply ratio_bounds. Qed.

Lemma similarity_blank (x y : str) :
  Address.normalise x = [] -> Address.normalise y = [] -> Address.similarity x y = 1%Q.
Proof. intros Hx Hy. unfold Address.similarity. rewrite Hx, Hy. reflexivity. Qed.

Lemma similarity_blank_query (x y : str) :
  Address.normalise x <> [] -> Address.normalise y = [] -> Address.similarity x y = 0%Q.
Proof.
  intros Hx Hy. unfold Address.similarity. rewrite Hy. by apply ratio_empty_r.
Qed.

(** ** Similarity on text beyond 7 bits *)

Section UnicodeFacts.

Variable db : Unicode.ucd.

Lemma upper_of_app (x y : Unicode.text) :
  Unicode.upper db (x ++ y) = Unicode.upper db x ++ Unicode.upper db y.
Proof. apply flat_map_app. Qed.

Lemma normalise_same_upper (x x' : Unicode.text) :
  Unicode.upper db x' = Unicode.upper db x ->
  Unicode.normalise db x' = Unicode.normalise db x.
Proof. intros Hu. unfold Unicode.normalise. by rewrite Hu. Qed.

Hypothesis Hlatin : basic_latin db.

Lemma letters_changed_upper (x x' : Unicode.text) :
  letters_changed x x' -> Unicode.upper db x' = Unicode.upper db x.
Proof.
  induction 1 as [|c c' x x' Hc _ IH]; [done|].
  change (Unicode.to_upper_full db c' ++ Unicode.upper db x'
          = Unicode.to_upper_full db c ++ Unicode.upper db x).
  rewrite IH. f_equal.
  destruct Hc as [->|[[Hc ->]|[Hc ->]]]; [done| |].
  - destruct (Hlatin c) as [-> _]; [lia|].
    destruct (Hlatin (c + 32)%N) as [-> _]; [lia|].
    replace ((97 <=? c) && (c <=? 122))%N with false
      by (symmetry; apply andb_false_iff; left; apply N.leb_gt; lia).
    replace ((97 <=? c + 32) && (c + 32 <=? 122))%N with true
      by (symmetry; apply andb_true_iff; split; apply N.leb_le; lia).
    f_equal. lia.
  - destruct (Hlatin c) as [-> _]; [lia|].
    destruct (Hlatin (c - 32)%N) as [-> _]; [lia|].
    replace ((97 <=? c) && (c <=? 122))%N with true
      by (symmetry; apply andb_true_iff; split; apply N.leb_le; lia).
    replace ((97 <=? c - 32) && (c - 32 <=? 122))%N with false
      by (symmetry; apply andb_false_iff; left; apply N.leb_gt; lia).
    done.
Qed.

Lemma normalise_comma_wide (x1 x2 : Unicode.text) :
  Unicode.normalise db (x1 ++ Unicode.COMMA :: x2) = Unicode.normalise db (x1 ++ x2).
Proof.
  unfold Unicode.normalise. do 2 f_equal.
  rewrite !upper_of_app. unfold Unicode.replace. rewrite !flat_map_app. f_equal.
  change (Unicode.upper db (Unicode.COMMA :: x2))
    with (Unicode.to_upper_full db Unicode.COMMA ++ Unicode.upper db x2).
  destruct (Hlatin Unicode.COMMA) as [-> _]; [done|]. reflexivity.
Qed.

End UnicodeFacts.

(** In every database with the entries of the Basic Latin block and of the
    Kelvin sign, lowering the case of the sign changes the score. *)
Lemma kelvin_sign_lowered (db : Unicode.ucd) :
  basic_latin db -> kelvin_sign db ->
  Unicode.lower db [KELVIN_SIGN] = [107%N]
  /\ Unicode.similarity db [KELVIN_SIGN] [KELVIN_SIGN] = 1%Q
  /\ Unicode.similarity db (Unicode.lower db [KELVIN_SIGN]) [KELVIN_SIGN] = 0%Q.
Proof.
  intros Hl (Hu & Hlow & Hw).
  assert (Unicode.lower db [KELVIN_SIGN] = [107%N]) as Hlower.
  { unfold Unicode.lower. simpl. by rewrite Hlow. }
  assert (Unicode.normalise db [KELVIN_SIGN] = [KELVIN_SIGN]) as Hn.
  { unfold Unicode.normalise, Unicode.upper. simpl. rewrite Hu. simpl.
    unfold Unicode.split. simpl. by rewrite Hw. }
  assert (Unicode.normalise db [107%N] = [75%N]) as Hk.
  { unfold Unicode.normalise, Unicode.upper. simpl.
    destruct (Hl 107%N) as [-> _]; [done|]. simpl.
    unfold Unicode.split. simpl. change (107 - 32)%N with 75%N.
    destruct (Hl 75%N) as (_ & _ & ->); [done|]. done. }
  split; [done|]. unfold Unicode.similarity. rewrite Hlower, Hn, Hk.
  split; vm_compute; reflexivity.
Qed.

(** C7. [similarity x x] is 1.0 for every text [x]; every score lies
    between 0.0 and 1.0; and the score does not change, in either argument,
    when an argument is replaced by a text with the same upper-case form,
    which is what a change of case of the letters [A] to [Z] and [a] to [z]
    gives, nor when a comma is inserted or removed. *)
Theorem C7_similarity_reflexive_bounded_upper_case_invariant (db : Unicode.ucd) :
  basic_latin db ->
  (forall x, Unicode.similarity db x x = 1%Q)
  /\ (forall x y, (0 <= Unicode.similarity db x y <= 1)%Q)
  /\ (forall x x' y,
        Unicode.upper db x' = Unicode.upper db x ->
        Unicode.similarity db x' y = Unicode.similarity db x y
        /\ Unicode.similarity db y x' = Unicode.similarity db y x)
  /\ (forall x x' y,
        letters_changed x x' ->
        Unicode.similarity db x' y = Unicode.similarity db x y
        /\ Unicode.similarity db y x' = Unicode.similarity db y x)
  /\ (forall x1 x2 y,
        Unicode.similarity db (x1 ++ Unicode.COMMA :: x2) y
        = Unicode.similarity db (x1 ++ x2) y
        /\ Unicode.similarity db y (x1 ++ Unicode.COMMA :: x2)
           = Unicode.similarity db y (x1 ++ x2)).
Proof.
  intros Hlatin.
  assert (forall x x' y,
            Unicode.normalise db x' = Unicode.normalise db x ->
            Unicode.similarity db x' y = Unicode.similarity db x y
            /\ Unicode.similarity db y x' = Unicode.similarity db y x) as Hsame.
  { intros x x' y Hn. unfold Unicode.similarity. by rewrite Hn. }
  split; [|split; [|split; [|split]]].
  - intros x. apply ratio_identical.
  - intros x y. apply ratio_bounds.
  - intros x x' y Hu. by apply Hsame, normalise_same_upper.
  - intros x x' y Hc. by apply Hsame, normalise_same_upper, letters_changed_upper.
  - intros x1 x2 y. by apply Hsame, normalise_comma_wide.
Qed.

(** ** The two models of [address.py] on 7-bit text *)

(** *** The matcher sees its elements only through their equality *)

Lemma b2j_get_spec {Elt : Type} {Elt_eq : EqDecision Elt} {Elt_countable : Countable Elt}
    {Elt_inhabited : Inhabited Elt} (b : list Elt) (c : Elt) :
  Difflib.b2j_get b c
  = if (200 <=? length b) && (length b / 100 + 1 <? length (positions c 0 b))
    then [] else positions c 0 b.
Proof.
  pose proof (chain_positions c b 0 ∅) as Hc.
  fold (Difflib.b2j_all b) in Hc. rewrite lookup_empty in Hc. simpl in Hc.
  unfold Difflib.b2j_get, Difflib.b2j. rewrite map_lookup_filter.
  destruct (Difflib.b2j_all b !! c) as [l|] eqn:El; simpl in Hc; cbn [mbind option_bind].
  2:{ rewrite <- Hc. cbn [default]. by destruct (_ && _). }
  subst l. unfold Difflib.bpopular.
  destruct (200 <=? length b) eqn:E200; cbn [andb].
  2:{ case_guard as Hg; simpl; [done|]. set_solver. }
  destruct (length b / 100 + 1 <? length (positions c 0 b)) eqn:Ep.
  - apply Nat.ltb_lt in Ep. case_guard as Hg; simpl; [|done].
    exfalso. apply Hg. apply elem_of_dom. exists (positions c 0 b).
    by apply map_lookup_filter_Some.
  - apply Nat.ltb_ge in Ep. case_guard as Hg; simpl; [done|].
    exfalso. cbn [fst] in Hg. apply elem_of_dom in Hg as [l Hl].
    apply map_lookup_filter_Some in Hl as [Hl Hlt]. cbn [snd] in Hlt.
    rewrite El in Hl. injection Hl as <-. lia.
Qed.

Lemma foldl_agree {A B : Type} (g1 g2 : A -> B -> A) (l : list B) (x : A) :
  Forall (fun y => forall x, g1 x y = g2 x y) l -> foldl g1 x l = foldl g2 x l.
Proof.
  intros Hl. revert x. induction Hl as [|y l Hy _ IH]; intros x; simpl; [done|].
  by rewrite Hy, IH.
Qed.

Section Renaming.

Context {A : Type} {A_eq : EqDecision A} {A_countable : Countable A}
  {A_inhabited : Inhabited A}.
Context {B : Type} {B_eq : EqDecision B} {B_countable : Countable B}
  {B_inhabited : Inhabited B}.

Variable f : A -> B.
Hypothesis f_inj : Inj (=) (=) f.

Variables a b : list A.

Lemma positions_fmap (c : A) (off : nat) (l : list A) :
  positions (f c) off (f <$> l) = positions c off l.
Proof.
  revert off. induction l as [|d l IH]; intros off; simpl; [done|].
  rewrite IH. f_equal. repeat case_decide; naive_solver.
Qed.

Lemma b2j_get_fmap (c : A) : Difflib.b2j_get (f <$> b) (f c) = Difflib.b2j_get b c.
Proof. by rewrite !b2j_get_spec, positions_fmap, length_fmap. Qed.

Lemma same_element (i j : nat) :
  i < length a -> j < length b ->
  bool_decide ((f <$> a) !!! i = (f <$> b) !!! j) = bool_decide (a !!! i = b !!! j).
Proof.
  intros Hi Hj. rewrite !(list_lookup_total_fmap f) by done.
  apply bool_decide_ext. split; [apply f_inj|by intros ->].
Qed.

Lemma longest_indexed_fmap (alo ahi blo bhi : nat) :
  ahi <= length a ->
  Difflib.longest_indexed (f <$> a) (f <$> b) alo ahi blo bhi
  = Difflib.longest_indexed a b alo ahi blo bhi.
Proof.
  intros Ha. unfold Difflib.longest_indexed. apply foldl_agree.
  apply Forall_forall. intros i Hi st. apply elem_of_seq in Hi.
  unfold Difflib.row_step. rewrite (list_lookup_total_fmap f) by lia.
  by rewrite b2j_get_fmap.
Qed.

Lemma extend_back_fmap (alo blo besti bestj bestsize : nat) :
  besti <= length a -> bestj <= length b ->
  Difflib.extend_back (f <$> a) (f <$> b) alo blo besti bestj bestsize
  = Difflib.extend_back a b alo blo besti bestj bestsize.
Proof.
  revert bestj bestsize. induction besti as [|i IH]; intros bestj bestsize Hi Hj; [done|].
  destruct bestj as [|j]; [done|]. simpl.
  rewrite same_element by lia. rewrite IH by lia. done.
Qed.

Lemma extend_fwd_fmap (gap bhi besti bestj bestsize : nat) :
  besti + bestsize + gap <= length a -> bhi <= length b ->
  Difflib.extend_fwd (f <$> a) (f <$> b) gap bhi besti bestj bestsize
  = Difflib.extend_fwd a b gap bhi besti bestj bestsize.
Proof.
  revert bestsize. induction gap as [|gap IH]; intros bestsize Hi Hj; [done|]. simpl.
  destruct (bestj + bestsize <? bhi) eqn:E; simpl; [|done].
  apply Nat.ltb_lt in E. rewrite same_element by lia. rewrite IH by lia. done.
Qed.

Lemma find_longest_match_fmap (alo ahi blo bhi : nat) :
  alo <= ahi -> ahi <= length a -> blo <= bhi -> bhi <= length b ->
  Difflib.find_longest_match (f <$> a) (f <$> b) alo ahi blo bhi
  = Difflib.find_longest_match a b alo ahi blo bhi.
Proof.
  intros Ha Ha' Hb Hb'. unfold Difflib.find_longest_match.
  rewrite longest_indexed_fmap by done. unfold Difflib.longest_indexed.
  pose proof (longest_indexed_bounds_from a b blo bhi alo (ahi - alo) alo
                (∅, (alo, blo, 0))) as H.
  simpl in H. destruct H as (H1 & H2 & H3 & H4); [lia| |lia|].
  { intros j k. by rewrite lookup_empty. }
  destruct (foldl _ _ _) as [j2len [[bi bj] bs]]; simpl in *.
  rewrite extend_back_fmap by lia.
  pose proof (extend_back_spec a b alo blo bi bj bs H1 H3) as H.
  destruct (Difflib.extend_back a b alo blo bi bj bs) as [[bi' bj'] bs']; simpl in *.
  rewrite extend_fwd_fmap by lia. done.
Qed.

Lemma blocks_loop_fmap (fuel : nat) (queue : list Difflib.region)
    (acc : list Difflib.block) :
  Forall (inner_region a b) queue ->
  Difflib.blocks_loop (f <$> a) (f <$> b) fuel queue acc
  = Difflib.blocks_loop a b fuel queue acc.
Proof.
  revert queue acc. induction fuel as [|fuel IH]; intros queue acc Hq; [done|].
  destruct queue as [|[[[alo ahi] blo] bhi] queue]; [done|]. simpl.
  apply Forall_cons in Hq as [(Ha & Ha' & Hb & Hb') Hq].
  rewrite find_longest_match_fmap by done.
  pose proof (find_longest_match_bounds a b alo ahi blo bhi Ha Hb) as Hx.
  destruct (Difflib.find_longest_match a b alo ahi blo bhi) as [[i j] k].
  simpl in Hx. destruct (0 <? Difflib.size (i, j, k)); [|by apply IH].
  apply IH. unfold Difflib.push.
  destruct ((alo <? i) && (blo <? j)), ((i + k <? ahi) && (j + k <? bhi));
    repeat (apply Forall_cons; split; [simpl; lia|]); done.
Qed.

Lemma ratio_fmap : Difflib.ratio (f <$> a) (f <$> b) = Difflib.ratio a b.
Proof.
  unfold Difflib.ratio, Difflib.get_matching_blocks. rewrite !length_fmap.
  rewrite blocks_loop_fmap; [done|].
  apply Forall_cons. split; [simpl; lia|constructor].
Qed.

End Renaming.

(** *** [normalise] on 7-bit text *)

Lemma code_of_inj : Inj (=) (=) code_of.
Proof.
  intros c d Hcd. apply Nat2N.inj in Hcd. unfold Py.ord in Hcd.
  by rewrite <- (ascii_nat_embedding c), Hcd, ascii_nat_embedding.
Qed.

Lemma code_of_upper (c : ascii) :
  (if (97 <=? code_of c)%N && (code_of c <=? 122)%N then (code_of c - 32)%N else code_of c)
  = code_of (Py.upper_char c).
Proof. destruct c as [[] [] [] [] [] [] [] []]; reflexivity. Qed.

Lemma code_of_space (c : ascii) :
  ((9 <=? code_of c)%N && (code_of c <=? 13)%N
   || (28 <=? code_of c)%N && (code_of c <=? 32)%N)
  = Py.isspace c.
Proof. destruct c as [[] [] [] [] [] [] [] []]; reflexivity. Qed.

Lemma code_of_comma (c : ascii) : (code_of c =? Unicode.COMMA)%N = Ascii.eqb c ",".
Proof. destruct c as [[] [] [] [] [] [] [] []]; reflexivity. Qed.

Lemma code_of_7bit (c : ascii) : Py.ord c < 128 -> (code_of c < 128)%N.
Proof. unfold code_of. lia. Qed.

Lemma upper_char_7bit (c : ascii) : Py.ord c < 128 -> Py.ord (Py.upper_char c) < 128.
Proof. destruct c as [[] [] [] [] [] [] [] []]; vm_compute; lia. Qed.

Lemma of_str_app (x y : str) : of_str (x ++ y) = of_str x ++ of_str y.
Proof. apply fmap_app. Qed.

Lemma of_str_rev (x : str) : of_str (rev x) = rev (of_str x).
Proof.
  induction x as [|c x IH]; simpl; [done|]. by rewrite of_str_app, IH.
Qed.

Section SevenBit.

Variable db : Unicode.ucd.
Hypothesis Hlatin : basic_latin db.

Lemma upper_of_str (x : str) :
  seven_bit x -> Unicode.upper db (of_str x) = of_str (Py.upper x).
Proof.
  induction 1 as [|c x Hc _ IH]; [done|].
  change (Unicode.to_upper_full db (code_of c) ++ Unicode.upper db (of_str x)
          = code_of (Py.upper_char c) :: of_str (Py.upper x)).
  destruct (Hlatin (code_of c) (code_of_7bit c Hc)) as [-> _].
  by rewrite IH, code_of_upper.
Qed.

Lemma replace_of_str (x : str) :
  Unicode.replace Unicode.COMMA [] (of_str x) = of_str (Py.replace "," [] x).
Proof.
  induction x as [|c x IH]; [done|].
  change (((if (code_of c =? Unicode.COMMA)%N then [] else [code_of c])
           ++ Unicode.replace Unicode.COMMA [] (of_str x))
          = of_str ((if Ascii.eqb c "," then [] else [c]) ++ Py.replace "," [] x)).
  rewrite IH, code_of_comma, of_str_app. by destruct (Ascii.eqb c ",").
Qed.

Lemma split_of_str (x : str) :
  seven_bit x ->
  forall cur, Unicode.split_from db (of_str cur) (of_str x)
              = of_str <$> Py.split_from cur x.
Proof.
  induction 1 as [|c x Hc _ IH]; intros cur.
  { destruct cur as [|d cur]; [done|].
    change ([rev (of_str (d :: cur))] = [of_str (rev (d :: cur))]). by rewrite of_str_rev. }
  change (of_str (c :: x)) with (code_of c :: of_str x). simpl.
  destruct (Hlatin (code_of c) (code_of_7bit c Hc)) as (_ & _ & ->).
  rewrite code_of_space. destruct (Py.isspace c).
  - destruct cur as [|d cur]; [apply (IH [])|].
    change (rev (of_str (d :: cur)) :: Unicode.split_from db (of_str []) (of_str x)
            = of_str (rev (d :: cur)) :: (of_str <$> Py.split_from [] x)).
    by rewrite (IH []), of_str_rev.
  - apply (IH (c :: cur)).
Qed.

Lemma join_of_str (ws : list str) :
  Unicode.join [Unicode.SPACE] (of_str <$> ws) = of_str (Py.join (s " ") ws).
Proof.
  induction ws as [|w ws IH]; [done|].
  destruct ws as [|w' ws]; [done|].
  change (of_str w ++ [Unicode.SPACE] ++ Unicode.join [Unicode.SPACE] (of_str <$> w' :: ws)
          = of_str (w ++ s " " ++ Py.join (s " ") (w' :: ws))).
  by rewrite IH, !of_str_app.
Qed.

Lemma normalise_of_str (x : str) :
  seven_bit x -> Unicode.normalise db (of_str x) = of_str (Address.normalise x).
Proof.
  intros Hx. unfold Unicode.normalise, Address.normalise.
  assert (seven_bit (Py.replace "," [] (Py.upper x))) as Hr.
  { unfold seven_bit. induction Hx as [|c x Hc _ IH]; [constructor|].
    change (Forall (fun c => Py.ord c < 128)
              ((if Ascii.eqb (Py.upper_char c) "," then [] else [Py.upper_char c])
               ++ Py.replace "," [] (Py.upper x))).
    apply Forall_app. split; [|done].
    destruct (Ascii.eqb _ _); constructor; [by apply upper_char_7bit|constructor]. }
  rewrite upper_of_str, replace_of_str by done.
  unfold Unicode.split, Py.split.
  pose proof (split_of_str _ Hr []) as Hsp. change (of_str []) with (@nil N) in Hsp.
  rewrite Hsp.
  apply join_of_str.
Qed.

(** On 7-bit text the two models of [address.similarity] give the same
    score. *)
Lemma similarity_of_str (x y : str) :
  seven_bit x -> seven_bit y ->
  Unicode.similarity db (of_str x) (of_str y) = Address.similarity x y.
Proof.
  intros Hx Hy. unfold Unicode.similarity, Address.similarity.
  rewrite !normalise_of_str by done. apply (ratio_fmap code_of code_of_inj).
Qed.

End SevenBit.

(** ** The postcode pattern *)

Lemma nullable_lang (r : Re.re) : Re.nullable r = true <-> Re.Lang r [].
Proof.
  induction r as [| |cs|r1 IH1 r2 IH2|r1 IH1 r2 IH2]; simpl.
  - split; [done|]. inversion 1.
  - split; [constructor|done].
  - split; [done|]. inversion 1.
  - rewrite andb_true_iff, IH1, IH2. split.
    + intros [H1 H2]. by apply (Re.L_seq r1 r2 [] []).
    + inversion 1 as [| |? ? x y Hx Hy| |]; subst.
      match goal with E : _ ++ _ = [] |- _ => apply app_eq_nil in E as [-> ->] end.
      done.
  - rewrite orb_true_iff, IH1, IH2. split.
    + intros [H|H]; [by apply Re.L_alt_l|by apply Re.L_alt_r].
    + inversion 1; subst; eauto.
Qed.

Lemma deriv_lang (r : Re.re) (c : ascii) (x : str) :
  Re.Lang (Re.deriv c r) x <-> Re.Lang r (c :: x).
Proof.
  revert x. induction r as [| |cs|r1 IH1 r2 IH2|r1 IH1 r2 IH2]; intros x; simpl.
  - split; inversion 1.
  - split; inversion 1.
  - destruct (Re.in_cset_i cs c) eqn:E.
    + split.
      * inversion 1; subst. by constructor.
      * inversion 1; subst. constructor.
    + split; inversion 1; subst. congruence.
  - assert (Re.Lang (Re.Seq (Re.deriv c r1) r2) x
            \/ (Re.nullable r1 = true /\ Re.Lang (Re.deriv c r2) x)
            <-> Re.Lang (Re.Seq r1 r2) (c :: x)) as Hseq.
    { split.
      - intros [H|[Hn H]].
        + inversion H as [| |? ? y z Hy Hz| |]; subst.
          apply IH1 in Hy. by apply (Re.L_seq r1 r2 (c :: y) z).
        + apply nullable_lang in Hn. apply IH2 in H.
          by apply (Re.L_seq r1 r2 [] (c :: x)).
      - inversion 1 as [| |? ? y z Hy Hz| |]; subst.
        match goal with E : _ ++ _ = _ :: _ |- _ => rename E into Heq end.
        destruct y as [|d y]; simpl in Heq.
        + subst z. right. split; [by apply nullable_lang|by apply IH2].
        + injection Heq as -> <-. left. constructor; [by apply IH1|done]. }
    rewrite <- Hseq. destruct (Re.nullable r1).
    + split.
      * inversion 1; subst; [by left|by right].
      * intros [H|[_ H]]; [by apply Re.L_alt_l|by apply Re.L_alt_r].
    + split; [by left|]. by intros [H|[? _]].
  - split.
    + inversion 1; subst; [apply Re.L_alt_l|apply Re.L_alt_r];
        first [by apply IH1|by apply IH2].
    + inversion 1; subst; [apply Re.L_alt_l|apply Re.L_alt_r];
        first [by apply IH1|by apply IH2].
Qed.

(** The matcher decides the language of the pattern. *)
Lemma matches_lang (r : Re.re) (x : str) : Re.matches r x = true <-> Re.Lang r x.
Proof.
  revert r. induction x as [|c x IH]; intros r; simpl.
  - apply nullable_lang.
  - rewrite IH. apply deriv_lang.
Qed.

Lemma validate_grammar (raw : str) : Postcode.validate raw = true <-> Postcode.grammar raw.
Proof. apply matches_lang. Qed.

(** C8. A string outside the postcode grammar is not valid, and
    normalising it raises [PostcodeInvalid] carrying the string as it was
    given. *)
Theorem C8_invalid_postcode_carries_input (raw : str) :
  ~ Postcode.grammar raw ->
  Postcode.validate raw = false
  /\ Postcode.normalise raw = inl (PostcodeInvalid raw).
Proof.
  intros H.
  assert (Postcode.validate raw = false) as Hv.
  { destruct (Postcode.validate raw) eqn:E; [|done].
    by apply validate_grammar in E. }
  split; [done|]. unfold Postcode.normalise. by rewrite Hv.
Qed.

(** ** Canonical postcodes

    Where the trimmed input has no whitespace other than spaces,
    [normalise] returns a fixed point of itself. *)

Lemma letter_facts (c : ascii) :
  Re.in_cset_i Postcode.letter c = true -> upper_letter (Py.upper_char c).
Proof.
  unfold upper_letter.
  destruct c as [[] [] [] [] [] [] [] []]; vm_compute; intros H;
    first [discriminate H | repeat split; reflexivity].
Qed.

Lemma digit_facts (c : ascii) :
  Re.in_cset_i Re.Digit c = true -> a_digit c.
Proof.
  unfold a_digit.
  destruct c as [[] [] [] [] [] [] [] []]; vm_compute; intros H;
    first [discriminate H | repeat split; reflexivity].
Qed.

Lemma alnum_facts (c : ascii) :
  Re.in_cset_i (Re.Union Postcode.letter Re.Digit) c = true -> upper_alnum (Py.upper_char c).
Proof.
  unfold upper_alnum.
  destruct c as [[] [] [] [] [] [] [] []]; vm_compute; intros H;
    first [discriminate H | repeat split; reflexivity].
Qed.

Lemma space_facts (c : ascii) :
  Re.in_cset_i Re.Space c = true -> Py.isspace c = true.
Proof.
  destruct c as [[] [] [] [] [] [] [] []]; vm_compute; intros H;
    first [discriminate H | reflexivity].
Qed.

Lemma newline_facts (c : ascii) :
  Re.in_cset_i (Re.Lit "010") c = true -> Py.isspace c = true /\ c <> " "%char.
Proof.
  destruct c as [[] [] [] [] [] [] [] []]; vm_compute; intros H;
    first [discriminate H | split; [reflexivity|discriminate]].
Qed.

Ltac inv_lang :=
  repeat match goal with
         | H : Re.Lang (Re.Seq _ _) _ |- _ => inversion H; subst; clear H
         | H : Re.Lang (Re.Alt _ _) _ |- _ => inversion H; subst; clear H
         | H : Re.Lang (Re.Chr _) _ |- _ => inversion H; subst; clear H
         | H : Re.Lang Re.Eps _ |- _ => inversion H; subst; clear H
         end.

(** A text in canonical form is accepted by the pattern. *)
Lemma canonical_lang (A1 : ascii) (A2 : str) (D : ascii) (O : str) (E L1 L2 : ascii) :
  upper_letter A1 ->
  (A2 = [] \/ exists c, A2 = [c] /\ upper_letter c) ->
  a_digit D ->
  (O = [] \/ exists c, O = [c] /\ upper_alnum c) ->
  a_digit E -> upper_letter L1 -> upper_letter L2 ->
  Re.Lang Postcode._UK_POSTCODE_RE (A1 :: A2 ++ D :: O ++ " "%char :: [E; L1; L2]).
Proof.
  intros (_ & _ & _ & HA1) HA2 (_ & _ & _ & HD) HO (_ & _ & _ & HE)
         (_ & _ & _ & HL1) (_ & _ & _ & HL2).
  unfold Postcode._UK_POSTCODE_RE.
  apply (Re.L_seq _ _ (A1 :: A2) (D :: O ++ " "%char :: [E; L1; L2])).
  { apply (Re.L_seq _ _ [A1] A2); [by constructor|].
    destruct HA2 as [->|(c & -> & (_ & _ & _ & Hc))].
    - apply Re.L_alt_r. constructor.
    - apply Re.L_alt_l. by constructor. }
  apply (Re.L_seq _ _ [D] (O ++ " "%char :: [E; L1; L2])); [by constructor|].
  apply (Re.L_seq _ _ O (" "%char :: [E; L1; L2])).
  { destruct HO as [->|(c & -> & (_ & _ & _ & Hc))].
    - apply Re.L_alt_r. constructor.
    - apply Re.L_alt_l. by constructor. }
  apply (Re.L_seq _ _ [" "%char] [E; L1; L2]).
  { apply Re.L_alt_l. by constructor. }
  apply (Re.L_seq _ _ [E] [L1; L2]); [by constructor|].
  apply (Re.L_seq _ _ [L1; L2] []).
  { apply (Re.L_seq _ _ [L1] [L2]); by constructor. }
  apply Re.L_alt_r. constructor.
Qed.

(** A text in canonical form is a fixed point of [normalise]. *)
Lemma normalise_canonical (A1 : ascii) (A2 : str) (D : ascii) (O : str) (E L1 L2 : ascii) :
  upper_letter A1 ->
  (A2 = [] \/ exists c, A2 = [c] /\ upper_letter c) ->
  a_digit D ->
  (O = [] \/ exists c, O = [c] /\ upper_alnum c) ->
  a_digit E -> upper_letter L1 -> upper_letter L2 ->
  Postcode.normalise (A1 :: A2 ++ D :: O ++ " "%char :: [E; L1; L2])
  = inr (A1 :: A2 ++ D :: O ++ " "%char :: [E; L1; L2]).
Proof.
  intros HA1 HA2 HD HO HE HL1 HL2.
  pose proof (canonical_lang A1 A2 D O E L1 L2 HA1 HA2 HD HO HE HL1 HL2) as HL.
  destruct HA1 as (A1a & A1b & A1c & _), HD as (Da & Db & Dc & _),
    HE as (Ea & Eb & Ec & _), HL1 as (L1a & L1b & L1c & _), HL2 as (L2a & L2b & L2c & _).
  assert (Py.strip (A1 :: A2 ++ D :: O ++ " "%char :: [E; L1; L2])
          = A1 :: A2 ++ D :: O ++ " "%char :: [E; L1; L2]) as Hstrip.
  { unfold Py.strip, Py.strip_with, Py.rstrip_with. cbn [Py.lstrip_with]. rewrite A1b.
    destruct HA2 as [->|(c & -> & _)], HO as [->|(c' & -> & _)];
      cbn [rev app Py.lstrip_with]; by rewrite L2b. }
  unfold Postcode.normalise, Postcode.validate. rewrite Hstrip.
  apply matches_lang in HL. rewrite HL. cbn [negb].
  f_equal.
  destruct HA2 as [->|(c & -> & (ca & cb & cc & _))],
           HO as [->|(c' & -> & (c'a & c'b & c'c & _))];
    cbn [Py.upper map app Py.replace flat_map];
    rewrite ?A1c, ?Dc, ?Ec, ?L1c, ?L2c, ?cc, ?c'c;
    rewrite ?A1a, ?Da, ?Ea, ?L1a, ?L2a, ?ca, ?c'a; reflexivity.
Qed.

Lemma normalise_idempotent_on_space_separated (raw n : str) :
  Forall (fun c => Py.isspace c = true -> c = " "%char) (Py.strip raw) ->
  Postcode.normalise raw = inr n ->
  Postcode.normalise n = inr n.
Proof.
  intros Hws Hn. unfold Postcode.normalise in Hn.
  destruct (Postcode.validate raw) eqn:Hv; simpl in Hn; [|discriminate].
  injection Hn as <-.
  apply validate_grammar in Hv. unfold Postcode.grammar in Hv.
  generalize dependent (Py.strip raw). clear raw. intros x Hws Hv.
  unfold Postcode._UK_POSTCODE_RE, Re.Dollar, Re.Rep12, Re.Rep2, Re.Opt in Hv.
  inv_lang; simpl in Hws.
  all: repeat match goal with H : Forall _ (_ :: _) |- _ => apply Forall_cons in H as [? H] end.
  all: repeat match goal with
       | H : Re.in_cset_i (Re.Lit _) ?c = true |- _ => apply newline_facts in H as [? ?]
       | H : Re.in_cset_i Re.Space ?c = true |- _ => apply space_facts in H
       end.
  all: repeat match goal with
       | H : Py.isspace ?c = true, H' : Py.isspace ?c = true -> ?c = _ |- _ => specialize (H' H)
       end.
  all: try congruence.
  all: subst.
  all: repeat match goal with
       | H : Py.isspace _ = true -> _ |- _ => clear H
       | H : Py.isspace " " = true |- _ => clear H
       | H : Forall _ [] |- _ => clear H
       end.
  all: repeat match goal with
       | H : Re.in_cset_i Postcode.letter _ = true |- _ => apply letter_facts in H
       | H : Re.in_cset_i Re.Digit _ = true |- _ => apply digit_facts in H
       | H : Re.in_cset_i (Re.Union _ _) _ = true |- _ => apply alnum_facts in H
       end.
  all: cbn [Py.upper map app Py.replace flat_map].
  all: repeat match goal with
       | H : upper_letter (Py.upper_char ?c) |- _ =>
           generalize dependent (Py.upper_char c); clear c; intros
       | H : upper_alnum (Py.upper_char ?c) |- _ =>
           generalize dependent (Py.upper_char c); clear c; intros
       end.
  all: repeat match goal with
       | H : a_digit ?c |- context [Py.upper_char ?c] =>
           rewrite (proj1 (proj2 (proj2 H)))
       end.
  all: repeat match goal with
       | H : upper_letter ?c |- context [Ascii.eqb ?c " "] => rewrite (proj1 H)
       | H : upper_alnum ?c |- context [Ascii.eqb ?c " "] => rewrite (proj1 H)
       | H : a_digit ?c |- context [Ascii.eqb ?c " "] => rewrite (proj1 H)
       end.
  all: simpl.
  all: first
         [ solve [apply (normalise_canonical _ [] _ []); eauto 10]
         | solve [apply (normalise_canonical _ [_] _ []); eauto 10]
         | solve [apply (normalise_canonical _ [] _ [_]); eauto 10]
         | solve [apply (normalise_canonical _ [_] _ [_]); eauto 10] ].
Qed.

(** ** Candidate selection *)

Lemma Qlt_bool_iff (x y : Q) : Qlt_bool x y = true <-> (x < y)%Q.
Proof.
  unfold Qlt_bool. rewrite negb_true_iff. split.
  - intros H. apply Qnot_le_lt. intros Hle.
    apply Qle_bool_iff in Hle. congruence.
  - intros H. destruct (Qle_bool y x) eqn:E; [|done].
    apply Qle_bool_iff in E. by apply Qlt_not_le in H.
Qed.

Lemma Qlt_bool_false (x y : Q) : Qlt_bool x y = false <-> (y <= x)%Q.
Proof.
  unfold Qlt_bool. rewrite negb_false_iff. apply Qle_bool_iff.
Qed.

Lemma max2_cases (x y : Q) :
  (max2 x y = x \/ max2 x y = y) /\ (x <= max2 x y)%Q /\ (y <= max2 x y)%Q.
Proof.
  unfold max2. destruct (Qlt_bool x y) eqn:E.
  - apply Qlt_bool_iff in E. split; [by right|]. split; [by apply Qlt_le_weak|apply Qle_refl].
  - apply Qlt_bool_false in E. split; [by left|]. split; [apply Qle_refl|done].
Qed.

(** The score of a row is one of the four similarities, and none of them
    is greater. *)
Lemma row_score_cases (q : str) (row : epc_row) :
  let '(_, addr1, addr2, addr3, addr_full) := row in
  let sims := [Address.similarity (Py.or_empty addr1) q;
               Address.similarity (Py.or_empty addr2) q;
               Address.similarity (Py.or_empty addr3) q;
               Address.similarity (Py.or_empty addr_full) q] in
  row_score q row ∈ sims /\ Forall (fun v => (v <= row_score q row)%Q) sims.
Proof.
  destruct row as [[[[u a1] a2] a3] af]. unfold row_score, max4.
  set (s1 := Address.similarity (Py.or_empty a1) q).
  set (s2 := Address.similarity (Py.or_empty a2) q).
  set (s3 := Address.similarity (Py.or_empty a3) q).
  set (s4 := Address.similarity (Py.or_empty af) q).
  destruct (max2_cases s1 s2) as (C1 & L1 & L2).
  destruct (max2_cases (max2 s1 s2) s3) as (C2 & L3 & L4).
  destruct (max2_cases (max2 (max2 s1 s2) s3) s4) as (C3 & L5 & L6).
  split.
  - rewrite !elem_of_cons.
    destruct C3 as [E3|E3]; rewrite E3; [|tauto].
    destruct C2 as [E2|E2]; rewrite E2; [|tauto].
    destruct C1 as [E1|E1]; rewrite E1; tauto.
  - repeat constructor; eauto using Qle_trans.
Qed.

Lemma row_score_le_1 (q : str) (row : epc_row) : (row_score q row <= 1)%Q.
Proof.
  pose proof (row_score_cases q row) as H.
  destruct row as [[[[u a1] a2] a3] af]. destruct H as [H _].
  repeat (apply elem_of_cons in H as [-> |H]; [apply similarity_bounds|]).
  by apply elem_of_nil in H.
Qed.

Lemma row_score_reduced (q : str) (row : epc_row) :
  Qred (row_score q row) = row_score q row.
Proof.
  pose proof (row_score_cases q row) as H.
  destruct row as [[[[u a1] a2] a3] af]. destruct H as [H _].
  repeat (apply elem_of_cons in H as [-> |H]; [apply similarity_reduced|]).
  by apply elem_of_nil in H.
Qed.

(** A score that is numerically 1 is the number [1] itself. *)
Lemma row_score_is_1 (q : str) (row : epc_row) :
  (row_score q row == 1)%Q -> row_score q row = 1%Q.
Proof.
  intros H. rewrite <- row_score_reduced.
  replace 1%Q with (Qred 1) by reflexivity. by apply Qred_complete.
Qed.

Section Selection.

Variables (threshold : Q) (norm_query : str).

Let score := row_score norm_query.
Let scan := scan_rows threshold norm_query.
Let ok := eligible threshold norm_query.

(** What the loop returns, from any value of [best] on entry: either
    [best] itself, no eligible row of the cursor scoring above it; or a row
    of the cursor that parses, meets the threshold, beats [best] and every
    eligible row before it, and is not beaten by any eligible row after
    it. *)
Lemma scan_rows_spec (cur : list epc_row) (best : option (Z * str * Q)) :
  (scan best cur = best
   /\ forall r, r ∈ cur -> ok r -> exists b, best = Some b /\ (score r <= b.2)%Q)
  \/ (exists pre r post u,
        cur = pre ++ r :: post
        /\ uprn_int r = Some u
        /\ (threshold <= score r)%Q
        /\ scan best cur = Some (u, best_address r, score r)
        /\ (forall b, best = Some b -> (b.2 < score r)%Q)
        /\ (forall r', r' ∈ pre -> ok r' -> (score r' < score r)%Q)
        /\ (forall r', r' ∈ post -> ok r' -> (score r' <= score r)%Q)).
Proof.
  subst score scan ok.
  revert best. induction cur as [|row cur IH]; intros best.
  { left. split; [done|]. intros r Hr. by apply elem_of_nil in Hr. }
  cbn [scan_rows].
  set (sc := row_score norm_query row).
  destruct (Qle_bool threshold sc
            && match best with None => true | Some b => Qlt_bool b.2 sc end) eqn:Hacc.
  - apply andb_prop in Hacc as [Hth Hgt]. apply Qle_bool_iff in Hth.
    assert (forall b, best = Some b -> (b.2 < sc)%Q) as Hbeats.
    { intros b ->. by apply Qlt_bool_iff. }
    destruct (uprn_int row) as [u|] eqn:Hu.
    + (* the row becomes the best *)
      destruct (Qeq_bool sc 1) eqn:H1.
      * apply Qeq_bool_iff in H1. right. exists [], row, cur, u.
        repeat split; try done.
        -- intros r' Hr'. by apply elem_of_nil in Hr'.
        -- intros r' _ _. fold sc. rewrite H1. apply row_score_le_1.
      * destruct (IH (Some (u, best_address row, sc))) as
          [[-> Hall]|(pre & r & post & u' & -> & Hu' & Hth' & -> & Hb & Hpre & Hpost)].
        -- right. exists [], row, cur, u. repeat split; try done.
           ++ intros r' Hr'. by apply elem_of_nil in Hr'.
           ++ intros r' Hr' Hok. destruct (Hall r' Hr' Hok) as (b & [= <-] & Hle). done.
        -- right. exists (row :: pre), r, post, u'. repeat split; try done.
           ++ intros b Hb'. eapply Qlt_trans; [by apply Hbeats|]. by apply (Hb _ eq_refl).
           ++ intros r' Hr' Hok. apply elem_of_cons in Hr' as [->|Hr'].
              ** by apply (Hb _ eq_refl).
              ** by apply Hpre.
    + (* the UPRN does not parse: continue *)
      destruct (IH best) as
        [[-> Hall]|(pre & r & post & u' & -> & Hu' & Hth' & -> & Hb & Hpre & Hpost)].
      * left. split; [done|]. intros r Hr Hok.
        apply elem_of_cons in Hr as [->|Hr]; [|by apply Hall].
        destruct Hok as [_ [? Hsome]]. congruence.
      * right. exists (row :: pre), r, post, u'. repeat split; try done.
        intros r' Hr' Hok. apply elem_of_cons in Hr' as [->|Hr']; [|by apply Hpre].
        destruct Hok as [_ [? Hsome]]. congruence.
  - (* the row does not beat the best *)
    assert (ok_row : eligible threshold norm_query row ->
                     exists b, best = Some b /\ (sc <= b.2)%Q).
    { intros [Hth _]. fold sc in Hth. rewrite Hth in Hacc. simpl in Hacc.
      destruct best as [b|]; [|done]. exists b. split; [done|].
      by apply Qlt_bool_false. }
    destruct (IH best) as
      [[-> Hall]|(pre & r & post & u' & -> & Hu' & Hth' & -> & Hb & Hpre & Hpost)].
    + left. split; [done|]. intros r Hr Hok.
      apply elem_of_cons in Hr as [->|Hr]; [by apply ok_row|by apply Hall].
    + right. exists (row :: pre), r, post, u'. repeat split; try done.
      intros r' Hr' Hok. apply elem_of_cons in Hr' as [->|Hr']; [|by apply Hpre].
      destruct (ok_row Hok) as (b & Hbest & Hle).
      eapply Qle_lt_trans; [exact Hle|]. by apply Hb.
Qed.

(** Rows whose UPRN does not parse can be dropped from the cursor. *)
Lemma scan_rows_filter (cur : list epc_row) (best : option (Z * str * Q)) :
  scan best cur = scan best (filter (fun r => is_Some (uprn_int r)) cur).
Proof.
  subst scan. revert best. induction cur as [|row cur IH]; intros best; [done|].
  destruct (uprn_int row) as [u|] eqn:Hu.
  - rewrite filter_cons_True by (rewrite Hu; eauto). cbn [scan_rows]. rewrite Hu.
    destruct (_ && _); [|apply IH]. destruct (Qeq_bool _ _); [done|apply IH].
  - rewrite filter_cons_False by (rewrite Hu; by intros [? ?]).
    cbn [scan_rows]. rewrite Hu. destruct (_ && _); apply IH.
Qed.

End Selection.

(** What is selected is a row of the cursor that parses and meets the
    threshold, and no such row scores above it. *)
Lemma scan_rows_selected (threshold : Q) (norm_query : str) (cur : list epc_row)
    (u : Z) (addr : str) (sc : Q) :
  scan_rows threshold norm_query None cur = Some (u, addr, sc) ->
  exists r, r ∈ cur
    /\ uprn_int r = Some u
    /\ addr = best_address r
    /\ sc = row_score norm_query r
    /\ (threshold <= sc)%Q
    /\ forall r', r' ∈ cur -> is_Some (uprn_int r') ->
         (threshold <= row_score norm_query r')%Q ->
         (row_score norm_query r' <= sc)%Q.
Proof.
  intros H.
  destruct (scan_rows_spec threshold norm_query cur None) as
    [[E _]|(pre & r & post & u' & -> & Hu & Hth & E & _ & Hpre & Hpost)];
    rewrite E in H; [done|]. injection H as <- <- <-.
  exists r. split; [set_solver|]. repeat split; try done.
  intros r' Hr' Hp Ht.
  assert (eligible threshold norm_query r') as Hok.
  { split; [by apply Qle_bool_iff|done]. }
  apply elem_of_app in Hr' as [Hr'|Hr'].
  - apply Qlt_le_weak. by apply Hpre.
  - apply elem_of_cons in Hr' as [->|Hr']; [apply Qle_refl|by apply Hpost].
Qed.

(** C1, as the code has it.  Among the rows that meet the threshold and
    whose UPRN parses, the loop selects the first one with the highest score:
    every such row before it scores strictly less, every such row after it
    scores no more, and when there is no such row nothing is selected.  A row
    that does not score strictly above the current best leaves it in place.
    And once a row is accepted with a score of 1.0 the result is that row,
    whatever rows remain. *)
Theorem C1_first_highest_eligible_row_is_selected
    (threshold : Q) (norm_query : str) (cur : list epc_row) :
  match scan_rows threshold norm_query None cur with
  | None => forall r, r ∈ cur -> ~ eligible threshold norm_query r
  | Some (u, addr, sc) =>
      exists pre r post,
        cur = pre ++ r :: post
        /\ eligible threshold norm_query r
        /\ uprn_int r = Some u
        /\ addr = best_address r
        /\ sc = row_score norm_query r
        /\ (forall r', r' ∈ pre -> eligible threshold norm_query r' ->
              (row_score norm_query r' < sc)%Q)
        /\ (forall r', r' ∈ post -> eligible threshold norm_query r' ->
              (row_score norm_query r' <= sc)%Q)
  end
  /\ (forall b r rest,
        ~ (b.2 < row_score norm_query r)%Q ->
        scan_rows threshold norm_query (Some b) (r :: rest)
        = scan_rows threshold norm_query (Some b) rest)
  /\ (forall best r rest u,
        (threshold <= row_score norm_query r)%Q ->
        (forall b, best = Some b -> (b.2 < row_score norm_query r)%Q) ->
        uprn_int r = Some u ->
        (row_score norm_query r == 1)%Q ->
        scan_rows threshold norm_query best (r :: rest)
        = Some (u, best_address r, row_score norm_query r)).
Proof.
  split; [|split].
  - destruct (scan_rows_spec threshold norm_query cur None) as
      [[-> Hall]|(pre & r & post & u & -> & Hu & Hth & -> & _ & Hpre & Hpost)].
    + intros r Hr Hok. by destruct (Hall r Hr Hok) as (b & ? & _).
    + exists pre, r, post. repeat split; try done.
      by apply Qle_bool_iff.
  - intros b r rest Hnot. cbn [scan_rows].
    destruct (Qlt_bool b.2 (row_score norm_query r)) eqn:E.
    + by apply Qlt_bool_iff in E.
    + by rewrite andb_false_r.
  - intros best r rest u Hth Hbeats Hu H1. cbn [scan_rows].
    apply Qle_bool_iff in Hth. rewrite Hth, Hu. simpl.
    apply Qeq_bool_iff in H1. rewrite H1.
    destruct best as [b|]; [|done].
    specialize (Hbeats b eq_refl). apply Qlt_bool_iff in Hbeats. by rewrite Hbeats.
Qed.

(** C2. A row whose UPRN field does not parse as an integer is never
    selected: the result is the one the cursor without these rows gives, no
    exception arises from them, the selected row parses and meets the
    threshold, no row that parses and meets the threshold scores above it,
    and a row is selected as soon as one row parses and meets the
    threshold. *)
Theorem C2_unparseable_uprn_rows_are_skipped
    (threshold : Q) (norm_query : str) (cur : list epc_row) :
  scan_rows threshold norm_query None cur
  = scan_rows threshold norm_query None (filter (fun r => is_Some (uprn_int r)) cur)
  /\ (forall u addr sc,
        scan_rows threshold norm_query None cur = Some (u, addr, sc) ->
        exists r, r ∈ cur
          /\ uprn_int r = Some u
          /\ addr = best_address r
          /\ sc = row_score norm_query r
          /\ (threshold <= sc)%Q
          /\ forall r', r' ∈ cur -> is_Some (uprn_int r') ->
               (threshold <= row_score norm_query r')%Q ->
               (row_score norm_query r' <= sc)%Q)
  /\ ((exists r, r ∈ cur /\ eligible threshold norm_query r) ->
      is_Some (scan_rows threshold norm_query None cur)).
Proof.
  split; [apply scan_rows_filter|]. split.
  - intros u addr sc. apply scan_rows_selected.
  - intros (r & Hr & Hok).
    destruct (scan_rows_spec threshold norm_query cur None) as
      [[_ Hall]|(pre & r0 & post & u' & _ & _ & _ & E & _)].
    + by destruct (Hall r Hr Hok) as (b & ? & _).
    + rewrite E. eauto.
Qed.

Lemma blank_row_score (q : str) (row : epc_row) :
  Address.normalise q = [] -> has_blank_column row -> row_score q row = 1%Q.
Proof.
  intros Hq Hb. apply row_score_is_1. apply Qle_antisym; [apply row_score_le_1|].
  pose proof (row_score_cases q row) as H.
  destruct row as [[[[u a1] a2] a3] af]. destruct H as [_ H].
  unfold has_blank_column in Hb.
  repeat (apply Forall_cons in H as [? H]).
  repeat (apply Exists_cons in Hb as [Hb|Hb];
          [by rewrite <- (similarity_blank _ q Hb Hq)|]).
  by apply Exists_nil in Hb.
Qed.

Lemma nonblank_row_score (q : str) (row : epc_row) :
  Address.normalise q = [] -> ~ has_blank_column row -> row_score q row = 0%Q.
Proof.
  intros Hq Hb.
  pose proof (row_score_cases q row) as H.
  destruct row as [[[[u a1] a2] a3] af]. destruct H as [H _].
  unfold has_blank_column in Hb.
  rewrite !Exists_cons, Exists_nil in Hb.
  rewrite !(similarity_blank_query _ q) in H by tauto.
  rewrite !elem_of_cons, elem_of_nil in H. tauto.
Qed.

(** With a blank query, the rows that come before the first row that has
    a blank column and parses leave the best score below 1. *)
Lemma scan_rows_blank_prefix (threshold : Q) (q : str) (rest pre : list epc_row) :
  Address.normalise q = [] ->
  (forall r, r ∈ pre -> ~ (has_blank_column r /\ is_Some (uprn_int r))) ->
  forall best,
    (forall b, best = Some b -> (b.2 < 1)%Q) ->
    exists best',
      scan_rows threshold q best (pre ++ rest) = scan_rows threshold q best' rest
      /\ forall b, best' = Some b -> (b.2 < 1)%Q.
Proof.
  intros Hq. induction pre as [|row pre IH]; intros Hpre best Hbest.
  { by exists best. }
  assert (forall r, r ∈ pre -> ~ (has_blank_column r /\ is_Some (uprn_int r))) as Hpre'.
  { intros r Hr. apply Hpre. by right. }
  simpl. destruct (_ && _); [|by apply IH].
  destruct (uprn_int row) as [u|] eqn:Hu; [|by apply IH].
  assert (row_score q row = 0%Q) as ->.
  { apply nonblank_row_score; [done|]. intros Hb. apply (Hpre row); [by left|].
    split; [done|]. rewrite Hu. eauto. }
  simpl. apply IH; [done|]. by intros b [= <-].
Qed.

(** C10, as the code has it.  Two strings that both normalise to the
    empty string have similarity 1.0.  With an address line that normalises
    to the empty string and a threshold of at most 1.0, a row that has a NULL
    or blank address column scores 1.0, and the scan stops at the first such
    row whose UPRN parses: it is the result of the loop, and of
    [_lookup_uprn], whatever rows follow. *)
Theorem C10_blank_query_stops_at_first_parsing_blank_row
    (threshold : Q) (address_line : str) :
  (forall x y, Address.normalise x = [] -> Address.normalise y = [] ->
     Address.similarity x y = 1%Q)
  /\ (Address.normalise address_line = [] ->
      (threshold <= 1)%Q ->
      forall pre row post u,
        has_blank_column row ->
        uprn_int row = Some u ->
        (forall r, r ∈ pre -> ~ (has_blank_column r /\ is_Some (uprn_int r))) ->
        row_score (Address.normalise address_line) row = 1%Q
        /\ scan_rows threshold (Address.normalise address_line) None (pre ++ row :: post)
           = Some (u, best_address row, 1%Q)
        /\ forall w pc st st1,
             execute w _epc_pool (Select_epc pc) st = (inr (pre ++ row :: post), st1) ->
             _lookup_uprn w {| _threshold := threshold |} pc address_line st
             = (inr (u, best_address row, 1%Q), st1)).
Proof.
  split; [apply similarity_blank|].
  intros Hq Hth pre row post u Hb Hu Hpre.
  assert (Address.normalise (Address.normalise address_line) = []) as Hq'
    by by rewrite Hq.
  pose proof (blank_row_score _ row Hq' Hb) as Hs.
  assert (scan_rows threshold (Address.normalise address_line) None (pre ++ row :: post)
          = Some (u, best_address row, 1%Q)) as Hscan.
  { destruct (scan_rows_blank_prefix threshold (Address.normalise address_line)
                (row :: post) pre Hq' Hpre None) as (best & -> & Hbest); [done|].
    cbn [scan_rows]. rewrite Hs, Hu.
    apply Qle_bool_iff in Hth. rewrite Hth. simpl.
    destruct best as [b|]; [|done].
    specialize (Hbest b eq_refl). apply Qlt_bool_iff in Hbest. by rewrite Hbest. }
  split; [done|]. split; [done|].
  intros w pc st st1 Hexec. unfold _lookup_uprn, bind. rewrite Hexec.
  cbn [_threshold]. by rewrite Hscan.
Qed.

(** C3, as the code has it.  The matched address of a result comes from
    the selected row of the address query: it is the full-address column
    when that column is not empty; otherwise it is the column [address1]
    when that one is not empty; otherwise it is the empty string.  The
    columns [address2] and [address3] never supply it. *)
Theorem C3_matched_address_is_full_address_else_address1
    (w : world) (self : UKGeolocate) (postcode_raw address_line : str)
    (st st' : state) (res : LookupResult) :
  find_coordinates w self postcode_raw address_line st = (inr res, st') ->
  exists pc cur st1 uprn_str addr1 addr2 addr3 addr_full,
    Postcode.normalise postcode_raw = inr pc
    /\ execute w _epc_pool (Select_epc pc) st = (inr cur, st1)
    /\ (uprn_str, addr1, addr2, addr3, addr_full) ∈ cur
    /\ uprn_str ≫= Py.int = Some (uprn res)
    /\ match_score res
       = row_score (Address.normalise address_line)
           (uprn_str, addr1, addr2, addr3, addr_full)
    /\ matched_address res
       = (if Py.truthy addr_full then Py.or_empty addr_full
          else if Py.truthy addr1 then Py.or_empty addr1
          else []).
Proof.
  intros H. unfold find_coordinates, bind, lift in H.
  destruct (Postcode.normalise postcode_raw) as [e|pc] eqn:Hpc; [done|].
  unfold _lookup_uprn, bind in H.
  destruct (execute w _epc_pool (Select_epc pc) st) as [[e|cur] st1] eqn:Hq; [done|].
  destruct (scan_rows _ _ None cur) as [[[u addr] sc]|] eqn:Hscan; [|done].
  destruct (scan_rows_selected _ _ _ u addr sc Hscan)
    as (r & Hr & Hu & Haddr & Hsc & _).
  destruct r as [[[[uprn_str addr1] addr2] addr3] addr_full].
  unfold ret at 1 in H. unfold _lookup_coordinates, bind in H.
  destruct (execute w _os_pool (Select_uprns u) st1) as [[e|rows] st2]; [done|].
  destruct rows as [|[[[x y] lat] lon] rows]; [done|].
  unfold ret in H. injection H as <- <-.
  exists pc, cur, st1, uprn_str, addr1, addr2, addr3, addr_full.
  repeat split; done.
Qed.

(** ** The claims on concrete data *)

(** C4.  [normalise] is not idempotent on every valid postcode: the
    pattern accepts any whitespace character between the two halves, but
    only spaces are removed before the single space is inserted.  With a TAB
    the result keeps the TAB before the space, and normalising it again
    raises [PostcodeInvalid]. *)
Theorem C4_tab_separated_postcode_is_not_a_fixed_point :
  Postcode.validate tabbed_postcode = true
  /\ Postcode.normalise tabbed_postcode = inr tabbed_postcode_normalised
  /\ Postcode.normalise tabbed_postcode_normalised
     = inl (PostcodeInvalid tabbed_postcode_normalised).
Proof. repeat split; vm_compute; reflexivity. Qed.

(** Counterexample to C1 as stated: on the test database, for the query
    [12 Downing Street], the row of number 12 meets the threshold with the
    highest score, 1.0, and is not the one selected, because its UPRN does
    not parse; the row of number 10 is selected, with 16/17.  So the selected
    row does not have the highest score among the rows that meet the
    threshold. *)
Lemma C1_counterexample :
  scan_rows _DEFAULT_THRESHOLD (Address.normalise (s "12 Downing Street")) None
    downing_street_rows
  = Some (100023336956%Z, s "10, DOWNING STREET, LONDON", 16 # 17)
  /\ row_12 ∈ downing_street_rows
  /\ row_score (Address.normalise (s "12 Downing Street")) row_12 = 1%Q
  /\ ~ (forall r, r ∈ downing_street_rows ->
         (_DEFAULT_THRESHOLD <= row_score (Address.normalise (s "12 Downing Street")) r)%Q ->
         (row_score (Address.normalise (s "12 Downing Street")) r <= 16 # 17)%Q).
Proof.
  assert (row_12 ∈ downing_street_rows) as Hin.
  { vm_compute. apply list_elem_of_further, list_elem_of_further, list_elem_of_here. }
  assert (row_score (Address.normalise (s "12 Downing Street")) row_12 = 1%Q) as Hs
    by (vm_compute; reflexivity).
  split; [vm_compute; reflexivity|]. split; [exact Hin|]. split; [exact Hs|].
  intros H. specialize (H row_12 Hin). rewrite Hs in H.
  assert (1 <= 16 # 17)%Q as Habs by (apply H; vm_compute; discriminate).
  vm_compute in Habs. by apply Habs.
Qed.

Lemma C1_witness :
  scan_rows _DEFAULT_THRESHOLD (s "10 DOWNING STREET") None [row_10; row_12]
  = Some (100023336956%Z, best_address row_10, row_score (s "10 DOWNING STREET") row_10).
Proof.
  assert (row_score (s "10 DOWNING STREET") row_10 = 1%Q) as E
    by (vm_compute; reflexivity).
  apply (proj2 (proj2 (C1_first_highest_eligible_row_is_selected _DEFAULT_THRESHOLD
                         (s "10 DOWNING STREET") [])) None row_10 [row_12]);
    [rewrite E; vm_compute; discriminate|by intros b [=]|reflexivity|by rewrite E].
Defined.

Lemma C2_witness :
  scan_rows _DEFAULT_THRESHOLD (s "12 DOWNING STREET") None downing_street_rows
  = scan_rows _DEFAULT_THRESHOLD (s "12 DOWNING STREET") None
      (filter (fun r => is_Some (uprn_int r)) downing_street_rows).
Proof.
  exact (proj1 (C2_unparseable_uprn_rows_are_skipped _DEFAULT_THRESHOLD
                  (s "12 DOWNING STREET") downing_street_rows)).
Defined.

(** Counterexample to C3 as stated: a row whose full address and first
    address line are empty and whose second address line is [FLAT 2] is
    matched through that line, and the matched address of the result is the
    empty string, not [FLAT 2], the first alternate column that is not
    empty. *)
Lemma C3_counterexample :
  (find_coordinates flat_world client (s "sw1a2aa") (s "Flat 2") flat_state).1
  = inr flat_2_result
  /\ map epc_select (db_epc_addresses flat_epc_db) = [row_flat_2]
  /\ matched_address flat_2_result = []
  /\ first_available_address row_flat_2 = s "FLAT 2"
  /\ matched_address flat_2_result <> first_available_address row_flat_2.
Proof. repeat split; try (vm_compute; reflexivity). vm_compute. discriminate. Qed.

Lemma C3_witness :
  find_coordinates test_world client (s "SW1A 2AA") (s "10 Downing Street") client_state
  = (inr downing_10_result, advance 2 client_state)
  /\ exists addr1 addr_full,
       matched_address downing_10_result
       = (if Py.truthy addr_full then Py.or_empty addr_full
          else if Py.truthy addr1 then Py.or_empty addr1
          else []).
Proof.
  assert (find_coordinates test_world client (s "SW1A 2AA") (s "10 Downing Street")
            client_state = (inr downing_10_result, advance 2 client_state)) as E
    by (vm_compute; reflexivity).
  split; [exact E|].
  destruct (C3_matched_address_is_full_address_else_address1 test_world client
              (s "SW1A 2AA") (s "10 Downing Street") client_state
              (advance 2 client_state) downing_10_result E)
    as (pc & cur & st1 & u & a1 & a2 & a3 & af & _ & _ & _ & _ & _ & H).
  by exists a1, af.
Defined.

Lemma C5_witness :
  get_connection stale_world _epc_pool open_state
  = (inr (Some (Connection epc_path)), open_state)
  /\ conn_execute stale_world (Connection epc_path) Select_tables open_state
     = (inl (OperationalError (s "disk I/O error")), advance 1 open_state)
  /\ execute stale_world _epc_pool Select_tables open_state
     = (inl (DatabaseNotFound epc_path (s "EPC")),
        {| now := 7;
           epc_pool := {| _path := epc_path; _name := s "EPC"; _conn := None |};
           os_pool := no_pool |})
  /\ execute faulty_world _epc_pool Select_tables open_state
     = (inl (OperationalError (s "disk I/O error")), advance 2 open_state).
Proof.
  split; [reflexivity|]. split; [reflexivity|]. split.
  - exact (proj1 (C5_execute_reclassifies_only_missing_file stale_world _epc_pool
                    Select_tables open_state open_state (advance 1 open_state)
                    (Connection epc_path) (OperationalError (s "disk I/O error"))
                    eq_refl eq_refl)).
  - exact (proj1 (C5_execute_reclassifies_only_missing_file faulty_world _epc_pool
                    Select_tables open_state open_state (advance 1 open_state)
                    (Connection epc_path) (OperationalError (s "disk I/O error"))
                    eq_refl eq_refl)).
Defined.

Lemma C6_witness :
  is_file world_without_epc (now boot) epc_path = false
  /\ __init__ world_without_epc epc_path os_path _DEFAULT_THRESHOLD boot
     = (inl (DatabaseNotFound epc_path (s "EPC")),
        advance 1 (fresh_pools epc_path os_path boot)).
Proof.
  split; [reflexivity|].
  exact (proj1 (C6_construction_validates_eagerly world_without_epc epc_path os_path
                  _DEFAULT_THRESHOLD boot) eq_refl).
Defined.

(** The excerpt has the entries of the Basic Latin block. *)
Lemma latin_and_kelvin_basic_latin : basic_latin latin_and_kelvin.
Proof.
  intros c Hc. simpl. split; [done|]. split; [|done].
  destruct ((65 <=? c) && (c <=? 90))%N; [done|].
  destruct (N.eqb_spec c KELVIN_SIGN) as [->|]; [done|done].
Qed.

(** Counterexample to C7 as stated: [lower] turns the Kelvin sign U+212A
    into [k], whose upper case [K] is another character than the sign, which
    is its own upper case.  So the text made of the sign scores 1.0 against
    itself and 0.0 once its case is lowered: the score is not invariant
    under every change of case. *)
Lemma C7_counterexample :
  Unicode.lower latin_and_kelvin [KELVIN_SIGN] = [107%N]
  /\ Unicode.similarity latin_and_kelvin [KELVIN_SIGN] [KELVIN_SIGN] = 1%Q
  /\ Unicode.similarity latin_and_kelvin
       (Unicode.lower latin_and_kelvin [KELVIN_SIGN]) [KELVIN_SIGN] = 0%Q.
Proof. vm_compute. repeat split. Qed.

Lemma C7_witness :
  basic_latin latin_and_kelvin
  /\ letters_changed (of_str (s "Downing St")) (of_str (s "DOWNING st"))
  /\ Unicode.similarity latin_and_kelvin (of_str (s "DOWNING st"))
       (of_str (s "10 Downing Street"))
     = Unicode.similarity latin_and_kelvin (of_str (s "Downing St"))
         (of_str (s "10 Downing Street")).
Proof.
  assert (letters_changed (of_str (s "Downing St")) (of_str (s "DOWNING st"))) as H.
  { repeat (constructor; [vm_compute; intuition (first [lia|discriminate|reflexivity])|]).
    constructor. }
  split; [exact latin_and_kelvin_basic_latin|]. split; [exact H|].
  exact (proj1 (proj1 (proj2 (proj2 (proj2
           (C7_similarity_reflexive_bounded_upper_case_invariant latin_and_kelvin
              latin_and_kelvin_basic_latin))))
           (of_str (s "Downing St")) (of_str (s "DOWNING st"))
           (of_str (s "10 Downing Street")) H)).
Defined.

Lemma C8_witness :
  ~ Postcode.grammar (s "INVALID")
  /\ Postcode.validate (s "INVALID") = false
  /\ Postcode.normalise (s "INVALID") = inl (PostcodeInvalid (s "INVALID")).
Proof.
  assert (~ Postcode.grammar (s "INVALID")) as H.
  { intros H. apply validate_grammar in H. vm_compute in H. discriminate. }
  split; [exact H|]. exact (C8_invalid_postcode_carries_input (s "INVALID") H).
Defined.

Lemma C9_witness :
  driver_never_says_ok test_world
  /\ health_check test_world client_state
     = (inr {| healthy := true; epc_db := s "ok"; os_db := s "ok" |},
        advance 2 client_state)
  /\ exists status,
       health_check test_world client_state
       = (inr status,
          (validate_tables test_world _os_pool [s "uprns"]
             (validate_tables test_world _epc_pool [s "epc_addresses"] client_state).2).2)
       /\ (epc_db status = s "ok" -> os_db status = s "ok" -> healthy status = true).
Proof.
  assert (driver_never_says_ok test_world) as Hd by (intros t path e [=]).
  split; [exact Hd|]. split; [vm_compute; reflexivity|].
  destruct (C9_health_check_never_raises test_world client_state)
    as (status & H & _ & _ & _ & _ & Hok).
  exists status. split; [exact H|exact (Hok Hd)].
Defined.

(** Counterexample to C10 as stated: with an empty address line the first
    row that has a blank column is the row of number 12, whose UPRN does not
    parse; the lookup does not stop there: the row that follows decides the
    result, which is the row of number 10. *)
Lemma C10_counterexample :
  Address.normalise [] = []
  /\ has_blank_column row_12
  /\ row_score (Address.normalise []) row_12 = 1%Q
  /\ scan_rows _DEFAULT_THRESHOLD (Address.normalise []) None [row_12; row_10]
     = Some (100023336956%Z, s "10, DOWNING STREET, LONDON", 1%Q)
  /\ scan_rows _DEFAULT_THRESHOLD (Address.normalise []) None [row_12; row_10]
     <> scan_rows _DEFAULT_THRESHOLD (Address.normalise []) None [row_12].
Proof.
  split; [reflexivity|]. split; [|split; [|split]].
  - cbv beta iota zeta delta [has_blank_column row_12].
    apply Exists_cons_tl, Exists_cons_hd. reflexivity.
  - vm_compute. reflexivity.
  - vm_compute. reflexivity.
  - vm_compute. discriminate.
Qed.

Lemma C10_witness :
  row_score (Address.normalise []) row_10 = 1%Q
  /\ scan_rows _DEFAULT_THRESHOLD (Address.normalise []) None
       ([row_12] ++ row_10 :: downing_street_rows)
     = Some (100023336956%Z, best_address row_10, 1%Q).
Proof.
  pose proof (proj2 (C10_blank_query_stops_at_first_parsing_blank_row
                       _DEFAULT_THRESHOLD [])
                eq_refl ltac:(vm_compute; discriminate)
                [row_12] row_10 downing_street_rows 100023336956%Z) as H.
  destruct H as (H1 & H2 & _).
  - cbv beta iota zeta delta [has_blank_column row_10].
    apply Exists_cons_tl, Exists_cons_hd. reflexivity.
  - reflexivity.
  - intros r Hr [_ [u Hu]]. apply list_elem_of_singleton in Hr. subst r.
    vm_compute in Hu. discriminate.
  - split; [exact H1|exact H2].
Defined.

(** ** Trimming *)

Lemma lstrip_with_head (p : ascii -> bool) (x : str) (c : ascii) (r : str) :
  Py.lstrip_with p x = c :: r -> p c = false.
Proof.
  induction x as [|d x IH]; simpl; [done|].
  destruct (p d) eqn:E; [done|]. by intros [= <- _].
Qed.

Lemma lstrip_with_all (p : ascii -> bool) (ws : str) (x : str) :
  Forall (fun c => p c = true) ws -> Py.lstrip_with p (ws ++ x) = Py.lstrip_with p x.
Proof. induction 1 as [|c ws Hc _ IH]; simpl; [done|]. by rewrite Hc. Qed.

Lemma lstrip_with_app (p : ascii -> bool) (x y : str) :
  Py.lstrip_with p (x ++ y)
  = match Py.lstrip_with p x with
    | [] => Py.lstrip_with p y
    | _ :: _ => Py.lstrip_with p x ++ y
    end.
Proof.
  induction x as [|c x IH]; simpl; [by destruct (Py.lstrip_with p y)|].
  by destruct (p c).
Qed.

Lemma lstrip_with_map (p : ascii -> bool) (f : ascii -> ascii) (x : str) :
  (forall c, p (f c) = p c) ->
  Py.lstrip_with p (map f x) = map f (Py.lstrip_with p x).
Proof.
  intros Hf. induction x as [|c x IH]; simpl; [done|].
  rewrite Hf. by destruct (p c).
Qed.

Lemma strip_with_map (p : ascii -> bool) (f : ascii -> ascii) (x : str) :
  (forall c, p (f c) = p c) ->
  Py.strip_with p (map f x) = map f (Py.strip_with p x).
Proof.
  intros Hf. unfold Py.strip_with, Py.rstrip_with.
  by rewrite lstrip_with_map, <- map_rev, lstrip_with_map, map_rev.
Qed.

(** Whitespace around a text does not reach the trimmed text. *)
Lemma strip_with_surrounded (p : ascii -> bool) (ws1 x ws2 : str) :
  Forall (fun c => p c = true) ws1 -> Forall (fun c => p c = true) ws2 ->
  Py.strip_with p (ws1 ++ x ++ ws2) = Py.strip_with p x.
Proof.
  intros H1 H2. unfold Py.strip_with, Py.rstrip_with.
  rewrite lstrip_with_all by done. rewrite lstrip_with_app.
  destruct (Py.lstrip_with p x) as [|c r] eqn:E.
  - assert (Py.lstrip_with p ws2 = []) as ->; [|done].
    by rewrite <- (app_nil_r ws2), lstrip_with_all.
  - rewrite rev_app_distr, lstrip_with_all; [done|]. by apply Forall_rev.
Qed.

(** A trimmed text neither starts nor ends with a character to trim, and
    trimming it again changes nothing. *)
Lemma strip_with_ends (p : ascii -> bool) (x : str) :
  (forall c r, Py.strip_with p x = c :: r -> p c = false)
  /\ (forall r c, Py.strip_with p x = r ++ [c] -> p c = false)
  /\ Py.strip_with p (Py.strip_with p x) = Py.strip_with p x.
Proof.
  unfold Py.strip_with, Py.rstrip_with.
  set (y := Py.lstrip_with p x).
  assert (forall r c, rev (Py.lstrip_with p (rev y)) = r ++ [c] -> p c = false) as Hlast.
  { intros r c H. apply (f_equal (@rev _)) in H.
    rewrite rev_involutive, rev_app_distr in H. simpl in H.
    by apply lstrip_with_head in H. }
  assert (forall c r, rev (Py.lstrip_with p (rev y)) = c :: r -> p c = false) as Hfirst.
  { intros c r H.
    destruct (Py.lstrip_with p (rev y)) as [|d z] eqn:E; [done|].
    (* the trimmed text is a prefix of [y], which starts with [c] *)
    assert (exists k, rev y = k ++ d :: z) as [k Hk].
    { clear -E. induction (rev y) as [|e l IH]; simpl in E; [done|].
      destruct (p e).
      - destruct (IH E) as [k ->]. by exists (e :: k).
      - exists []. by rewrite <- E. }
    apply (f_equal (@rev _)) in Hk. rewrite rev_involutive, rev_app_distr in Hk.
    rewrite H in Hk. simpl in Hk.
    subst y. by apply lstrip_with_head in Hk. }
  split; [done|]. split; [done|].
  destruct (rev (Py.lstrip_with p (rev y))) as [|c r] eqn:E; [done|].
  assert (Py.lstrip_with p (c :: r) = c :: r) as ->.
  { simpl. by rewrite (Hfirst c r eq_refl). }
  destruct (rev (c :: r)) as [|d z] eqn:E'.
  { apply (f_equal length) in E'. rewrite length_rev in E'. done. }
  assert (p d = false) as Hd.
  { apply (Hlast (rev z) d). apply (f_equal (@rev _)) in E'.
    rewrite rev_involutive in E'. by rewrite E'. }
  simpl. rewrite Hd. by rewrite <- E', rev_involutive.
Qed.

(** A text that neither starts nor ends with a character to trim is its
    own trimmed text. *)
Lemma strip_with_fixed (p : ascii -> bool) (c : ascii) (r : str) (d : ascii) :
  p c = false -> last (c :: r) = Some d -> p d = false ->
  Py.strip_with p (c :: r) = c :: r.
Proof.
  intros Hc Hl Hd. unfold Py.strip_with, Py.rstrip_with. cbn [Py.lstrip_with]. rewrite Hc.
  destruct (c :: r) as [|e z _] eqn:E using rev_ind; [done|].
  rewrite last_snoc in Hl. injection Hl as ->.
  rewrite rev_app_distr. simpl. rewrite Hd. by rewrite <- (rev_involutive z) at 2.
Qed.

(** ** Address normalisation in general *)

Lemma split_from_space (cur : str) (w : ascii) (y : str) :
  Py.isspace w = true ->
  Py.split_from cur (w :: y) = closed_word cur ++ Py.split y.
Proof. intros Hw. simpl. rewrite Hw. by destruct cur. Qed.

Lemma split_from_nil (cur : str) : Py.split_from cur [] = closed_word cur.
Proof. by destruct cur. Qed.

(** What follows a prefix is read the same way whatever the prefix. *)
Lemma split_from_app (x y y' : str) :
  (forall cur, Py.split_from cur y = Py.split_from cur y') ->
  forall cur, Py.split_from cur (x ++ y) = Py.split_from cur (x ++ y').
Proof.
  intros H. induction x as [|c x IH]; intros cur; simpl; [done|].
  destruct (Py.isspace c); [destruct cur|]; by rewrite ?IH.
Qed.

Lemma split_from_word (w : str) (cur rest : str) :
  spaceless w ->
  Py.split_from cur (w ++ rest) = Py.split_from (rev w ++ cur) rest.
Proof.
  intros Hw. revert cur. induction Hw as [|c w Hc Hw IH]; intros cur; simpl; [done|].
  rewrite Hc, IH. by rewrite <- app_assoc.
Qed.

(** The words [split] returns are not empty, hold no whitespace, and are
    made of the characters of the text. *)
Lemma split_from_words (P : ascii -> Prop) (x : str) (cur : str) :
  Forall P cur -> Forall P x -> spaceless cur ->
  Forall (fun w => w <> [] /\ spaceless w /\ Forall P w) (Py.split_from cur x).
Proof.
  revert cur. induction x as [|c x IH]; intros cur Hcur Hx Hs; simpl.
  - destruct cur as [|d cur]; [constructor|]. constructor; [|constructor].
    split; [|split].
    + intros E. apply (f_equal length) in E. rewrite length_rev in E. done.
    + by apply Forall_rev.
    + by apply Forall_rev.
  - inversion Hx as [|? ? Hc Hx']; subst.
    destruct (Py.isspace c) eqn:Ec.
    + destruct cur as [|d cur].
      * apply IH; by try constructor.
      * constructor.
        { split; [|split].
          - intros E. apply (f_equal length) in E. rewrite length_rev in E. done.
          - by apply Forall_rev.
          - by apply Forall_rev. }
        apply IH; by try constructor.
    + apply IH; by try constructor.
Qed.

Lemma closed_word_rev (w : str) : w <> [] -> closed_word (rev w) = [w].
Proof.
  intros Hne. unfold closed_word. destruct (rev w) eqn:E.
  - apply (f_equal (@rev _)) in E. by rewrite rev_involutive in E.
  - by rewrite <- E, rev_involutive.
Qed.

(** Words joined by single spaces split into the same words. *)
Lemma split_join (ws : list str) :
  Forall (fun w => w <> [] /\ spaceless w) ws ->
  Py.split (Py.join (s " ") ws) = ws.
Proof.
  unfold Py.split.
  induction 1 as [|w ws [Hne Hw] Hws IH]; [done|].
  destruct ws as [|w' ws].
  - simpl. rewrite <- (app_nil_r w) at 1. rewrite split_from_word by done.
    by rewrite app_nil_r, split_from_nil, closed_word_rev.
  - change (Py.join (s " ") (w :: w' :: ws)) with (w ++ " "%char :: Py.join (s " ") (w' :: ws)).
    rewrite split_from_word by done. rewrite app_nil_r.
    rewrite split_from_space by done. unfold Py.split. rewrite IH.
    by rewrite closed_word_rev.
Qed.

Lemma upper_settled (x : str) : Forall settled x -> Py.upper x = x.
Proof. unfold Py.upper. induction 1 as [|c x [Hc _] _ IH]; simpl; by rewrite ?Hc, ?IH. Qed.

Lemma replace_settled (x : str) : Forall settled x -> Py.replace "," [] x = x.
Proof.
  unfold Py.replace. induction 1 as [|c x [_ Hc] _ IH]; simpl; [done|].
  rewrite IH. destruct (Ascii.eqb_spec c ","); done.
Qed.

Lemma join_Forall (P : ascii -> Prop) (ws : list str) :
  P " "%char -> Forall (Forall P) ws -> Forall P (Py.join (s " ") ws).
Proof.
  intros Hsp. induction 1 as [|w ws Hw Hws IH]; [constructor|].
  destruct ws as [|w' ws]; [done|].
  change (Py.join (s " ") (w :: w' :: ws)) with (w ++ " "%char :: Py.join (s " ") (w' :: ws)).
  apply Forall_app; split; [done|]. by constructor.
Qed.

Lemma replace_upper_settled (x : str) : Forall settled (Py.replace "," [] (Py.upper x)).
Proof.
  unfold Py.replace, Py.upper. induction x as [|c x IH]; simpl; [constructor|].
  destruct (Ascii.eqb_spec (Py.upper_char c) ","); simpl; [done|].
  constructor; [|done]. split; [apply upper_char_idempotent|done].
Qed.

Lemma words_spec (raw : str) :
  Forall (fun w => w <> [] /\ spaceless w /\ Forall settled w) (words raw).
Proof.
  apply split_from_words; [constructor|apply replace_upper_settled|constructor].
Qed.

Lemma address_normalise_idempotent (raw : str) :
  Address.normalise (Address.normalise raw) = Address.normalise raw.
Proof.
  unfold Address.normalise at 1. fold (words raw). unfold Address.normalise. fold (words raw).
  pose proof (words_spec raw) as Hw.
  assert (Forall settled (Py.join (s " ") (words raw))) as Hs.
  { apply join_Forall; [by split|]. eapply Forall_impl; [exact Hw|]. by intros w (_ & _ & H). }
  rewrite upper_settled, replace_settled by done.
  rewrite split_join; [done|]. eapply Forall_impl; [exact Hw|]. by intros w (? & ? & _).
Qed.

Lemma space_settled (w : ascii) : Py.isspace w = true -> Py.upper_char w = w /\ w <> ","%char.
Proof. destruct w as [[] [] [] [] [] [] [] []]; done. Qed.

Lemma prepare_app (x y : str) :
  Py.replace "," [] (Py.upper (x ++ y))
  = Py.replace "," [] (Py.upper x) ++ Py.replace "," [] (Py.upper y).
Proof. unfold Py.replace, Py.upper. by rewrite map_app, flat_map_app. Qed.

Lemma prepare_space (w : ascii) (y : str) :
  Py.isspace w = true ->
  Py.replace "," [] (Py.upper (w :: y)) = w :: Py.replace "," [] (Py.upper y).
Proof.
  intros Hw. destruct (space_settled w Hw) as [Hu Hc].
  unfold Py.replace, Py.upper. simpl. rewrite Hu.
  by destruct (Ascii.eqb_spec w ",").
Qed.

(** Words joined by single spaces start and end with a character that is
    not whitespace. *)
Lemma joined_words_ends (ws : list str) :
  Forall (fun w => w <> [] /\ spaceless w) ws -> ws <> [] ->
  exists c r d, Py.join (s " ") ws = c :: r /\ Py.isspace c = false
                /\ last (c :: r) = Some d /\ Py.isspace d = false.
Proof.
  induction 1 as [|w ws [Hne Hw] Hws IH]; [done|]. intros _.
  assert (exists c r d, w = c :: r /\ Py.isspace c = false
                        /\ last w = Some d /\ Py.isspace d = false) as (c & r & d & -> & Hc & Hl & Hd).
  { destruct w as [|c r]; [done|]. apply Forall_cons in Hw as [Hc Hr].
    destruct (last (c :: r)) as [d|] eqn:El.
    - exists c, r, d. repeat split; try done.
      apply last_Some_elem_of in El. rewrite Forall_forall in Hr.
      apply elem_of_cons in El as [->|El]; [done|by apply Hr].
    - by apply last_None in El. }
  destruct ws as [|w' ws].
  { exists c, r, d. by simpl. }
  destruct IH as (c' & r' & d' & E & Hc' & Hl' & Hd'); [done|].
  change (Py.join (s " ") ((c :: r) :: w' :: ws))
    with ((c :: r) ++ " "%char :: Py.join (s " ") (w' :: ws)).
  rewrite E. exists c, (r ++ " "%char :: c' :: r'), d'. repeat split; try done.
  rewrite app_comm_cons, last_app. rewrite (last_cons_cons " "%char), Hl'. done.
Qed.

Lemma joined_words_trimmed (ws : list str) :
  Forall (fun w => w <> [] /\ spaceless w) ws ->
  Py.strip (Py.join (s " ") ws) = Py.join (s " ") ws.
Proof.
  intros Hws. destruct ws as [|w ws]; [done|].
  destruct (joined_words_ends (w :: ws) Hws) as (c & r & d & -> & Hc & Hl & Hd); [done|].
  by apply (strip_with_fixed Py.isspace c r d).
Qed.

(** X1. What [address.normalise] returns is in normal form: normalising
    it again changes nothing; it is its own words joined by single spaces, so
    it has no whitespace at either end, no run of two whitespace characters
    and no whitespace other than the space; [upper] does not change it; and
    it holds no comma. *)
Theorem X1_address_normalise_is_canonical (raw : str) :
  let n := Address.normalise raw in
  Address.normalise n = n
  /\ Py.join (s " ") (Py.split n) = n
  /\ Py.strip n = n
  /\ Py.upper n = n
  /\ ","%char ∉ n.
Proof.
  intros n. subst n. split; [apply address_normalise_idempotent|].
  pose proof (words_spec raw) as Hw.
  assert (Forall settled (Address.normalise raw)) as Hs.
  { apply join_Forall; [by split|]. eapply Forall_impl; [exact Hw|]. by intros w (_ & _ & H). }
  split; [|split; [|split]].
  - unfold Address.normalise. fold (words raw). rewrite split_join; [done|].
    eapply Forall_impl; [exact Hw|]. by intros w (? & ? & _).
  - apply joined_words_trimmed. eapply Forall_impl; [exact Hw|]. by intros w (? & ? & _).
  - by apply upper_settled.
  - intros Hin. rewrite Forall_forall in Hs. by destruct (Hs _ Hin).
Qed.

(** X2. [address.normalise] does not see how the words are spaced: a
    whitespace character next to another one can be dropped, any whitespace
    character can stand for any other, and whitespace at either end is
    ignored.  So no score depends on the spacing of the candidate or of the
    query. *)
Theorem X2_address_normalise_ignores_spacing (x y : str) (w w' : ascii) :
  Py.isspace w = true -> Py.isspace w' = true ->
  Address.normalise (x ++ w :: w' :: y) = Address.normalise (x ++ w :: y)
  /\ Address.normalise (x ++ w :: y) = Address.normalise (x ++ w' :: y)
  /\ Address.normalise (w :: x) = Address.normalise x
  /\ Address.normalise (x ++ [w]) = Address.normalise x
  /\ forall q,
       Address.similarity (x ++ w :: w' :: y) q = Address.similarity (x ++ w' :: y) q
       /\ Address.similarity q (x ++ w :: w' :: y) = Address.similarity q (x ++ w' :: y).
Proof.
  intros Hw Hw'.
  assert (Address.normalise (x ++ w :: w' :: y) = Address.normalise (x ++ w :: y)
          /\ Address.normalise (x ++ w :: y) = Address.normalise (x ++ w' :: y)
          /\ Address.normalise (w :: x) = Address.normalise x
          /\ Address.normalise (x ++ [w]) = Address.normalise x) as (H1 & H2 & H3 & H4).
  { unfold Address.normalise, Py.split.
    rewrite !prepare_app, !prepare_space by done.
    split; [|split; [|split]]; f_equal.
    - apply split_from_app. intros cur. rewrite !split_from_space by done.
      unfold Py.split. by rewrite split_from_space.
    - apply split_from_app. intros cur. by rewrite !split_from_space.
    - by rewrite split_from_space.
    - rewrite <- (app_nil_r (Py.replace _ _ (Py.upper x))) at 2.
      apply split_from_app. intros cur. by rewrite split_from_space, split_from_nil, app_nil_r. }
  split; [done|]. split; [done|]. split; [done|]. split; [done|].
  intros q. unfold Address.similarity. by rewrite H1, H2.
Qed.

(** ** The matcher finds matches only *)

Section DifflibSound.

Variables a b : str.

Lemma b2j_get_elem (c : ascii) (j : nat) :
  j ∈ Difflib.b2j_get b c -> b !!! j = c.
Proof.
  destruct (b2j_get_positions b c) as [-> | ->].
  - by intros ?%elem_of_nil.
  - intros [_ H]%positions_elem. rewrite Nat.sub_0_r in H.
    by apply list_lookup_total_correct.
Qed.

(** One row of the main loop: the lengths it keeps are lengths of runs of
    equal elements, and the best block is a match. *)
Lemma scan_row_sound (i blo bhi : nat) (j2len : gmap nat nat) (js : list nat) :
  (forall j k, j2len !! j = Some k -> run_ends a b i j k) ->
  (forall j, j ∈ js -> b !!! j = a !!! i) ->
  forall (newj2len : gmap nat nat) (best : Difflib.block),
    (forall j k, newj2len !! j = Some k -> run_ends a b (S i) j k) ->
    is_match a b best ->
    let r := Difflib.scan_row i blo bhi j2len js newj2len best in
    (forall j k, r.1 !! j = Some k -> run_ends a b (S i) j k) /\ is_match a b r.2.
Proof.
  intros Hold. induction js as [|j js IH]; intros Hjs newj2len best Hnew Hbest; simpl.
  { done. }
  assert (forall j', j' ∈ js -> b !!! j' = a !!! i) as Hjs'
    by (intros j' Hj'; apply Hjs; by right).
  destruct (j <? blo) eqn:E1; [by apply IH|].
  destruct (bhi <=? j) eqn:E2; [done|].
  assert (run_ends a b (S i) j (Difflib.j2lenget_pred j2len j + 1)) as Hrun.
  { assert (b !!! j = a !!! i) as Hj by (apply Hjs; by left).
    destruct j as [|j']; simpl.
    - split; [lia|]. split; [lia|]. intros t Ht.
      replace (S i - 1 - t) with i by lia. by replace (0 - t) with 0 by lia.
    - destruct (j2len !! j') as [k|] eqn:Ek; simpl.
      + destruct (Hold _ _ Ek) as (K1 & K2 & K3).
        split; [lia|]. split; [lia|]. intros t Ht.
        destruct t as [|t].
        { replace (S i - 1 - 0) with i by lia. by replace (S j' - 0) with (S j') by lia. }
        specialize (K3 t ltac:(lia)).
        replace (S i - 1 - S t) with (i - 1 - t) by lia.
        by replace (S j' - S t) with (j' - t) by lia.
      + split; [lia|]. split; [lia|]. intros t Ht.
        replace (S i - 1 - t) with i by lia. by replace (S j' - t) with (S j') by lia. }
  apply IH; [done| |].
  - intros j' k. rewrite lookup_insert. case_decide; [|by apply Hnew].
    subst j'. by intros [= <-].
  - destruct (Difflib.size best <? _); [|done].
    destruct Hrun as (K1 & K2 & K3).
    intros t Ht. unfold Difflib.size in Ht. simpl in *.
    set (k := Difflib.j2lenget_pred j2len j + 1) in *.
    specialize (K3 (k - 1 - t) ltac:(lia)).
    replace (i + 1 - k + t) with (S i - 1 - (k - 1 - t)) by lia.
    by replace (j + 1 - k + t) with (j - (k - 1 - t)) by lia.
Qed.

Lemma longest_indexed_sound_from (blo bhi : nat) (n i : nat)
    (st : gmap nat nat * Difflib.block) :
  (forall j k, st.1 !! j = Some k -> run_ends a b i j k) ->
  is_match a b st.2 ->
  is_match a b (foldl (Difflib.row_step a b blo bhi) st (seq i n)).2.
Proof.
  revert i st. induction n as [|n IH]; intros i st Hlen Hbest; simpl; [done|].
  pose proof (scan_row_sound i blo bhi st.1 (Difflib.b2j_get b (a !!! i)) Hlen
                (b2j_get_elem (a !!! i)) ∅ st.2) as Hrow.
  destruct Hrow as [H1 H2]; [|done|].
  { intros j k. by rewrite lookup_empty. }
  by apply (IH (S i) (Difflib.row_step a b blo bhi st i)).
Qed.

Lemma extend_back_sound (alo blo : nat) (besti bestj bestsize : nat) :
  is_match a b (besti, bestj, bestsize) ->
  is_match a b (Difflib.extend_back a b alo blo besti bestj bestsize).
Proof.
  revert bestj bestsize.
  induction besti as [|i IH]; intros bestj bestsize Hm; simpl; [done|].
  destruct bestj as [|j]; simpl; [done|].
  destruct ((alo <? S i) && (blo <? S j) && _) eqn:E; simpl; [|done].
  apply andb_prop in E as [_ E]. apply bool_decide_eq_true in E.
  apply IH. intros t Ht. unfold Difflib.size in Ht. simpl in *.
  destruct t as [|t]; [by rewrite !Nat.add_0_r|].
  specialize (Hm t ltac:(unfold Difflib.size; simpl; lia)). simpl in Hm.
  by replace (i + S t) with (S i + t) by lia; replace (j + S t) with (S j + t) by lia.
Qed.

Lemma extend_fwd_sound (gap bhi besti bestj bestsize : nat) :
  is_match a b (besti, bestj, bestsize) ->
  is_match a b (besti, bestj, Difflib.extend_fwd a b gap bhi besti bestj bestsize).
Proof.
  revert bestsize. induction gap as [|gap IH]; intros bestsize Hm; simpl; [done|].
  destruct ((bestj + bestsize <? bhi) && _) eqn:E; [|done].
  apply andb_prop in E as [_ E]. apply bool_decide_eq_true in E.
  apply IH. intros t Ht. unfold Difflib.size in Ht. simpl in *.
  destruct (decide (t = bestsize)) as [->|]; [done|].
  apply Hm. unfold Difflib.size; simpl. lia.
Qed.

(** What [find_longest_match] returns is a match. *)
Lemma find_longest_match_sound (alo ahi blo bhi : nat) :
  is_match a b (Difflib.find_longest_match a b alo ahi blo bhi).
Proof.
  unfold Difflib.find_longest_match, Difflib.longest_indexed.
  pose proof (longest_indexed_sound_from blo bhi (ahi - alo) alo (∅, (alo, blo, 0))) as H.
  simpl in H.
  destruct (foldl _ _ _) as [j2len [[bi bj] bs]]; simpl in *.
  pose proof (extend_back_sound alo blo bi bj bs) as H'.
  destruct (Difflib.extend_back a b alo blo bi bj bs) as [[bi' bj'] bs']; simpl in *.
  apply extend_fwd_sound, H', H.
  - intros j k. by rewrite lookup_empty.
  - intros t Ht. unfold Difflib.size in Ht; simpl in Ht. lia.
Qed.

End DifflibSound.

Section DifflibTight.

Variables a b : str.

Lemma region_cap_le (queue : list Difflib.region) :
  sum_list_with region_cap queue <= sum_list_with region_len_a queue
  /\ sum_list_with region_cap queue <= sum_list_with region_len_b queue.
Proof.
  induction queue as [|[[[alo ahi] blo] bhi] queue [IH1 IH2]]; simpl; lia.
Qed.

(** When the blocks found fill both sides of every pending region, each
    region has the same text on both sides. *)
Lemma blocks_loop_tight (fuel : nat) (queue : list Difflib.region) (acc : list Difflib.block) :
  Forall region_wf queue ->
  Difflib.queue_cost queue <= fuel ->
  let found := sum_list_with Difflib.size (Difflib.blocks_loop a b fuel queue acc) in
  found = sum_list_with Difflib.size acc + sum_list_with region_len_a queue ->
  found = sum_list_with Difflib.size acc + sum_list_with region_len_b queue ->
  Forall (region_equal a b) queue.
Proof.
  revert queue acc. induction fuel as [|fuel IH]; intros queue acc Hq Hfuel.
  { destruct queue as [|[[[alo ahi] blo] bhi] queue]; [constructor|].
    unfold Difflib.queue_cost in Hfuel; simpl in Hfuel. lia. }
  destruct queue as [|[[[alo ahi] blo] bhi] queue]; [constructor|].
  cbn [Difflib.blocks_loop].
  apply Forall_cons in Hq as [Hr Hq].
  pose proof (find_longest_match_bounds a b alo ahi blo bhi (proj1 Hr) (proj2 Hr)) as Hx.
  pose proof (find_longest_match_sound a b alo ahi blo bhi) as Hm.
  cbv zeta in Hx.
  unfold Difflib.queue_cost in Hfuel. cbn [sum_list_with] in Hfuel.
  destruct Hr as [Hr1 Hr2].
  pose proof (region_cap_le queue) as [Hc1 Hc2].
  destruct (0 <? Difflib.size _) eqn:E.
  - apply Nat.ltb_lt in E.
    pose proof (push_spec (alo, ahi, blo, bhi) _ queue Hx E Hq) as (P1 & P2 & P3).
    pose proof (blocks_loop_sum a b fuel _
                  (acc ++ [Difflib.find_longest_match a b alo ahi blo bhi]) P1) as Hsum.
    specialize (IH (Difflib.push (alo, ahi, blo, bhi)
                      (Difflib.find_longest_match a b alo ahi blo bhi) queue)
                   (acc ++ [Difflib.find_longest_match a b alo ahi blo bhi]) P1).
    destruct (Difflib.find_longest_match a b alo ahi blo bhi) as [[i j] k].
    cbv zeta in *. intros Ha Hb.
    rewrite sum_list_with_app in Hsum, IH. cbn [sum_list_with] in *.
    unfold Difflib.size, Difflib.push, Difflib.queue_cost, Difflib.region_cost in *.
    simpl in Hx, E, P2, P3, Hsum, IH, Hfuel.
    unfold is_match, Difflib.size in Hm. simpl in Hm.
    destruct ((alo <? i) && (blo <? j)) eqn:E1;
      destruct ((i + k <? ahi) && (j + k <? bhi)) eqn:E2;
      cbn [sum_list_with region_cap region_len_a region_len_b] in *;
      rewrite ?andb_true_iff, ?andb_false_iff, ?Nat.ltb_lt, ?Nat.ltb_ge in E1, E2;
      match type of IH with
      | _ -> _ -> _ -> ?G => assert G as IH' by (apply IH; lia)
      end;
      clear IH;
      repeat match goal with
             | H : Forall (region_equal _ _) (_ :: _) |- _ => apply Forall_cons in H as [? H]
             end;
      (constructor; [|done]);
      unfold region_equal in *;
      (split; [lia|]);
      intros t Ht;
      repeat match goal with
             | H : _ /\ (forall t, _ -> _ = _) |- _ => destruct H as [? ?]
             end;
      (destruct (decide (t < i - alo)) as [T1|T1];
        [first [lia | match goal with
                      | H : forall t, t < i - alo -> _ |- _ => by apply H
                      end]
        |destruct (decide (t < i - alo + k)) as [T2|T2];
         [specialize (Hm (t - (i - alo)) ltac:(lia));
          by replace (alo + t) with (i + (t - (i - alo))) by lia;
             replace (blo + t) with (j + (t - (i - alo))) by lia
         |first [lia | match goal with
                       | H : forall t, t < ahi - (i + k) -> _ |- _ =>
                           specialize (H (t - (i - alo + k)) ltac:(lia));
                           by replace (alo + t) with (i + k + (t - (i - alo + k))) by lia;
                              replace (blo + t) with (j + k + (t - (i - alo + k))) by lia
                       end]]]).
  - apply Nat.ltb_ge in E.
    pose proof (blocks_loop_sum a b fuel queue acc Hq) as Hsum.
    specialize (IH queue acc Hq).
    cbv zeta in *. intros Ha Hb. cbn [sum_list_with region_len_a region_len_b] in *.
    assert (1 <= Difflib.region_cost (alo, ahi, blo, bhi)) by (simpl; lia).
    constructor.
    + split; [lia|]. intros t Ht. lia.
    + apply IH; unfold Difflib.queue_cost; lia.
Qed.

End DifflibTight.

(** The ratio is 1 for equal sequences only. *)
Lemma ratio_1_inv (a b : str) : Difflib.ratio a b = 1%Q -> a = b.
Proof.
  unfold Difflib.ratio, Difflib._calculate_ratio.
  pose proof (matches_le a b) as Hle.
  pose proof (matches_of_blocks a b) as Hblocks.
  set (m := sum_list_with Difflib.size (Difflib.get_matching_blocks a b)) in *.
  destruct (0 <? length a + length b) eqn:E.
  - apply Nat.ltb_lt in E. intros H.
    assert (Z.of_nat (2 * m) # Pos.of_nat (length a + length b) == 1)%Q as Hq
      by (rewrite <- H; symmetry; apply Qred_correct).
    unfold Qeq in Hq. simpl in Hq.
    rewrite <- (positive_nat_Z (Pos.of_nat (length a + length b))) in Hq.
    rewrite Nat2Pos.id in Hq by lia.
    pose proof (blocks_loop_tight a b (Difflib.queue_cost [(0, length a, 0, length b)])
                  [(0, length a, 0, length b)] []) as Ht.
    cbv zeta in Ht. rewrite <- Hblocks in Ht.
    apply Forall_cons in Ht as [[Hlen Heq] _].
    + apply list_eq_same_length with (length a); [simpl in Hlen; lia|lia|].
      intros i x y Hi Hx Hy.
      specialize (Heq i ltac:(lia)). simpl in Heq.
      apply list_lookup_total_correct in Hx, Hy. congruence.
    + repeat constructor; simpl; lia.
    + done.
    + simpl. lia.
    + simpl. lia.
  - apply Nat.ltb_ge in E. intros _.
    destruct a, b; simpl in *; try lia. done.
Qed.

Lemma ratio_1_iff (a b : str) : Difflib.ratio a b = 1%Q <-> a = b.
Proof. split; [apply ratio_1_inv|intros ->; apply ratio_identical]. Qed.

Lemma similarity_1_iff (x y : str) :
  Address.similarity x y = 1%Q <-> Address.normalise x = Address.normalise y.
Proof. apply ratio_1_iff. Qed.

(** X3. [address.similarity] is 1.0 exactly when the two texts have the
    same normal form: the matcher reports a ratio of 1.0 for equal sequences
    and for no others. *)
Theorem X3_similarity_is_1_iff_normal_forms_agree (x y : str) :
  Address.similarity x y = 1%Q <-> Address.normalise x = Address.normalise y.
Proof. apply similarity_1_iff. Qed.

(** ** Scores of zero *)

Lemma b2j_get_short (b : str) (c : ascii) :
  length b < 200 -> Difflib.b2j_get b c = positions c 0 b.
Proof.
  intros Hlen. unfold Difflib.b2j_get, Difflib.b2j, Difflib.bpopular.
  destruct (200 <=? length b) eqn:E; [apply Nat.leb_le in E; lia|].
  pose proof (chain_positions c b 0 ∅) as H.
  fold (Difflib.b2j_all b) in H. rewrite lookup_empty in H. simpl in H.
  rewrite <- H.
  rewrite map_lookup_filter.
  destruct (Difflib.b2j_all b !! c) as [l|] eqn:El; simpl; [|done].
  case_guard as Hg; simpl in *; [done|]. set_solver.
Qed.

Section DifflibFound.

Variables a b : str.

Lemma scan_row_size (i blo bhi : nat) (j2len : gmap nat nat) (js : list nat)
    (newj2len : gmap nat nat) (best : Difflib.block) :
  Difflib.size best <= Difflib.size (Difflib.scan_row i blo bhi j2len js newj2len best).2.
Proof.
  revert newj2len best. induction js as [|j js IH]; intros newj2len best; simpl; [done|].
  destruct (j <? blo); [apply IH|].
  destruct (bhi <=? j); [done|].
  etrans; [|apply IH].
  destruct (Difflib.size best <? _) eqn:E; [|done].
  apply Nat.ltb_lt in E. unfold Difflib.size in *. simpl. lia.
Qed.

Lemma scan_row_found (i bhi : nat) (j2len : gmap nat nat) (j : nat) (js : list nat)
    (newj2len : gmap nat nat) (best : Difflib.block) :
  j < bhi ->
  1 <= Difflib.size (Difflib.scan_row i 0 bhi j2len (j :: js) newj2len best).2.
Proof.
  intros Hj. simpl.
  destruct (bhi <=? j) eqn:E; [apply Nat.leb_le in E; lia|].
  etrans; [|apply scan_row_size].
  destruct (Difflib.size best <? _) eqn:E'; unfold Difflib.size in *; simpl.
  - lia.
  - apply Nat.ltb_ge in E'. lia.
Qed.

Lemma rows_size (blo bhi : nat) (l : list nat) (st : gmap nat nat * Difflib.block) :
  Difflib.size st.2 <= Difflib.size (foldl (Difflib.row_step a b blo bhi) st l).2.
Proof.
  revert st. induction l as [|i l IH]; intros st; simpl; [done|].
  etrans; [|apply IH]. apply scan_row_size.
Qed.

Lemma rows_found (l : list nat) (st : gmap nat nat * Difflib.block) (i : nat) :
  i ∈ l -> a !!! i ∈ b -> length b < 200 ->
  1 <= Difflib.size (foldl (Difflib.row_step a b 0 (length b)) st l).2.
Proof.
  intros Hi Hin Hlen. revert st. induction l as [|i' l IH]; intros st; simpl.
  { by apply elem_of_nil in Hi. }
  apply elem_of_cons in Hi as [->|Hi]; [|by apply IH].
  etrans; [|apply rows_size].
  unfold Difflib.row_step. rewrite b2j_get_short by done.
  apply list_elem_of_lookup in Hin as [j Hj].
  assert (j ∈ positions (a !!! i') 0 b) as Hp
    by (apply positions_elem; split; [lia|by rewrite Nat.sub_0_r]).
  destruct (positions (a !!! i') 0 b) as [|j0 js] eqn:E; [by apply elem_of_nil in Hp|].
  apply scan_row_found.
  assert (j0 ∈ positions (a !!! i') 0 b) as Hp0 by (rewrite E; by left).
  apply positions_elem in Hp0 as [_ Hp0]. apply lookup_lt_Some in Hp0. lia.
Qed.

Lemma extend_back_size (alo blo besti bestj bestsize : nat) :
  bestsize <= Difflib.size (Difflib.extend_back a b alo blo besti bestj bestsize).
Proof.
  revert bestj bestsize.
  induction besti as [|i IH]; intros bestj bestsize; simpl; [done|].
  destruct bestj as [|j]; simpl; [done|].
  destruct ((alo <? S i) && (blo <? S j) && _); simpl; [|done].
  etrans; [|apply IH]. lia.
Qed.

(** With a common element and a short [b] the longest match is not empty. *)
Lemma find_longest_match_found (i : nat) :
  i < length a -> a !!! i ∈ b -> length b < 200 ->
  1 <= Difflib.size (Difflib.find_longest_match a b 0 (length a) 0 (length b)).
Proof.
  intros Hi Hin Hlen.
  unfold Difflib.find_longest_match, Difflib.longest_indexed.
  pose proof (rows_found (seq 0 (length a - 0)) (∅, (0, 0, 0)) i) as H.
  pose proof (longest_indexed_bounds_from a b 0 (length b) 0 (length a - 0) 0
                (∅, (0, 0, 0))) as Hb.
  simpl in Hb. destruct Hb as (B1 & B2 & B3 & B4); [lia| |lia|].
  { intros j k. by rewrite lookup_empty. }
  destruct (foldl _ _ _) as [j2len [[bi bj] bs]]; simpl in *.
  specialize (H ltac:(apply elem_of_seq; lia) Hin Hlen). unfold Difflib.size in H. simpl in H.
  pose proof (extend_back_spec a b 0 0 bi bj bs B1 B3) as H'.
  pose proof (extend_back_size 0 0 bi bj bs) as Hs.
  destruct (Difflib.extend_back a b 0 0 bi bj bs) as [[bi' bj'] bs']; simpl in *.
  unfold Difflib.size in Hs; simpl in Hs.
  pose proof (extend_fwd_spec a b (length a - (bi' + bs')) (length b) bi' bj' bs') as H''.
  simpl in H''. unfold Difflib.size. simpl. lia.
Qed.

Lemma blocks_loop_acc_le (fuel : nat) (queue : list Difflib.region) (acc : list Difflib.block) :
  sum_list_with Difflib.size acc
  <= sum_list_with Difflib.size (Difflib.blocks_loop a b fuel queue acc).
Proof.
  revert queue acc. induction fuel as [|fuel IH]; intros queue acc.
  { destruct queue as [|[[[? ?] ?] ?] ?]; simpl; lia. }
  destruct queue as [|[[[alo ahi] blo] bhi] queue]; [simpl; lia|].
  cbn [Difflib.blocks_loop].
  destruct (0 <? Difflib.size _).
  - etrans; [|apply IH]. rewrite sum_list_with_app. lia.
  - apply IH.
Qed.

(** Every block the loop finds is a match inside the two sequences. *)
Lemma blocks_loop_sound (fuel : nat) (queue : list Difflib.region) (acc : list Difflib.block) :
  Forall (inner_region a b) queue -> Forall (sound_block a b) acc ->
  Forall (sound_block a b) (Difflib.blocks_loop a b fuel queue acc).
Proof.
  revert queue acc. induction fuel as [|fuel IH]; intros queue acc Hq Hacc.
  { by destruct queue as [|[[[? ?] ?] ?] ?]. }
  destruct queue as [|[[[alo ahi] blo] bhi] queue]; [done|].
  cbn [Difflib.blocks_loop].
  apply Forall_cons in Hq as [(R1 & R2 & R3 & R4) Hq].
  pose proof (find_longest_match_bounds a b alo ahi blo bhi R1 R3) as Hx.
  pose proof (find_longest_match_sound a b alo ahi blo bhi) as Hm.
  cbv zeta in Hx.
  destruct (0 <? Difflib.size _) eqn:E; [|by apply IH].
  apply IH.
  - destruct (Difflib.find_longest_match a b alo ahi blo bhi) as [[i j] k]. simpl in Hx.
    unfold Difflib.push.
    destruct ((alo <? i) && (blo <? j)), ((i + k <? ahi) && (j + k <? bhi));
      repeat constructor; simpl; try done; lia.
  - apply Forall_app; split; [done|]. constructor; [|constructor].
    split; [done|]. unfold Difflib.size. lia.
Qed.

End DifflibFound.

(** Sequences that share no element have no matched element. *)
Lemma matches_0_disjoint (a b : str) :
  (forall c, c ∈ a -> c ∉ b) ->
  sum_list_with Difflib.size (Difflib.get_matching_blocks a b) = 0.
Proof.
  intros Hd. rewrite matches_of_blocks.
  assert (Forall (sound_block a b)
            (Difflib.blocks_loop a b (Difflib.queue_cost [(0, length a, 0, length b)])
               [(0, length a, 0, length b)] [])) as Hs.
  { apply blocks_loop_sound; repeat constructor; simpl; lia. }
  induction Hs as [|[[i j] k] l (Hm & Hi & Hj) _ IH]; [done|].
  - cbn [sum_list_with]. rewrite IH. unfold Difflib.size in *. simpl in *.
    destruct k as [|k]; [done|]. exfalso.
    specialize (Hm 0 ltac:(unfold Difflib.size; simpl; lia)). simpl in Hm.
    rewrite !Nat.add_0_r in Hm.
    apply (Hd (a !!! i)).
    + apply list_elem_of_lookup. exists i. apply list_lookup_lookup_total_lt. lia.
    + rewrite Hm. apply list_elem_of_lookup. exists j. apply list_lookup_lookup_total_lt. lia.
Qed.

(** A shared element is matched, when [b] is short enough for every
    element to be indexed. *)
Lemma matches_found (a b : str) (c : ascii) :
  length b < 200 -> c ∈ a -> c ∈ b ->
  1 <= sum_list_with Difflib.size (Difflib.get_matching_blocks a b).
Proof.
  intros Hlen Ha Hb. rewrite matches_of_blocks.
  apply list_elem_of_lookup in Ha as [i Hi].
  pose proof (lookup_lt_Some _ _ _ Hi) as Hlt.
  apply list_lookup_total_correct in Hi. subst c.
  pose proof (find_longest_match_found a b i Hlt Hb Hlen) as Hf.
  unfold Difflib.queue_cost. cbn [sum_list_with Difflib.region_cost].
  replace (2 * (length a - 0) + 1 + 0) with (S (2 * (length a - 0))) by lia.
  cbn [Difflib.blocks_loop].
  destruct (0 <? Difflib.size _) eqn:E; [|apply Nat.ltb_ge in E; lia].
  etrans; [|apply blocks_loop_acc_le]. simpl. lia.
Qed.

Lemma calculate_ratio_0 (m n : nat) :
  0 < n -> (Difflib._calculate_ratio m n = 0%Q <-> m = 0).
Proof.
  intros Hn. unfold Difflib._calculate_ratio.
  destruct (0 <? n) eqn:E; [|apply Nat.ltb_ge in E; lia].
  split.
  - intros H.
    assert (Z.of_nat (2 * m) # Pos.of_nat n == 0)%Q as Hq
      by (rewrite <- H; symmetry; apply Qred_correct).
    unfold Qeq in Hq. simpl in Hq. lia.
  - intros ->. simpl. by apply (Qred_complete (0 # Pos.of_nat n) 0).
Qed.

(** For a [b] shorter than 200 elements, the ratio is 0 exactly when the
    sequences are not both empty and share no element. *)
Lemma ratio_0_iff (a b : str) :
  length b < 200 ->
  Difflib.ratio a b = 0%Q <-> (a <> [] \/ b <> []) /\ forall c, c ∈ a -> c ∉ b.
Proof.
  intros Hlen. unfold Difflib.ratio.
  destruct (decide (a = [] /\ b = [])) as [[-> ->]|Hne].
  { split; [done|]. intros [[|] _]; done. }
  assert (0 < length a + length b) as Hpos.
  { destruct a, b; simpl; try lia. by destruct Hne. }
  rewrite calculate_ratio_0 by done. split.
  - intros H0. split.
    + destruct a; [|by left]. destruct b; [by destruct Hne|by right].
    + intros c Ha Hb. pose proof (matches_found a b c Hlen Ha Hb). lia.
  - intros [_ Hd]. by apply matches_0_disjoint.
Qed.

(** X4. For a query whose normal form is shorter than 200 characters,
    [address.similarity] is 0.0 exactly when the two normal forms are not
    both empty and have no character in common. *)
Theorem X4_similarity_is_0_iff_nothing_in_common (x y : str) :
  length (Address.normalise y) < 200 ->
  Address.similarity x y = 0%Q
  <-> (Address.normalise x <> [] \/ Address.normalise y <> [])
      /\ forall c, c ∈ Address.normalise x -> c ∉ Address.normalise y.
Proof. intros Hlen. by apply ratio_0_iff. Qed.

(** ** The store handle in general *)

Lemma run_query_error {A} (q : query A) (db : database) (e : exn) :
  run_query q db = inl e -> exists msg, e = OperationalError msg.
Proof. destruct q; simpl; try done; case_bool_decide; try done; intros [= <-]; eauto. Qed.

Section ExecuteFacts.

Variable w : world.

(** What [execute] does to the state, whatever it returns. *)
Lemma execute_effects {A} (self : pool_ref) (sql : query A) (st : state) :
  let r := execute w self sql st in
  _path (deref self r.2) = _path (deref self st)
  /\ _name (deref self r.2) = _name (deref self st)
  /\ deref (other self) r.2 = deref (other self) st
  /\ now st < now r.2 <= 5 + now st
  /\ (own_connection (deref self st) -> own_connection (deref self r.2))
  /\ (forall rows, r.1 = inr rows -> is_Some (_conn (deref self r.2))).
Proof.
  destruct st as [t ep op], self; run_pool.
  all: repeat (case_match; simplify_eq/=).
  all: repeat split; try done; try lia; eauto.
  all: try (intros Ho c [= <-]; simpl; done).
  all: try (intros Ho c' Hc'; by apply Ho).
Qed.

(** When [execute] returns rows. *)
Lemma execute_success {A} (self : pool_ref) (sql : query A) (st st' : state) (rows : A) :
  own_connection (deref self st) ->
  execute w self sql st = (inr rows, st') ->
  let path := _path (deref self st) in
  let t := now st' - 1 in
  now st <= t
  /\ fault w t path = None
  /\ run_query sql (content w t path) = inr rows
  /\ (_conn (deref self st) = None -> is_file w (now st) path = true)
  /\ exists c, _conn (deref self st') = Some c /\ conn_file c = path.
Proof.
  intros Ho H. cbv zeta.
  destruct st as [t ep op], self; run_pool.
  all: repeat (case_match; simplify_eq/=).
  all: try match goal with
           | H : _conn _ = Some _ |- _ => rewrite (Ho _ H) in *
           end.
  all: rewrite ?Nat.sub_0_r.
  all: repeat split; try done; try lia; eauto.
  all: try (intros _; by apply negb_false_iff).
Qed.

(** When [execute] raises. *)
Lemma execute_failure {A} (self : pool_ref) (sql : query A) (st st' : state) (e : exn) :
  execute w self sql st = (inl e, st') ->
  let p := deref self st in
  (e = DatabaseNotFound (_path p) (_name p)
   /\ _conn (deref self st') = None
   /\ is_file w (now st' - 1) (_path p) = false
   /\ now st <= now st' - 1)
  \/ (exists msg, e = OperationalError msg)
  \/ (exists msg, e = DriverError msg).
Proof.
  intros H. cbv zeta.
  destruct st as [t ep op], self; run_pool.
  all: repeat (case_match; simplify_eq/=).
  all: rewrite ?Nat.sub_0_r.
  all: try match goal with
           | H : run_query _ _ = inl _ |- _ => apply run_query_error in H as [? ?]; simplify_eq
           end.
  all: try match goal with
           | H : of_sqlite3 ?e = _ |- _ => destruct e; simplify_eq/=
           end.
  all: try match goal with
           | |- context [of_sqlite3 ?e] => destruct e; simpl
           end.
  all: eauto 6.
  all: try by (left; repeat split; try done; try lia; by apply negb_true_iff).
Qed.

(** The first query through a closed handle: the file is found, the
    connection opens, and the rows are those of the file. *)
Lemma execute_first_use {A} (self : pool_ref) (sql : query A) (st : state) (rows : A) :
  let path := _path (deref self st) in
  let t := now st in
  _conn (deref self st) = None ->
  is_file w t path = true ->
  fault w (1 + t) path = None -> fault w (2 + t) path = None ->
  fault w (3 + t) path = None ->
  run_query sql (content w (3 + t) path) = inr rows ->
  execute w self sql st = (inr rows, connected self (advance 4 st)).
Proof.
  cbv zeta. intros Hc Hf F1 F2 F3 Hq.
  destruct st as [t ep op], self; run_pool; rewrite Hc; simpl.
  all: by rewrite Hf; simpl; rewrite F1; simpl; rewrite F2; simpl; rewrite F3, Hq.
Qed.

(** A later query reuses the connection: one call of the driver, and no
    look at the file system. *)
Lemma execute_reuse {A} (self : pool_ref) (sql : query A) (st : state) (c : connection)
    (rows : A) :
  _conn (deref self st) = Some c ->
  fault w (now st) (conn_file c) = None ->
  run_query sql (content w (now st) (conn_file c)) = inr rows ->
  execute w self sql st = (inr rows, advance 1 st).
Proof.
  intros Hc F Hq.
  destruct st as [t ep op], self; run_pool; rewrite Hc; simpl.
  all: by rewrite F, Hq.
Qed.

End ExecuteFacts.

(** X10. [execute] raises only [DatabaseNotFound] with the path and the
    name of its handle, or an exception of the driver; it never raises
    [DatabaseInvalid], [PostcodeInvalid] or [NoMatchFound].  And when it
    raises [DatabaseNotFound] the last thing it did was to find that its path
    is not a file, and it leaves the handle without a connection. *)
Theorem X10_execute_raises_not_found_only_for_a_missing_file
    (w : world) {A} (self : pool_ref) (sql : query A) (st st' : state) (e : exn) :
  execute w self sql st = (inl e, st') ->
  let p := deref self st in
  (e = DatabaseNotFound (_path p) (_name p)
   /\ _conn (deref self st') = None
   /\ is_file w (now st' - 1) (_path p) = false
   /\ now st <= now st' - 1)
  \/ (exists msg, e = OperationalError msg)
  \/ (exists msg, e = DriverError msg).
Proof. apply execute_failure. Qed.

(** X11. Whatever [execute] returns, the handle keeps its path and its
    name, the other handle of the engine is not touched, and the environment
    has been consulted at least once and at most five times; a handle that
    held a connection to its own file, or none, still does; and after rows
    were returned the handle holds a connection. *)
Theorem X11_execute_keeps_the_handle_consistent
    (w : world) {A} (self : pool_ref) (sql : query A) (st : state) :
  let r := execute w self sql st in
  _path (deref self r.2) = _path (deref self st)
  /\ _name (deref self r.2) = _name (deref self st)
  /\ deref (other self) r.2 = deref (other self) st
  /\ now st < now r.2 <= 5 + now st
  /\ (own_connection (deref self st) -> own_connection (deref self r.2))
  /\ (forall rows, r.1 = inr rows -> is_Some (_conn (deref self r.2))).
Proof. apply execute_effects. Qed.

(** X12. The rows [execute] returns are those the statement selects from
    the file of the handle, as the file is at the instant of the last call of
    the driver; the handle then holds a connection to that file; and when the
    handle had no connection, its path was a file at the start.  Through a
    handle that already holds a connection, a statement the driver answers
    costs that one call and no look at the file system. *)
Theorem X12_execute_returns_the_rows_of_the_file
    (w : world) {A} (self : pool_ref) (sql : query A) (st st' : state) (rows : A) :
  own_connection (deref self st) ->
  execute w self sql st = (inr rows, st') ->
  let path := _path (deref self st) in
  let t := now st' - 1 in
  now st <= t
  /\ fault w t path = None
  /\ run_query sql (content w t path) = inr rows
  /\ (_conn (deref self st) = None -> is_file w (now st) path = true)
  /\ (exists c, _conn (deref self st') = Some c /\ conn_file c = path)
  /\ (is_Some (_conn (deref self st)) -> st' = advance 1 st).
Proof.
  intros Ho H.
  destruct (execute_success w self sql st st' rows Ho H) as (H1 & H2 & H3 & H4 & H5).
  cbv zeta. split_and!; try done.
  intros [c Hc]. cbv zeta in H2, H3.
  assert (now st' = S (now st)) as Hnow.
  { clear -Hc H. destruct st as [t ep op], self; run_pool; rewrite Hc in H; simpl in H.
    all: repeat (case_match; simplify_eq/=); done. }
  rewrite Hnow in H2, H3. simpl in H2, H3. rewrite Nat.sub_0_r in H2, H3.
  rewrite <- (Ho c Hc) in H2, H3.
  rewrite (execute_reuse w self sql st c rows Hc H2 H3) in H. by simplify_eq.
Qed.

(** X13. After [execute] raised [DatabaseNotFound] the handle is closed,
    and the next call looks for the file again: once the file is back and the
    driver answers, that call opens a new connection and returns the rows of
    the file. *)
Theorem X13_execute_reconnects_once_the_file_is_back
    (w : world) {A B} (self : pool_ref) (sql : query A) (sql' : query B)
    (st st1 : state) (p n : str) (rows : B) :
  execute w self sql st = (inl (DatabaseNotFound p n), st1) ->
  let t := now st1 in
  is_file w t p = true ->
  fault w (1 + t) p = None -> fault w (2 + t) p = None -> fault w (3 + t) p = None ->
  run_query sql' (content w (3 + t) p) = inr rows ->
  _conn (deref self st1) = None
  /\ execute w self sql' st1 = (inr rows, connected self (advance 4 st1)).
Proof.
  intros H. cbv zeta. intros Hf F1 F2 F3 Hq.
  pose proof (execute_effects w self sql st) as (Hp & _). rewrite H in Hp. simpl in Hp.
  destruct (execute_failure w self sql st st1 _ H) as [([= -> ->] & Hc & _)|[[? [=]]|[? [=]]]].
  split; [done|].
  apply execute_first_use; by rewrite ?Hp.
Qed.

(** ** Validation in general *)

Lemma ord_inj (c d : ascii) : Py.ord c = Py.ord d -> c = d.
Proof.
  unfold Py.ord. intros H. by rewrite <- (ascii_nat_embedding c), H, ascii_nat_embedding.
Qed.

(** The order of [sorted] on texts is total, transitive and
    antisymmetric. *)
#[global] Instance str_le_total : Total str_le.
Proof.
  intros x. unfold str_le. induction x as [|c x IH]; intros [|d y]; simpl; auto.
  destruct (Py.ord c <? Py.ord d) eqn:E1, (Py.ord d <? Py.ord c) eqn:E2; auto.
Qed.

#[global] Instance str_le_trans : Transitive str_le.
Proof.
  intros x. unfold str_le. induction x as [|c x IH]; intros [|d y] [|e z]; simpl; try done.
  destruct (Py.ord c <? Py.ord d) eqn:E1, (Py.ord d <? Py.ord c) eqn:E2,
           (Py.ord d <? Py.ord e) eqn:E3, (Py.ord e <? Py.ord d) eqn:E4,
           (Py.ord c <? Py.ord e) eqn:E5, (Py.ord e <? Py.ord c) eqn:E6;
    rewrite ?Nat.ltb_lt, ?Nat.ltb_ge in *; try done; try lia.
  apply IH.
Qed.

#[global] Instance str_le_antisym : AntiSymm eq str_le.
Proof.
  intros x. unfold str_le. induction x as [|c x IH]; intros [|d y]; simpl; try done.
  destruct (Py.ord c <? Py.ord d) eqn:E1, (Py.ord d <? Py.ord c) eqn:E2;
    rewrite ?Nat.ltb_lt, ?Nat.ltb_ge in *; try done; try lia.
  intros H1 H2. f_equal; [apply ord_inj; lia|by apply IH].
Qed.

(** X14. [validate_tables] runs one query for the table names.  What that
    query raises is what [validate_tables] raises.  Otherwise it returns when
    every expected table is among the names, and if not it raises
    [DatabaseInvalid] with the path of the handle and a detail that lists,
    after [missing tables: ] and separated by a comma and a space, exactly
    the expected tables that are absent, each once, in increasing order. *)
Theorem X14_validate_tables_lists_what_is_missing
    (w : world) (self : pool_ref) (expected : list str) (st : state) :
  match execute w self Select_tables st with
  | (inl e, st1) => validate_tables w self expected st = (inl e, st1)
  | (inr actual, st1) =>
      (expected ⊆ actual -> validate_tables w self expected st = (inr tt, st1))
      /\ (~ expected ⊆ actual ->
          exists names,
            validate_tables w self expected st
            = (inl (DatabaseInvalid (_path (deref self st))
                      (s "missing tables: " ++ Py.join (s ", ") names)), st1)
            /\ names <> []
            /\ (forall x, x ∈ names <-> x ∈ expected /\ x ∉ actual)
            /\ NoDup names
            /\ StronglySorted str_le names)
  end.
Proof.
  pose proof (execute_effects w self Select_tables st) as (Hp & _).
  unfold validate_tables, bind.
  destruct (execute w self Select_tables st) as [[e|actual] st1]; [done|].
  simpl in Hp.
  set (missing := remove_dups (filter (fun x => x ∉ actual) expected)).
  assert (forall x, x ∈ missing <-> x ∈ expected /\ x ∉ actual) as Hmiss.
  { intros x. unfold missing. rewrite elem_of_remove_dups, list_elem_of_filter. tauto. }
  split.
  - intros Hsub. destruct missing as [|x l] eqn:E; [done|].
    assert (x ∈ x :: l) as Hx by by left.
    apply Hmiss in Hx as [Hx1 Hx2]. by destruct Hx2; apply Hsub.
  - intros Hsub. exists (merge_sort str_le missing).
    destruct missing as [|x l] eqn:E.
    { destruct Hsub. intros x Hx. destruct (decide (x ∈ actual)) as [|Hn]; [done|].
      assert (x ∈ []) as Hin by (apply Hmiss; done). by apply elem_of_nil in Hin. }
    rewrite <- E in *. unfold get_self, raise. rewrite Hp.
    split; [|split; [|split; [|split]]].
    + by rewrite E.
    + intros Hnil. apply (f_equal length) in Hnil.
      rewrite (merge_sort_Permutation str_le missing), E in Hnil. done.
    + intros y. rewrite (merge_sort_Permutation str_le missing). apply Hmiss.
    + rewrite (merge_sort_Permutation str_le missing). apply NoDup_remove_dups.
    + apply StronglySorted_merge_sort; apply _.
Qed.

(** ** Closing *)

Lemma engine_close_closed (st : state) : engine_close st = (inr tt, closed st).
Proof.
  destruct st as [t [p1 n1 [c1|]] [p2 n2 [c2|]]]; reflexivity.
Qed.

(** X15. [UKGeolocate.close] never raises and does not consult the
    environment; it leaves both pools without a connection, with the paths
    and the names they had, which is how [__init__] creates them; closing
    again, or closing one pool again, changes nothing. *)
Theorem X15_close_resets_both_pools (st : state) :
  engine_close st = (inr tt, closed st)
  /\ engine_close (closed st) = (inr tt, closed st)
  /\ (forall self, close self (closed st) = (inr tt, closed st))
  /\ (forall self, _conn (deref self (closed st)) = None
                   /\ _path (deref self (closed st)) = _path (deref self st)
                   /\ _name (deref self (closed st)) = _name (deref self st))
  /\ forall epc_file os_file,
       closed (fresh_pools epc_file os_file st) = fresh_pools epc_file os_file st.
Proof.
  split; [apply engine_close_closed|]. split; [by rewrite engine_close_closed|].
  split; [by intros []|]. split; [by intros []|done].
Qed.

(** X16. An engine used as a context manager is closed when the block
    ends, whether the block returns or raises: the statement [with] gives
    what the block gave, value or exception, and leaves both pools without a
    connection. *)
Theorem X16_context_manager_always_closes
    {A} (engine : UKGeolocate) (body : UKGeolocate -> M A) (st : state) :
  let r := body engine st in
  with_ engine body st = (r.1, closed r.2)
  /\ _conn (epc_pool (with_ engine body st).2) = None
  /\ _conn (os_pool (with_ engine body st).2) = None.
Proof.
  cbv zeta. unfold with_, __enter__, __exit__, bind, ret, raise.
  destruct (body engine st) as [[e|x] st']; rewrite engine_close_closed; done.
Qed.

(** ** Lookups in general *)

Lemma filter_head {A} (P : A -> Prop) `{!forall x, Decision (P x)} (l : list A) (x : A)
    (xs : list A) :
  filter P l = x :: xs ->
  exists l1 l2, l = l1 ++ x :: l2 /\ P x /\ Forall (fun y => ~ P y) l1.
Proof.
  induction l as [|y l IH]; [done|].
  destruct (decide (P y)) as [Hy|Hy].
  - rewrite filter_cons_True by done. intros [= -> <-].
    exists [], l. by repeat split.
  - rewrite filter_cons_False by done. intros Hf.
    destruct (IH Hf) as (l1 & l2 & -> & Hx & Hl1).
    exists (y :: l1), l2. repeat split; [done|]. by constructor.
Qed.

(** The rows of the address query come from rows of the table that have
    the postcode and a UPRN. *)
Lemma select_epc_rows (pc : str) (db : database) (cur : list epc_row) (row : epc_row) :
  run_query (Select_epc pc) db = inr cur -> row ∈ cur ->
  s "epc_addresses" ∈ db_tables db
  /\ exists r, r ∈ db_epc_addresses db /\ row = epc_select r
       /\ col_postcode r = Some pc /\ col_uprn r <> None /\ col_uprn r <> Some [].
Proof.
  simpl. case_bool_decide as Ht; [|done]. intros [= <-] Hrow.
  split; [done|].
  apply list_elem_of_fmap in Hrow as (r & -> & Hr).
  apply list_elem_of_filter in Hr as [Hw Hr].
  exists r. split; [done|]. split; [done|].
  unfold epc_where in Hw. apply andb_prop in Hw as [Hw H3]. apply andb_prop in Hw as [H1 H2].
  by rewrite !bool_decide_eq_true in *.
Qed.

(** The first row of the coordinate query is the first row of the table
    with this UPRN. *)
Lemma select_uprns_first (u : Z) (db : database) (row : os_row) (rows : list os_row) :
  run_query (Select_uprns u) db = inr (row :: rows) ->
  s "uprns" ∈ db_tables db
  /\ exists l1 r l2, db_uprns db = l1 ++ r :: l2
       /\ col_UPRN r = u /\ row = os_select r
       /\ Forall (fun r' => col_UPRN r' <> u) l1.
Proof.
  simpl. case_bool_decide as Ht; [|done]. intros [= H].
  split; [done|].
  destruct (filter _ (db_uprns db)) as [|r rs] eqn:E; [done|].
  simpl in H. injection H as <- <-.
  apply filter_head in E as (l1 & l2 & -> & Hr & Hl1). by exists l1, r, l2.
Qed.

Section ClientFacts.

Variable w : world.

(** How [find_coordinates] fails. *)
Theorem find_coordinates_failure (self : UKGeolocate) (postcode_raw address_line : str)
    (st st' : state) (e : exn) :
  find_coordinates w self postcode_raw address_line st = (inl e, st') ->
  (e = PostcodeInvalid postcode_raw /\ Postcode.validate postcode_raw = false /\ st' = st)
  \/ exists pc, Postcode.normalise postcode_raw = inr pc
       /\ (e = NoMatchFound pc address_line
           \/ (e = DatabaseNotFound (_path (epc_pool st)) (_name (epc_pool st))
               /\ _conn (epc_pool st') = None)
           \/ (e = DatabaseNotFound (_path (os_pool st)) (_name (os_pool st))
               /\ _conn (os_pool st') = None)
           \/ (exists msg, e = OperationalError msg)
           \/ (exists msg, e = DriverError msg)).
Proof.
  intros H. unfold find_coordinates, bind, lift in H.
  destruct (Postcode.normalise postcode_raw) as [e0|pc] eqn:Hpc.
  { left. unfold Postcode.normalise in Hpc.
    destruct (Postcode.validate postcode_raw); simpl in Hpc; [done|].
    by simplify_eq. }
  right. exists pc. split; [done|].
  unfold _lookup_uprn, bind in H.
  destruct (execute w _epc_pool (Select_epc pc) st) as [[e1|cur] st1] eqn:Hq.
  { simplify_eq.
    destruct (execute_failure w _ _ _ _ _ Hq) as [(-> & Hc & _)|[?|?]]; eauto 6. }
  pose proof (execute_effects w _epc_pool (Select_epc pc) st) as (_ & _ & Ho & _).
  rewrite Hq in Ho. simpl in Ho.
  destruct (scan_rows _ _ None cur) as [[[u addr] sc]|] eqn:Hscan.
  2:{ unfold raise in H. simplify_eq. eauto. }
  unfold ret at 1 in H. unfold _lookup_coordinates, bind in H.
  destruct (execute w _os_pool (Select_uprns u) st1) as [[e2|rows] st2] eqn:Hq2.
  { simplify_eq.
    destruct (execute_failure w _ _ _ _ _ Hq2) as [(-> & Hc & _)|[?|?]]; eauto 6.
    simpl in *. rewrite Ho. eauto 6. }
  destruct rows as [|[[[x y] lat] lon] rows]; [|done].
  unfold raise in H. simplify_eq. eauto.
Qed.

(** A lookup moves the clock forward and leaves the paths and the names
    of both pools as they were. *)
Lemma find_coordinates_effects (self : UKGeolocate) (postcode_raw address_line : str)
    (st : state) :
  let st' := (find_coordinates w self postcode_raw address_line st).2 in
  now st <= now st'
  /\ forall pool, _path (deref pool st') = _path (deref pool st)
                  /\ _name (deref pool st') = _name (deref pool st).
Proof.
  cbv zeta. unfold find_coordinates, bind, lift.
  destruct (Postcode.normalise postcode_raw) as [e|pc]; [simpl; split; [lia|done]|].
  unfold _lookup_uprn, bind.
  pose proof (execute_effects w _epc_pool (Select_epc pc) st) as (P1 & N1 & O1 & T1 & _).
  destruct (execute w _epc_pool (Select_epc pc) st) as [[e|cur] st1]; simpl in *.
  { split; [lia|]. intros []; simpl; by rewrite ?P1, ?N1, ?O1. }
  destruct (scan_rows _ _ None cur) as [[[u addr] sc]|]; simpl.
  2:{ split; [lia|]. intros []; simpl; by rewrite ?P1, ?N1, ?O1. }
  unfold _lookup_coordinates, bind.
  pose proof (execute_effects w _os_pool (Select_uprns u) st1) as (P2 & N2 & O2 & T2 & _).
  destruct (execute w _os_pool (Select_uprns u) st1) as [[e|rows] st2]; simpl in *.
  { split; [lia|]. intros []; simpl; by rewrite ?P2, ?N2, ?O2, ?P1, ?N1, ?O1. }
  destruct rows as [|[[[x y] lat] lon] rows]; simpl.
  all: split; [lia|]; intros []; simpl; by rewrite ?P2, ?N2, ?O2, ?P1, ?N1, ?O1.
Qed.

End ClientFacts.

(** X8. A postcode that [validate] rejects makes [find_coordinates] raise
    [PostcodeInvalid] with the text as given, before any database is
    consulted: the state is unchanged.  Every other failure comes after the
    postcode was normalised, and is [NoMatchFound] with the normalised
    postcode and the address line as given, [DatabaseNotFound] for one of the
    two pools, which is then left closed, or an exception of the driver;
    [find_coordinates] never raises [DatabaseInvalid]. *)
Theorem X8_find_coordinates_fails_in_four_ways
    (w : world) (self : UKGeolocate) (postcode_raw address_line : str) (st : state) :
  (Postcode.validate postcode_raw = false ->
   find_coordinates w self postcode_raw address_line st
   = (inl (PostcodeInvalid postcode_raw), st))
  /\ forall e st',
       find_coordinates w self postcode_raw address_line st = (inl e, st') ->
       (e = PostcodeInvalid postcode_raw /\ Postcode.validate postcode_raw = false /\ st' = st)
       \/ exists pc, Postcode.normalise postcode_raw = inr pc
            /\ (e = NoMatchFound pc address_line
                \/ (e = DatabaseNotFound (_path (epc_pool st)) (_name (epc_pool st))
                    /\ _conn (epc_pool st') = None)
                \/ (e = DatabaseNotFound (_path (os_pool st)) (_name (os_pool st))
                    /\ _conn (os_pool st') = None)
                \/ (exists msg, e = OperationalError msg)
                \/ (exists msg, e = DriverError msg)).
Proof.
  split.
  - intros Hv. unfold find_coordinates, bind, lift, Postcode.normalise. by rewrite Hv.
  - intros e st'. apply find_coordinates_failure.
Qed.

(** X9. What [find_coordinates] returns is in the data.  The UPRN is the
    integer of the UPRN column of a row of the address table that has the
    normalised postcode; the matched address and the score are those of that
    row, and the score is between the threshold and 1.0; the four coordinates
    are those of the first row of the coordinate table with that UPRN; the
    address table was read first and the coordinate table after it, during
    the call. *)
Theorem X9_find_coordinates_result_is_in_the_data
    (w : world) (self : UKGeolocate) (postcode_raw address_line : str)
    (st st' : state) (res : LookupResult) :
  own_connection (epc_pool st) -> own_connection (os_pool st) ->
  find_coordinates w self postcode_raw address_line st = (inr res, st') ->
  exists pc t1 t2 r l1 c l2,
    Postcode.normalise postcode_raw = inr pc
    /\ now st <= t1 /\ t1 < t2 /\ t2 < now st'
    /\ s "epc_addresses" ∈ db_tables (content w t1 (_path (epc_pool st)))
    /\ r ∈ db_epc_addresses (content w t1 (_path (epc_pool st)))
    /\ col_postcode r = Some pc
    /\ col_uprn r ≫= Py.int = Some (uprn res)
    /\ matched_address res = best_address (epc_select r)
    /\ match_score res = row_score (Address.normalise address_line) (epc_select r)
    /\ (_threshold self <= match_score res <= 1)%Q
    /\ s "uprns" ∈ db_tables (content w t2 (_path (os_pool st)))
    /\ db_uprns (content w t2 (_path (os_pool st))) = l1 ++ c :: l2
    /\ Forall (fun c' => col_UPRN c' <> uprn res) l1
    /\ col_UPRN c = uprn res
    /\ (easting res, northing res, latitude res, longitude res) = os_select c.
Proof.
  intros Ho1 Ho2 H. unfold find_coordinates, bind, lift in H.
  destruct (Postcode.normalise postcode_raw) as [e|pc] eqn:Hpc; [done|].
  unfold _lookup_uprn, bind in H.
  destruct (execute w _epc_pool (Select_epc pc) st) as [[e|cur] st1] eqn:Hq; [done|].
  destruct (scan_rows _ _ None cur) as [[[u addr] sc]|] eqn:Hscan; [|done].
  destruct (scan_rows_selected _ _ _ u addr sc Hscan)
    as (row & Hrow & Hu & Haddr & Hsc & Hth & _).
  unfold ret at 1 in H. unfold _lookup_coordinates, bind in H.
  destruct (execute w _os_pool (Select_uprns u) st1) as [[e|rows] st2] eqn:Hq2; [done|].
  destruct rows as [|[[[x y] lat] lon] rows]; [done|].
  unfold ret in H. injection H as <- <-.
  pose proof (execute_effects w _epc_pool (Select_epc pc) st) as (_ & _ & Hoth & Hn1 & _).
  rewrite Hq in Hoth, Hn1. simpl in Hoth, Hn1.
  destruct (execute_success w _epc_pool _ st st1 _ Ho1 Hq) as (T1 & _ & Q1 & _).
  rewrite <- Hoth in Ho2.
  destruct (execute_success w _os_pool _ st1 _ _ Ho2 Hq2) as (T2 & _ & Q2 & _).
  cbn [deref] in *. rewrite Hoth in Q2.
  destruct (select_epc_rows _ _ _ _ Q1 Hrow) as (Ht1 & r & Hr & -> & Hp & _).
  destruct (select_uprns_first _ _ _ _ Q2) as (Ht2 & l1 & c & l2 & Hdb & Hc & Hsel & Hl1).
  pose proof (execute_effects w _os_pool (Select_uprns u) st1) as (_ & _ & _ & Hn2 & _).
  rewrite Hq2 in Hn2. simpl in Hn2.
  exists pc, (now st1 - 1), (now st2 - 1), r, l1, c, l2.
  cbn [uprn matched_address match_score easting northing latitude longitude].
  subst sc addr. split_and!; try done; try lia.
  apply row_score_le_1.
Qed.

(** ** Exact matches and the threshold *)

Lemma similarity_normalised_1 (x query : str) :
  Address.similarity x (Address.normalise query) = 1%Q
  <-> Address.normalise x = Address.normalise query.
Proof. by rewrite similarity_1_iff, address_normalise_idempotent. Qed.

(** A row scores 1.0 exactly when one of its columns is the query, up to
    normalisation. *)
Lemma row_score_1_iff (query : str) (row : epc_row) :
  row_score (Address.normalise query) row = 1%Q <-> has_exact_column query row.
Proof.
  pose proof (row_score_cases (Address.normalise query) row) as H.
  destruct row as [[[[u a1] a2] a3] af]. destruct H as [Hin Hall].
  unfold has_exact_column. rewrite !Exists_cons, Exists_nil.
  rewrite <- !similarity_normalised_1.
  split.
  - intros H1. rewrite H1 in Hin. rewrite !elem_of_cons, elem_of_nil in Hin.
    destruct Hin as [E|[E|[E|[E|[]]]]]; symmetry in E; tauto.
  - intros Hex. apply row_score_is_1. apply Qle_antisym; [apply row_score_le_1|].
    repeat (apply Forall_cons in Hall as [? Hall]).
    destruct Hex as [E|[E|[E|[E|[]]]]]; by rewrite <- E.
Qed.

(** No row meets a threshold above 1.0. *)
Lemma scan_rows_above_one (threshold : Q) (q : str) (cur : list epc_row)
    (best : option (Z * str * Q)) :
  (1 < threshold)%Q -> scan_rows threshold q best cur = best.
Proof.
  intros Hth. induction cur as [|row cur IH]; [done|]. cbn [scan_rows].
  assert (Qle_bool threshold (row_score q row) = false) as ->; [|done].
  destruct (Qle_bool _ _) eqn:E; [|done]. apply Qle_bool_iff in E.
  pose proof (row_score_le_1 q row) as H1.
  exfalso. apply (Qlt_irrefl 1). eapply Qlt_le_trans; [exact Hth|]. by eapply Qle_trans.
Qed.

Lemma row_score_below_1 (query : str) (row : epc_row) :
  ~ has_exact_column query row -> (row_score (Address.normalise query) row < 1)%Q.
Proof.
  intros Hn. pose proof (row_score_le_1 (Address.normalise query) row) as H.
  apply Qle_lt_or_eq in H as [H|H]; [done|].
  destruct Hn. by apply row_score_1_iff, row_score_is_1.
Qed.

(** The rows before the first row that has an exact column and parses
    leave the best score below 1. *)
Lemma scan_rows_inexact_prefix (threshold : Q) (query : str) (rest pre : list epc_row) :
  (forall r, r ∈ pre -> ~ (has_exact_column query r /\ is_Some (uprn_int r))) ->
  forall best,
    (forall b, best = Some b -> (b.2 < 1)%Q) ->
    exists best',
      scan_rows threshold (Address.normalise query) best (pre ++ rest)
      = scan_rows threshold (Address.normalise query) best' rest
      /\ forall b, best' = Some b -> (b.2 < 1)%Q.
Proof.
  induction pre as [|row pre IH]; intros Hpre best Hbest.
  { by exists best. }
  assert (forall r, r ∈ pre -> ~ (has_exact_column query r /\ is_Some (uprn_int r))) as Hpre'.
  { intros r Hr. apply Hpre. by right. }
  simpl. destruct (_ && _); [|by apply IH].
  destruct (uprn_int row) as [u|] eqn:Hu; [|by apply IH].
  assert (row_score (Address.normalise query) row < 1)%Q as Hlt.
  { apply row_score_below_1. intros Hb. apply (Hpre row); [by left|].
    split; [done|]. rewrite Hu. eauto. }
  destruct (Qeq_bool _ 1) eqn:E1.
  { apply Qeq_bool_iff in E1. rewrite E1 in Hlt. by apply Qlt_irrefl in Hlt. }
  apply IH; [done|]. by intros b [= <-].
Qed.

(** X5. A row scores 1.0 against the normalised address line exactly when
    one of its four address columns, NULL counting as the empty text, has the
    normal form of the address line.  With a threshold of at most 1.0, the
    first such row whose UPRN parses is the result of the loop, with the
    score 1.0, whatever the other rows are. *)
Theorem X5_exact_match_is_selected (threshold : Q) (address_line : str) :
  (forall r, row_score (Address.normalise address_line) r = 1%Q
             <-> has_exact_column address_line r)
  /\ ((threshold <= 1)%Q ->
      forall pre row post u,
        has_exact_column address_line row ->
        uprn_int row = Some u ->
        (forall r, r ∈ pre -> ~ (has_exact_column address_line r /\ is_Some (uprn_int r))) ->
        scan_rows threshold (Address.normalise address_line) None (pre ++ row :: post)
        = Some (u, best_address row, 1%Q)).
Proof.
  split; [intros r; apply row_score_1_iff|].
  intros Hth pre row post u Hex Hu Hpre.
  destruct (scan_rows_inexact_prefix threshold address_line (row :: post) pre Hpre None)
    as (best & -> & Hbest); [done|].
  cbn [scan_rows]. rewrite (proj2 (row_score_1_iff address_line row) Hex), Hu.
  apply Qle_bool_iff in Hth. rewrite Hth. simpl.
  destruct best as [b|]; [|done].
  specialize (Hbest b eq_refl). apply Qlt_bool_iff in Hbest. by rewrite Hbest.
Qed.

(** The run with the lower threshold ends on the row the run with the
    higher threshold ends on. *)
Lemma scan_rows_lower_threshold (th1 th2 : Q) (q : str) (cur : list epc_row)
    (best2 best1 : option (Z * str * Q)) (r : Z * str * Q) :
  (th1 <= th2)%Q ->
  runs_related th2 best2 best1 ->
  scan_rows th2 q best2 cur = Some r ->
  scan_rows th1 q best1 cur = Some r.
Proof.
  intros Hle. revert best2 best1. induction cur as [|row cur IH]; intros best2 best1 Hrel.
  { simpl. intros ->. by destruct Hrel as [[-> _]|[? _]]. }
  cbn [scan_rows]. set (sc := row_score q row).
  destruct (Qle_bool th2 sc) eqn:E2.
  - (* the row meets the higher threshold, hence the lower one *)
    apply Qle_bool_iff in E2.
    assert (Qle_bool th1 sc = true) as -> by (apply Qle_bool_iff; by eapply Qle_trans).
    simpl. destruct Hrel as [[-> Hb]|(-> & b1 & -> & Hb1)].
    + destruct (match best2 with None => true | Some b => Qlt_bool b.2 sc end); [|by apply IH; left].
      destruct (uprn_int row) as [u|]; [|by apply IH; left].
      destruct (Qeq_bool sc 1); [done|].
      apply IH. left. split; [done|]. by intros b [= <-].
    + assert (Qlt_bool b1.2 sc = true) as ->
        by (apply Qlt_bool_iff; by eapply Qlt_le_trans).
      destruct (uprn_int row) as [u|]; [|apply IH; right; eauto].
      destruct (Qeq_bool sc 1); [done|].
      apply IH. left. split; [done|]. by intros b [= <-].
  - (* the row is below the higher threshold *)
    simpl. intros H2.
    assert (sc < th2)%Q as Hlt.
    { apply Qnot_le_lt. intros Hc. apply Qle_bool_iff in Hc. congruence. }
    assert (best2 = None \/ exists b, best2 = Some b /\ (sc < b.2)%Q) as Hbest2.
    { destruct best2 as [b|]; [right|by left]. exists b. split; [done|].
      destruct Hrel as [[_ Hb]|[? _]]; [|done].
      eapply Qlt_le_trans; [exact Hlt|]. by apply Hb. }
    destruct (Qle_bool th1 sc && match best1 with None => true | Some b => Qlt_bool b.2 sc end)
      eqn:E1; [|by eapply IH].
    apply andb_prop in E1 as [_ E1].
    destruct (uprn_int row) as [u|]; [|by eapply IH].
    assert (best2 = None) as ->.
    { destruct Hbest2 as [|(b & -> & Hb)]; [done|].
      destruct Hrel as [[-> _]|[? _]]; [|done].
      apply Qlt_bool_iff in E1. simpl in E1.
      exfalso. apply (Qlt_irrefl sc). by eapply Qlt_trans. }
    destruct (Qeq_bool sc 1) eqn:Eq1.
    + apply Qeq_bool_iff in Eq1. rewrite Eq1 in Hlt.
      by rewrite (scan_rows_above_one th2 q cur None Hlt) in H2.
    + apply (IH None); [|done]. right. split; [done|]. eauto.
Qed.

(** X6. Lowering the threshold never changes a match: the row the loop
    selects with a threshold is the row it selects with any lower threshold,
    and a lookup that returns a result returns the same result, in the same
    state, with any lower threshold. *)
Theorem X6_lower_threshold_keeps_the_result (th1 th2 : Q) :
  (th1 <= th2)%Q ->
  (forall q cur r,
     scan_rows th2 q None cur = Some r -> scan_rows th1 q None cur = Some r)
  /\ forall w postcode_raw address_line st st' res,
       find_coordinates w {| _threshold := th2 |} postcode_raw address_line st
       = (inr res, st') ->
       find_coordinates w {| _threshold := th1 |} postcode_raw address_line st
       = (inr res, st').
Proof.
  intros Hle.
  assert (forall q cur r,
            scan_rows th2 q None cur = Some r -> scan_rows th1 q None cur = Some r) as Hscan.
  { intros q cur r. apply scan_rows_lower_threshold; [done|]. by left. }
  split; [exact Hscan|].
  intros w postcode_raw address_line st st' res H.
  unfold find_coordinates, bind, lift in *.
  destruct (Postcode.normalise postcode_raw) as [e|pc]; [done|].
  unfold _lookup_uprn, bind in *. cbn [_threshold] in *.
  destruct (execute w _epc_pool (Select_epc pc) st) as [[e|cur] st1]; [done|].
  destruct (scan_rows th2 _ None cur) as [r|] eqn:E; [|done].
  by rewrite (Hscan _ cur r E).
Qed.

Lemma scan_rows_none_iff (threshold : Q) (q : str) (cur : list epc_row) :
  scan_rows threshold q None cur = None
  <-> forall r, r ∈ cur -> ~ eligible threshold q r.
Proof.
  destruct (scan_rows_spec threshold q cur None) as
    [[E Hall]|(pre & r & post & u & -> & Hu & Hth & E & _)]; rewrite E.
  - split; [|done]. intros _ r Hr Hok. by destruct (Hall r Hr Hok) as (b & ? & _).
  - split; [done|]. intros Hall. destruct (Hall r).
    + rewrite elem_of_app, elem_of_cons. tauto.
    + split; [by apply Qle_bool_iff|]. rewrite Hu. eauto.
Qed.

(** X7. The two ends of the threshold.  Above 1.0 no row is ever
    selected, so no lookup returns a result.  At 0.0 or below every row whose
    UPRN parses meets the threshold, so the loop selects nothing only when no
    UPRN of the cursor parses. *)
Theorem X7_threshold_extremes (threshold : Q) (q : str) (cur : list epc_row) :
  ((1 < threshold)%Q ->
   scan_rows threshold q None cur = None
   /\ forall w self postcode_raw address_line st res st',
        _threshold self = threshold ->
        find_coordinates w self postcode_raw address_line st <> (inr res, st'))
  /\ ((threshold <= 0)%Q ->
      (scan_rows threshold q None cur = None <-> forall r, r ∈ cur -> uprn_int r = None)).
Proof.
  split.
  - intros Hth. split; [by apply scan_rows_above_one|].
    intros w self postcode_raw address_line st res st' <- H.
    unfold find_coordinates, bind, lift in H.
    destruct (Postcode.normalise postcode_raw) as [e|pc]; [done|].
    unfold _lookup_uprn, bind in H.
    destruct (execute w _epc_pool (Select_epc pc) st) as [[e|cur'] st1]; [done|].
    by rewrite (scan_rows_above_one _ _ cur' None Hth) in H.
  - intros Hth. rewrite scan_rows_none_iff. split.
    + intros Hall r Hr. destruct (uprn_int r) as [u|] eqn:Hu; [|done].
      destruct (Hall r Hr). split; [|rewrite Hu; eauto].
      apply Qle_bool_iff. eapply Qle_trans; [exact Hth|].
      pose proof (row_score_cases q r) as Hc. destruct r as [[[[? a1] ?] ?] ?].
      destruct Hc as [_ Hc]. apply Forall_cons in Hc as [Hc _].
      eapply Qle_trans; [|exact Hc]. apply similarity_bounds.
    + intros Hall r Hr [_ [u Hu]]. rewrite (Hall r Hr) in Hu. done.
Qed.

(** ** The health of a new engine *)

Section After.

Variable w : world.

(** The state a construction that returns leaves: both pools connected,
    eight instants later. *)
Lemma init_state (epc_file os_file : str) (th : Q) (st : state) (self : UKGeolocate)
    (st1 : state) :
  __init__ w epc_file os_file th st = (inr self, st1) ->
  st1 = connected _os_pool (advance 4 (connected _epc_pool
          (advance 4 (fresh_pools epc_file os_file st)))).
Proof.
  unfold __init__, _validate_databases, bind, ret. intros H.
  destruct (validate_tables w _epc_pool _ _) as [[e|[]] st0] eqn:H1; [done|].
  destruct (validate_tables w _os_pool _ st0) as [[e|[]] st2] eqn:H2; [done|].
  destruct (validate_tables_success w _epc_pool _ (fresh_pools epc_file os_file st) st0
              eq_refl H1) as (_ & _ & ->).
  destruct (validate_tables_success w _os_pool _
              (connected _epc_pool (advance 4 (fresh_pools epc_file os_file st))) st2
              eq_refl H2) as (_ & _ & ->).
  by simplify_eq.
Qed.

End After.

(** X17. After a construction that returned, both pools hold a
    connection, and [health_check] asks the driver once per pool without
    looking at the file system: while the driver answers and both tables are
    listed it reports [healthy] with [ok] for both stores, whether or not the
    paths are still files.  When the driver fails on the address index with
    an operational error and its path is no longer a file, the report is not
    healthy, the field of the address index is the text of
    [DatabaseNotFound], and that pool is left closed. *)
Theorem X17_health_check_of_a_new_engine
    (w : world) (epc_file os_file : str) (th : Q) (st : state) (self : UKGeolocate)
    (st1 : state) :
  __init__ w epc_file os_file th st = (inr self, st1) ->
  let t := now st1 in
  t = 8 + now st
  /\ (fault w t epc_file = None -> fault w (1 + t) os_file = None ->
      s "epc_addresses" ∈ db_tables (content w t epc_file) ->
      s "uprns" ∈ db_tables (content w (1 + t) os_file) ->
      health_check w st1
      = (inr {| healthy := true; epc_db := s "ok"; os_db := s "ok" |}, advance 2 st1))
  /\ (forall msg, fault w t epc_file = Some (Operational msg) ->
      is_file w (1 + t) epc_file = false ->
      exists status st2,
        health_check w st1 = (inr status, st2)
        /\ healthy status = false
        /\ epc_db status = exn_str (DatabaseNotFound epc_file (s "EPC"))
        /\ _conn (epc_pool st2) = None).
Proof.
  intros H. apply init_state in H. subst st1. cbv zeta.
  split; [reflexivity|]. split.
  - intros F1 F2 T1 T2. destruct st as [t ep op]. simpl in *.
    unfold health_check, bind, try_except, ret. run_pool.
    rewrite F1. simpl.
    rewrite filter_cons_False by (intros Hn; by apply Hn). simpl.
    rewrite F2. simpl.
    rewrite filter_cons_False by (intros Hn; by apply Hn). simpl.
    reflexivity.
  - intros msg F1 Hf.
    set (st1 := connected _os_pool _) in *.
    destruct (validate_tables w _epc_pool [s "epc_addresses"] st1) as [r1 st2] eqn:H1.
    assert (r1 = inl (DatabaseNotFound epc_file (s "EPC")) /\ _conn (epc_pool st2) = None)
      as [-> Hc].
    { subst st1. destruct st as [t ep op]. simpl in *. run_pool.
      rewrite F1 in H1. simpl in H1. rewrite Hf in H1. simpl in H1. by simplify_eq. }
    pose proof (validate_tables_other_pool w _os_pool [s "uprns"] st2) as Ho.
    cbv zeta in Ho.
    unfold health_check, bind, try_except, ret. rewrite H1.
    destruct (validate_tables w _os_pool [s "uprns"] st2) as [[e2|[]] st3];
      simpl in Ho; eexists _, _; (split; [reflexivity|]); rewrite Ho; done.
Qed.

(** ** Postcodes in general *)

Lemma upper_char_cases (c : ascii) :
  Py.upper_char c = c \/ (Py.lower_char c = c /\ Py.lower_char (Py.upper_char c) = c).
Proof. destruct c as [[] [] [] [] [] [] [] []]; vm_compute; auto. Qed.

Lemma lower_char_cases (c : ascii) :
  Py.lower_char c = c \/ (Py.upper_char c = c /\ Py.upper_char (Py.lower_char c) = c).
Proof. destruct c as [[] [] [] [] [] [] [] []]; vm_compute; auto. Qed.

Lemma lower_char_idempotent (c : ascii) : Py.lower_char (Py.lower_char c) = Py.lower_char c.
Proof. destruct c as [[] [] [] [] [] [] [] []]; reflexivity. Qed.

(** Under [re.IGNORECASE] a set does not tell a letter from its other
    case. *)
Lemma in_cset_i_upper (cs : Re.cset) (c : ascii) :
  Re.in_cset_i cs (Py.upper_char c) = Re.in_cset_i cs c.
Proof.
  unfold Re.in_cset_i. rewrite upper_char_idempotent.
  destruct (upper_char_cases c) as [->|[H1 ->]]; [done|]. rewrite H1.
  by destruct (Re.in_cset cs c), (Re.in_cset cs (Py.upper_char c)).
Qed.

Lemma in_cset_i_lower (cs : Re.cset) (c : ascii) :
  Re.in_cset_i cs (Py.lower_char c) = Re.in_cset_i cs c.
Proof.
  unfold Re.in_cset_i. rewrite lower_char_idempotent.
  destruct (lower_char_cases c) as [->|[H1 ->]]; [done|]. rewrite H1.
  by destruct (Re.in_cset cs c), (Re.in_cset cs (Py.lower_char c)).
Qed.

Lemma deriv_case (f : ascii -> ascii) (r : Re.re) (c : ascii) :
  (forall cs, Re.in_cset_i cs (f c) = Re.in_cset_i cs c) ->
  Re.deriv (f c) r = Re.deriv c r.
Proof. intros Hf. induction r; simpl; by rewrite ?Hf, ?IHr1, ?IHr2. Qed.

Lemma matches_case (f : ascii -> ascii) (r : Re.re) (x : str) :
  (forall cs c, Re.in_cset_i cs (f c) = Re.in_cset_i cs c) ->
  Re.matches r (map f x) = Re.matches r x.
Proof.
  intros Hf. revert r. induction x as [|c x IH]; intros r; simpl; [done|].
  rewrite deriv_case by (intros cs; apply Hf). apply IH.
Qed.

Lemma isspace_upper (c : ascii) : Py.isspace (Py.upper_char c) = Py.isspace c.
Proof. destruct c as [[] [] [] [] [] [] [] []]; reflexivity. Qed.

Lemma isspace_lower (c : ascii) : Py.isspace (Py.lower_char c) = Py.isspace c.
Proof. destruct c as [[] [] [] [] [] [] [] []]; reflexivity. Qed.

Lemma validate_upper (raw : str) : Postcode.validate (Py.upper raw) = Postcode.validate raw.
Proof.
  unfold Postcode.validate, Py.strip, Py.upper.
  rewrite strip_with_map by apply isspace_upper.
  apply matches_case. intros cs c. apply in_cset_i_upper.
Qed.

Lemma validate_lower (raw : str) : Postcode.validate (Py.lower raw) = Postcode.validate raw.
Proof.
  unfold Postcode.validate, Py.strip, Py.lower.
  rewrite strip_with_map by apply isspace_lower.
  apply matches_case. intros cs c. apply in_cset_i_lower.
Qed.

Lemma validate_surrounded (ws1 raw ws2 : str) :
  Forall (fun c => Py.isspace c = true) ws1 -> Forall (fun c => Py.isspace c = true) ws2 ->
  Postcode.validate (ws1 ++ raw ++ ws2) = Postcode.validate raw.
Proof. intros H1 H2. unfold Postcode.validate, Py.strip. by rewrite strip_with_surrounded. Qed.

Lemma validate_strip (raw : str) : Postcode.validate (Py.strip raw) = Postcode.validate raw.
Proof.
  unfold Postcode.validate, Py.strip. by rewrite (proj2 (proj2 (strip_with_ends _ raw))).
Qed.

Lemma upper_upper (x : str) : Py.upper (Py.upper x) = Py.upper x.
Proof. unfold Py.upper. rewrite map_map. apply map_ext. intros c. apply upper_char_idempotent. Qed.

Lemma upper_lower (x : str) : Py.upper (Py.lower x) = Py.upper x.
Proof. unfold Py.upper, Py.lower. rewrite map_map. apply map_ext. intros c. apply upper_lower_char. Qed.

Lemma strip_upper (x : str) : Py.strip (Py.upper x) = Py.upper (Py.strip x).
Proof. apply strip_with_map, isspace_upper. Qed.

Lemma strip_lower (x : str) : Py.strip (Py.lower x) = Py.lower (Py.strip x).
Proof. apply strip_with_map, isspace_lower. Qed.

Lemma strip_strip (x : str) : Py.strip (Py.strip x) = Py.strip x.
Proof. apply strip_with_ends. Qed.

(** X18. [postcode.validate] does not depend on whitespace around the
    text, and for a text of code points below 128 it does not depend on the
    case of the letters; neither does what [postcode.normalise] returns for
    a valid postcode: the text trimmed or with more whitespace around it,
    and the 7-bit text in upper case or in lower case, normalise to the same
    postcode.  (Beyond 7 bits the case of a letter matters: the pattern
    accepts U+0130 and rejects what [lower] makes of it.) *)
Theorem X18_postcode_ignores_margins_and_ascii_case (raw : str) :
  (Postcode.validate (Py.strip raw) = Postcode.validate raw
   /\ (forall ws1 ws2,
         Forall (fun c => Py.isspace c = true) ws1 ->
         Forall (fun c => Py.isspace c = true) ws2 ->
         Postcode.validate (ws1 ++ raw ++ ws2) = Postcode.validate raw)
   /\ (seven_bit raw ->
       Postcode.validate (Py.upper raw) = Postcode.validate raw
       /\ Postcode.validate (Py.lower raw) = Postcode.validate raw))
  /\ forall pc,
       Postcode.normalise raw = inr pc ->
       Postcode.normalise (Py.strip raw) = inr pc
       /\ (forall ws1 ws2,
             Forall (fun c => Py.isspace c = true) ws1 ->
             Forall (fun c => Py.isspace c = true) ws2 ->
             Postcode.normalise (ws1 ++ raw ++ ws2) = inr pc)
       /\ (seven_bit raw ->
           Postcode.normalise (Py.upper raw) = inr pc
           /\ Postcode.normalise (Py.lower raw) = inr pc).
Proof.
  split.
  { split; [apply validate_strip|]. split; [intros ws1 ws2; apply validate_surrounded|].
    intros _. split; [apply validate_upper|apply validate_lower]. }
  intros pc. unfold Postcode.normalise.
  destruct (Postcode.validate raw) eqn:Hv; simpl; [|done]. intros [= <-].
  rewrite validate_upper, validate_lower, validate_strip, Hv. simpl.
  split; [|split].
  - by rewrite strip_strip.
  - intros ws1 ws2 H1 H2. rewrite validate_surrounded, Hv by done. simpl.
    unfold Py.strip. by rewrite strip_with_surrounded.
  - intros _. split.
    + by rewrite strip_upper, upper_upper.
    + by rewrite strip_lower, upper_lower.
Qed.

(** *** The parts of a valid postcode *)

Lemma letter_not_space (c : ascii) :
  Re.in_cset_i Postcode.letter c = true ->
  Py.isspace c = false /\ Ascii.eqb (Py.upper_char c) " " = false
  /\ Py.isupper (Py.upper_char c) = true.
Proof.
  destruct c as [[] [] [] [] [] [] [] []]; vm_compute; intros H;
    first [discriminate H | repeat split; reflexivity].
Qed.

Lemma digit_not_space (c : ascii) :
  Re.in_cset_i Re.Digit c = true ->
  Py.isspace c = false /\ Ascii.eqb (Py.upper_char c) " " = false
  /\ Py.upper_char c = c /\ Py.isdigit c = true.
Proof.
  destruct c as [[] [] [] [] [] [] [] []]; vm_compute; intros H;
    first [discriminate H | repeat split; reflexivity].
Qed.

Lemma alnum_not_space (c : ascii) :
  Re.in_cset_i (Re.Union Postcode.letter Re.Digit) c = true ->
  Py.isspace c = false /\ Ascii.eqb (Py.upper_char c) " " = false
  /\ Py.isupper (Py.upper_char c) || Py.isdigit (Py.upper_char c) = true.
Proof.
  destruct c as [[] [] [] [] [] [] [] []]; vm_compute; intros H;
    first [discriminate H | repeat split; reflexivity].
Qed.

Lemma space_upper (c : ascii) : Py.isspace c = true -> Py.upper_char c = c.
Proof. destruct c as [[] [] [] [] [] [] [] []]; vm_compute; intros H; first [discriminate H | reflexivity]. Qed.

Lemma strip_last (x : str) (c : ascii) : last (Py.strip x) = Some c -> Py.isspace c = false.
Proof.
  intros H. destruct (strip_with_ends Py.isspace x) as (_ & Hl & _).
  destruct (Py.strip x) as [|d r] eqn:E using rev_ind; [done|].
  rewrite last_snoc in H. injection H as ->. by apply (Hl r).
Qed.

(** A valid postcode, trimmed, is one or two letters, a digit, an
    optional letter or digit, an optional whitespace character, a digit and
    two letters; [normalise] returns these parts in upper case, a space
    before the last three, and the whitespace character unless it is a
    space. *)
Lemma normalise_parts (raw pc : str) :
  Postcode.normalise raw = inr pc ->
  exists A1 A2 D O S E L1 L2,
    Py.strip raw = A1 :: A2 ++ D :: O ++ S ++ [E; L1; L2]
    /\ Re.in_cset_i Postcode.letter A1 = true
    /\ optional (fun c => Re.in_cset_i Postcode.letter c = true) A2
    /\ Re.in_cset_i Re.Digit D = true
    /\ optional (fun c => Re.in_cset_i (Re.Union Postcode.letter Re.Digit) c = true) O
    /\ optional (fun c => Py.isspace c = true) S
    /\ Re.in_cset_i Re.Digit E = true
    /\ Re.in_cset_i Postcode.letter L1 = true
    /\ Re.in_cset_i Postcode.letter L2 = true
    /\ pc = Py.upper (A1 :: A2 ++ D :: O) ++ Py.replace " " [] S
            ++ " "%char :: Py.upper [E; L1; L2].
Proof.
  intros Hn. unfold Postcode.normalise in Hn.
  destruct (Postcode.validate raw) eqn:Hv; simpl in Hn; [|discriminate].
  injection Hn as <-.
  apply validate_grammar in Hv. unfold Postcode.grammar in Hv.
  pose proof (strip_last raw) as Hlast.
  generalize dependent (Py.strip raw). clear raw. intros x Hv Hlast.
  unfold Postcode._UK_POSTCODE_RE, Re.Dollar, Re.Rep12, Re.Rep2, Re.Opt in Hv.
  inv_lang; simpl in Hlast.
  all: try match goal with
           | H : Re.in_cset_i (Re.Lit _) ?c = true |- _ =>
               apply newline_facts in H as [H _]; by rewrite (Hlast _ eq_refl) in H
           end.
  all: clear Hlast.
  all: repeat match goal with
              | H : Re.in_cset_i Re.Space ?c = true |- _ => apply space_facts in H
              end.
  all: match goal with
       | |- exists A1 A2 D O S E L1 L2,
              ([?a] ++ ?a2) ++ [?d] ++ ?o ++ ?sp ++ [?e] ++ ([?l1] ++ [?l2]) ++ [] = _ /\ _ =>
           exists a, a2, d, o, sp, e, l1, l2
       end.
  all: unfold optional.
  all: split_and!; eauto.
  all: try (simpl; by rewrite <- ?app_assoc).
  all: cbn [Py.upper map app].
  all: repeat match goal with
              | H : Re.in_cset_i Postcode.letter ?c = true |- _ =>
                  apply letter_not_space in H as (_ & H & _)
              | H : Re.in_cset_i Re.Digit ?c = true |- _ =>
                  apply digit_not_space in H as (_ & H & _)
              | H : Re.in_cset_i (Re.Union _ _) ?c = true |- _ =>
                  apply alnum_not_space in H as (_ & H & _)
              end.
  all: cbn [Py.replace flat_map app].
  all: repeat match goal with
              | H : Ascii.eqb (Py.upper_char ?c) " " = false |- _ => rewrite H; clear H
              end.
  all: try match goal with
           | H : Py.isspace ?c = true |- _ =>
               rewrite (space_upper c H); destruct (Ascii.eqb c " ")
           end.
  all: reflexivity.
Qed.

Lemma upper_app (x y : str) : Py.upper (x ++ y) = Py.upper x ++ Py.upper y.
Proof. apply map_app. Qed.

Lemma upper_optional_space (S : str) :
  optional (fun c => Py.isspace c = true) S -> Py.upper S = S.
Proof. intros [->|(c & -> & Hc)]; [done|]. unfold Py.upper; simpl. by rewrite space_upper. Qed.

(** X19. What [postcode.normalise] returns for a valid postcode: the
    trimmed text in upper case, cut before its last three characters, with a
    space inserted at the cut and the separator dropped when it was a space.
    The part before the cut starts with an upper-case letter and is two to
    four upper-case letters and digits; the part after it is a digit and two
    upper-case letters; the separator is absent or one whitespace
    character. *)
Theorem X19_postcode_normalise_shape (raw pc : str) :
  Postcode.normalise raw = inr pc ->
  exists outward sep inward,
    Py.upper (Py.strip raw) = outward ++ sep ++ inward
    /\ pc = outward ++ Py.replace " " [] sep ++ " "%char :: inward
    /\ 2 <= length outward <= 4
    /\ (exists A r, outward = A :: r /\ Py.isupper A = true)
    /\ Forall (fun c => Py.isupper c || Py.isdigit c = true) outward
    /\ optional (fun c => Py.isspace c = true) sep
    /\ exists E L1 L2, inward = [E; L1; L2]
         /\ Py.isdigit E = true /\ Py.isupper L1 = true /\ Py.isupper L2 = true.
Proof.
  intros Hn.
  destruct (normalise_parts raw pc Hn)
    as (A1 & A2 & D & O & S & E & L1 & L2 & Hraw & HA1 & HA2 & HD & HO & HS & HE & HL1 & HL2 & Hpc).
  exists (Py.upper (A1 :: A2 ++ D :: O)), S, (Py.upper [E; L1; L2]).
  apply letter_not_space in HA1 as (_ & _ & HA1), HL1 as (_ & _ & HL1), HL2 as (_ & _ & HL2).
  apply digit_not_space in HD as (_ & _ & HD & HD'), HE as (_ & _ & HE & HE').
  split_and!.
  - rewrite Hraw.
    change (A1 :: A2 ++ D :: O ++ S ++ [E; L1; L2])
      with ([A1] ++ A2 ++ [D] ++ O ++ S ++ [E; L1; L2]).
    change (A1 :: A2 ++ D :: O) with ([A1] ++ A2 ++ [D] ++ O).
    rewrite !upper_app, (upper_optional_space S HS). by rewrite <- !app_assoc.
  - done.
  - unfold Py.upper. rewrite length_map. simpl. rewrite length_app. simpl.
    destruct HA2 as [->|(c & -> & _)], HO as [->|(c' & -> & _)]; simpl; lia.
  - unfold Py.upper. rewrite length_map. simpl. rewrite length_app. simpl.
    destruct HA2 as [->|(c & -> & _)], HO as [->|(c' & -> & _)]; simpl; lia.
  - by eexists _, _.
  - change (A1 :: A2 ++ D :: O) with ([A1] ++ A2 ++ [D] ++ O).
    rewrite !upper_app, !Forall_app. split_and!.
    + constructor; [|constructor]. simpl. by rewrite HA1.
    + destruct HA2 as [->|(c & -> & Hc)]; [constructor|].
      apply letter_not_space in Hc as (_ & _ & Hc).
      constructor; [|constructor]. simpl. by rewrite Hc.
    + constructor; [|constructor]. simpl. rewrite HD, HD'. apply orb_true_r.
    + destruct HO as [->|(c & -> & Hc)]; [constructor|].
      apply alnum_not_space in Hc as (_ & _ & Hc). by constructor.
  - done.
  - exists E, (Py.upper_char L1), (Py.upper_char L2).
    split; [simpl; by rewrite HE|]. done.
Qed.

Lemma spaces_app (x y : str) : spaces (x ++ y) = spaces x + spaces y.
Proof. apply sum_list_with_app. Qed.

Lemma spaces_upper (x : str) : spaces (Py.upper x) = spaces x.
Proof.
  unfold spaces, Py.upper. induction x as [|c x IH]; simpl; [done|].
  by rewrite isspace_upper, IH.
Qed.

Lemma spaces_optional (P : ascii -> Prop) (x : str) :
  (forall c, P c -> Py.isspace c = false) -> optional P x -> spaces x = 0.
Proof.
  intros HP [->|(c & -> & Hc)]; [done|]. unfold spaces; simpl. by rewrite (HP c Hc).
Qed.

(** The parts of a valid postcode other than the separator hold no
    whitespace. *)
Lemma parts_spaces (A1 : ascii) (A2 : str) (D : ascii) (O : str) (E L1 L2 : ascii) :
  Re.in_cset_i Postcode.letter A1 = true ->
  optional (fun c => Re.in_cset_i Postcode.letter c = true) A2 ->
  Re.in_cset_i Re.Digit D = true ->
  optional (fun c => Re.in_cset_i (Re.Union Postcode.letter Re.Digit) c = true) O ->
  Re.in_cset_i Re.Digit E = true ->
  Re.in_cset_i Postcode.letter L1 = true ->
  Re.in_cset_i Postcode.letter L2 = true ->
  spaces (A1 :: A2 ++ D :: O) = 0 /\ spaces [E; L1; L2] = 0.
Proof.
  intros HA1 HA2 HD HO HE HL1 HL2.
  apply letter_not_space in HA1 as (HA1 & _), HL1 as (HL1 & _), HL2 as (HL2 & _).
  apply digit_not_space in HD as (HD & _), HE as (HE & _).
  apply (spaces_optional _ _ (fun c H => proj1 (letter_not_space c H))) in HA2.
  apply (spaces_optional _ _ (fun c H => proj1 (alnum_not_space c H))) in HO.
  change (A1 :: A2 ++ D :: O) with ([A1] ++ A2 ++ [D] ++ O).
  rewrite !spaces_app, HA2, HO. unfold spaces; simpl.
  by rewrite HA1, HD, HE, HL1, HL2.
Qed.

Lemma parts_spaces_total (A1 : ascii) (A2 : str) (D : ascii) (O S : str) (E L1 L2 : ascii) :
  Re.in_cset_i Postcode.letter A1 = true ->
  optional (fun c => Re.in_cset_i Postcode.letter c = true) A2 ->
  Re.in_cset_i Re.Digit D = true ->
  optional (fun c => Re.in_cset_i (Re.Union Postcode.letter Re.Digit) c = true) O ->
  optional (fun c => Py.isspace c = true) S ->
  Re.in_cset_i Re.Digit E = true ->
  Re.in_cset_i Postcode.letter L1 = true ->
  Re.in_cset_i Postcode.letter L2 = true ->
  spaces (A1 :: A2 ++ D :: O ++ S ++ [E; L1; L2]) <= 1.
Proof.
  intros HA1 HA2 HD HO HS HE HL1 HL2.
  destruct (parts_spaces A1 A2 D O E L1 L2 HA1 HA2 HD HO HE HL1 HL2) as [Hout Hin].
  change (A1 :: A2 ++ D :: O ++ S ++ [E; L1; L2])
    with ([A1] ++ A2 ++ [D] ++ O ++ S ++ [E; L1; L2]).
  change (A1 :: A2 ++ D :: O) with ([A1] ++ A2 ++ [D] ++ O) in Hout.
  rewrite !spaces_app in *. rewrite Hin.
  assert (spaces S <= 1); [|lia].
  destruct HS as [->|(c & -> & Hc)]; unfold spaces; simpl; [lia|]. rewrite Hc. lia.
Qed.

(** X20. For a valid postcode, what [postcode.normalise] returns is a
    fixed point of [normalise] exactly when the trimmed input holds no
    whitespace other than spaces: with a separator that is another whitespace
    character the result is a text that [normalise] rejects. *)
Theorem X20_postcode_normalise_fixed_point_iff (raw pc : str) :
  Postcode.normalise raw = inr pc ->
  Postcode.normalise pc = inr pc
  <-> Forall (fun c => Py.isspace c = true -> c = " "%char) (Py.strip raw).
Proof.
  intros Hn. split.
  2:{ intros Hws. exact (normalise_idempotent_on_space_separated raw pc Hws Hn). }
  intros Hfix.
  destruct (normalise_parts raw pc Hn)
    as (A1 & A2 & D & O & S & E & L1 & L2 & Hraw & HA1 & HA2 & HD & HO & HS & HE & HL1 & HL2 & Hpc).
  destruct (parts_spaces A1 A2 D O E L1 L2 HA1 HA2 HD HO HE HL1 HL2) as [Hout Hin].
  assert (forall x, spaces x = 0 -> Forall (fun c => Py.isspace c = true -> c = " "%char) x)
    as Hnone.
  { induction x as [|c x IH]; [constructor|]. unfold spaces; simpl.
    destruct (Py.isspace c) eqn:Ec; [done|]. intros Hx.
    constructor; [intros; congruence|by apply IH]. }
  rewrite Hraw.
  change (A1 :: A2 ++ D :: O ++ S ++ [E; L1; L2])
    with ([A1] ++ A2 ++ [D] ++ O ++ S ++ [E; L1; L2]).
  change (A1 :: A2 ++ D :: O) with ([A1] ++ A2 ++ [D] ++ O) in Hout.
  rewrite !spaces_app in Hout.
  rewrite !Forall_app. split_and!; try (apply Hnone; lia).
  destruct HS as [->|(c & -> & Hc)]; [constructor|].
  constructor; [|constructor]. intros _.
  destruct (Ascii.eqb_spec c " ") as [|Hne]; [done|]. exfalso.
  (* the result holds two whitespace characters *)
  assert (spaces pc = 2) as H2.
  { rewrite Hpc. simpl Py.replace. destruct (Ascii.eqb_spec c " "); [done|].
    change (" "%char :: Py.upper [E; L1; L2]) with ([" "%char] ++ Py.upper [E; L1; L2]).
    rewrite !spaces_app, !spaces_upper, Hin.
    change (A1 :: A2 ++ D :: O) with ([A1] ++ A2 ++ [D] ++ O).
    rewrite !spaces_app.
    assert (spaces [c] = 1) as -> by (unfold spaces; simpl; by rewrite Hc).
    change (spaces []) with 0. change (spaces [" "%char]) with 1. lia. }
  (* and it is its own trimmed text *)
  assert (Py.strip pc = pc) as Hstrip.
  { rewrite Hpc. simpl Py.upper at 1.
    apply letter_not_space in HA1 as (_ & _ & HA1), HL2 as (_ & _ & HL2).
    eapply strip_with_fixed.
    - by destruct (Py.upper_char A1) as [[] [] [] [] [] [] [] []].
    - rewrite app_comm_cons, !app_assoc.
      change (?x ++ " "%char :: Py.upper [E; L1; L2])
        with (x ++ [" "%char; Py.upper_char E; Py.upper_char L1] ++ [Py.upper_char L2]).
      rewrite !app_assoc. apply last_snoc.
    - by destruct (Py.upper_char L2) as [[] [] [] [] [] [] [] []]. }
  destruct (normalise_parts pc pc Hfix)
    as (A1' & A2' & D' & O' & S' & E' & L1' & L2' & Hraw' & HA1' & HA2' & HD' & HO' & HS'
        & HE' & HL1' & HL2' & _).
  pose proof (parts_spaces_total A1' A2' D' O' S' E' L1' L2' HA1' HA2' HD' HO' HS' HE' HL1' HL2')
    as Hle.
  rewrite <- Hraw', Hstrip in Hle. lia.
Qed.

(** ** The command line *)

Ltac other_line := simpl; intros ? [=].

Lemma extends_refl (io : console) (tty : terminal) : extends io tty tty.
Proof. split; [exists []|exists []]; by rewrite app_nil_r. Qed.

Lemma extends_write (io : console) (x : str) (tty0 tty : terminal) :
  extends io tty0 tty -> error_line_ok x -> extends io tty0 (write x tty).
Proof.
  intros (He & new & Ho & Hok) Hx. split; [done|].
  exists (new ++ [x]). simpl. rewrite Ho, app_assoc. split; [done|].
  apply Forall_app. split; [done|by constructor].
Qed.

Lemma extends_print (io : console) (x : str) (tty0 tty : terminal) :
  extends io tty0 tty -> error_line_ok (x ++ LF) -> extends io tty0 (print x tty).
Proof. apply extends_write. Qed.

Lemma extends_prompt (io : console) (x : str) (tty0 tty : terminal) :
  extends io tty0 tty -> is_prompt x -> extends io tty0 (prompt io x tty).
Proof.
  intros Ht Hx.
  assert (error_line_ok x) as Hline.
  { intros msg Hmsg. destruct Hx as [->| ->]; vm_compute in Hmsg; discriminate Hmsg. }
  destruct io as [|[]]; try by apply extends_write.
  destruct Ht as ((shown & He & Hp & _) & Hout). split; [|done].
  exists (shown ++ [x]). simpl. rewrite He, app_assoc. split; [done|].
  split; [|done]. apply Forall_app. split; [done|by constructor].
Qed.

Lemma later_refl (st : state) : later st st.
Proof. by split. Qed.

Lemma later_trans (st1 st2 st3 : state) : later st1 st2 -> later st2 st3 -> later st1 st3.
Proof.
  intros [T1 P1] [T2 P2]. split; [lia|]. intros pool.
  destruct (P1 pool) as [<- <-]. apply P2.
Qed.

Lemma banner_extends (io : console) (tty : terminal) : extends io tty (print _BANNER tty).
Proof.
  apply extends_print; [apply extends_refl|]. intros msg Hmsg. vm_compute in Hmsg.
  discriminate Hmsg.
Qed.

Section CliFacts.

Variable w : world.
Variable float_str : Q -> str.
Variable percent : Q -> str.
Variable round3 : Q -> Q.

Lemma display_extends (io : console) (result : LookupResult) (tty0 tty : terminal) :
  extends io tty0 tty -> extends io tty0 (display float_str percent result tty).
Proof.
  intros H. unfold display.
  repeat (apply extends_print; [|other_line]). exact H.
Qed.

(** The loop, whatever is typed: by induction on a bound of the number of
    lines left. *)
Lemma interactive_loop_safe (io : console) (client : UKGeolocate) (n : nat) :
  forall keys tty0 tty st0 st,
    length keys <= n -> extends io tty0 tty -> later st0 st ->
    safe_run io tty0 st0 (interactive_loop w float_str percent io client keys tty st).
Proof.
  induction n as [|n IH]; intros keys tty0 tty st0 st Hlen Ht Hs.
  { destruct keys; [|simpl in Hlen; lia]. simpl.
    split; [done|]. split; [|done].
    apply extends_print; [|other_line]. apply extends_prompt; [done|by left]. }
  destruct keys as [|[text|] keys]; cbn [interactive_loop].
  1,3: split; [done|]; split; [|done];
       apply extends_print; [|other_line]; apply extends_prompt; [done|by left].
  simpl in Hlen.
  assert (extends io tty0 (prompt io (LF ++ s "Postcode:        ") tty)) as Ht1
    by (apply extends_prompt; [done|by left]).
  case_bool_decide as Hquit.
  { split; [done|]. split; [|done]. apply extends_print; [done|other_line]. }
  destruct (negb (Py.truthy (Some (Py.strip text)))) eqn:Hblank.
  { apply IH; [lia| |done]. apply extends_print; [done|other_line]. }
  destruct (negb (Postcode.validate (Py.strip text))) eqn:Hvalid.
  { apply IH; [lia| |done]. apply extends_print; [done|other_line]. }
  apply negb_false_iff in Hvalid.
  assert (extends io tty0 (prompt io (s "Address line 1:  ")
            (prompt io (LF ++ s "Postcode:        ") tty))) as Ht2
    by (apply extends_prompt; [done|by right]).
  destruct keys as [|[text2|] keys].
  1,3: split; [done|]; split; [|done]; apply extends_print; [done|other_line].
  simpl in Hlen.
  destruct (negb (Py.truthy (Some (Py.strip text2)))) eqn:Hblank2.
  { apply IH; [lia| |done]. apply extends_print; [done|other_line]. }
  pose proof (find_coordinates_effects w client (Py.strip text) (Py.strip text2) st) as He.
  cbv zeta in He.
  destruct (find_coordinates w client (Py.strip text) (Py.strip text2) st)
    as [[exc|result] st1] eqn:Hfind; simpl in He.
  2:{ apply IH; [lia| |by eapply later_trans].
      apply display_extends. apply extends_write; [done|other_line]. }
  assert (extends io tty0 (write (s "  ⏳ Searching EPC database …")
            (prompt io (s "Address line 1:  ")
               (prompt io (LF ++ s "Postcode:        ") tty)))) as Ht3
    by (apply extends_write; [done|other_line]).
  destruct (find_coordinates_failure w client _ _ _ _ _ Hfind)
    as [(-> & Hinv & _)|(pc & Hpc & [->|[[-> _]|[[-> _]|[[msg ->]|[msg ->]]]]])].
  - congruence.
  - apply IH; [lia| |by eapply later_trans]. apply extends_print; [done|other_line].
  - apply IH; [lia| |by eapply later_trans]. apply extends_print; [done|].
    simpl. intros msg [= Hmsg]. apply app_inv_tail in Hmsg. subst msg. eauto.
  - apply IH; [lia| |by eapply later_trans]. apply extends_print; [done|].
    simpl. intros msg [= Hmsg]. apply app_inv_tail in Hmsg. subst msg. eauto.
  - split; [done|]. split; [done|by eapply later_trans].
  - split; [done|]. split; [done|by eapply later_trans].
Qed.

(** What the single lookup of [main] prints and how it ends, by what
    [find_coordinates] gives. *)
Lemma single_shot_cases (client : UKGeolocate) (postcode_raw address_line : str)
    (tty : terminal) (st : state) :
  let run := single_shot w float_str round3 client postcode_raw address_line tty st in
  let found := find_coordinates w client postcode_raw address_line st in
  run.2 = found.2
  /\ match found.1 with
     | inr result =>
         run.1.1 = inr tt /\ stderr run.1.2 = stderr tty
         /\ stdout run.1.2
            = stdout tty
              ++ map (fun kv => rjust 20 kv.1 ++ s ": " ++ value_str float_str kv.2 ++ LF)
                     (to_dict round3 result)
     | inl (PostcodeInvalid pc) =>
         run.1.1 = inl (SystemExit 1)
         /\ run.1.2 = print_err (s "Invalid postcode: " ++ pc) tty
     | inl (NoMatchFound _ _) =>
         run.1.1 = inl (SystemExit 1)
         /\ run.1.2 = print_err (s "No match found.") tty
     | inl e => run.1.1 = inl (Raised e) /\ run.1.2 = tty
     end.
Proof.
  cbv zeta. unfold single_shot.
  destruct (find_coordinates w client postcode_raw address_line st) as [[e|result] st1].
  - by destruct e.
  - simpl. split; [done|]. split; [done|]. split; [done|].
    by rewrite <- !app_assoc.
Qed.

Lemma main_body_safe (client : UKGeolocate) (p : process) (keys : list keyboard)
    (tty : terminal) (st : state) :
  let run := main_body w float_str percent round3 client p keys tty st in
  exit_status run.1.1 <> 2 /\ later st run.2.
Proof.
  cbv zeta.
  assert (forall pc addr,
            let run := single_shot w float_str round3 client pc addr tty st in
            exit_status run.1.1 <> 2 /\ later st run.2) as Hsingle.
  { intros pc addr. cbv zeta.
    pose proof (single_shot_cases client pc addr tty st) as [H2 H1]. cbv zeta in H1, H2.
    pose proof (find_coordinates_effects w client pc addr st) as He. cbv zeta in He.
    rewrite H2. split; [|done].
    destruct (find_coordinates w client pc addr st) as [[e|result] st1]; simpl in H1.
    - destruct e; destruct H1 as [-> _]; simpl; lia.
    - destruct H1 as [-> _]. simpl. lia. }
  assert (let run := _run_interactive w float_str percent (stdio p) client keys tty st in
          exit_status run.1.1 <> 2 /\ later st run.2) as Hinter.
  { cbv zeta. unfold _run_interactive.
    destruct (interactive_loop_safe (stdio p) client (length keys) keys tty
                (print _BANNER tty) st st)
      as (H1 & _ & H4); [lia|apply banner_extends|apply later_refl|].
    split; [|done].
    destruct (interactive_loop _ _ _ _ _ _ _ _) as [[[[e|code]|[]] tty1] st1]; simpl in *;
      [lia|done|lia]. }
  unfold main_body. cbv zeta in Hsingle, Hinter.
  destruct (argv p) as [|a0 [|a1 [|a2 [|a3 l]]]]; try apply Hinter. apply Hsingle.
Qed.

End CliFacts.

(** X21. An interactive session never ends on an exception of the
    package, nor on an exit: it returns, or an exception of the driver leaves
    it.  What it writes to the standard error is nothing but the prompts of
    [input], and only when the session is on the terminal and [readline] is
    not loaded; in every other case the standard error is left as it was.  A
    line it writes to report an error always names a database that was not
    found: the postcode was validated before the lookup and the lookup never
    raises [DatabaseInvalid].  And the two pools keep their paths and their
    names while the clock moves forward. *)
Theorem X21_interactive_session_is_safe
    (w : world) (float_str percent : Q -> str) (io : console)
    (client : UKGeolocate) (keys : list keyboard) (tty : terminal) (st : state) :
  let run := _run_interactive w float_str percent io client keys tty st in
  match run.1.1 with
  | inr _ => True
  | inl (Raised e) => is_UKGeolocateError e = false
  | inl (SystemExit _) => False
  end
  /\ (exists shown, stderr run.1.2 = stderr tty ++ shown /\ Forall is_prompt shown
                    /\ (io <> Terminal false -> shown = []))
  /\ (exists new, stdout run.1.2 = stdout tty ++ new /\ Forall error_line_ok new)
  /\ now st <= now run.2
  /\ forall pool, _path (deref pool run.2) = _path (deref pool st)
                  /\ _name (deref pool run.2) = _name (deref pool st).
Proof.
  cbv zeta. unfold _run_interactive.
  by destruct (interactive_loop_safe w float_str percent io client (length keys) keys tty
                 (print _BANNER tty) st st)
    as (H1 & (H2 & H3) & H4 & H5); [lia|apply banner_extends|apply later_refl|].
Qed.

(** X22. How [main] ends.  When the construction of the engine raises
    [DatabaseNotFound], two lines go to the standard error, the first with
    the text of the exception, and the exit status is 2; any other exception
    of the construction leaves [main] as it was raised, with nothing written.
    When the engine was constructed, [main] closes it whatever happens next:
    both pools end without a connection, with the paths and the names they
    had, and the exit status is not 2.  So the status is 2 exactly when the
    construction did not find a database. *)
Theorem X22_main_exits_2_without_a_database_and_closes_otherwise
    (w : world) (float_str percent : Q -> str) (round3 : Q -> Q)
    (p : process) (keys : list keyboard) (tty : terminal) (st : state) :
  let init := __init__ w (_DEFAULT_EPC p) (_DEFAULT_OS p) _DEFAULT_THRESHOLD st in
  let run := main w float_str percent round3 p keys tty st in
  match init with
  | (inl (DatabaseNotFound path db_name), st1) =>
      run = (inl (SystemExit 2),
             print_err (s "Set EPCLOCATIONS_DB and OSOPENUPRN_DB environment variables, "
                        ++ s "or run from the directory containing the databases.")
               (print_err (s "Error: " ++ db_name ++ s " database not found at: " ++ path) tty),
             st1)
  | (inl e, st1) => run = (inl (Raised e), tty, st1)
  | (inr client, st1) =>
      exit_status run.1.1 <> 2
      /\ _conn (epc_pool run.2) = None /\ _conn (os_pool run.2) = None
      /\ forall pool, _path (deref pool run.2) = _path (deref pool st1)
                      /\ _name (deref pool run.2) = _name (deref pool st1)
  end
  /\ (exit_status run.1.1 = 2
      <-> exists path db_name, init.1 = inl (DatabaseNotFound path db_name)).
Proof.
  cbv zeta. unfold main.
  destruct (__init__ w (_DEFAULT_EPC p) (_DEFAULT_OS p) _DEFAULT_THRESHOLD st)
    as [[e|client] st1].
  { destruct e; simpl; (split; [reflexivity|]); split; try done; try lia; eauto.
    all: by intros (? & ? & [=]). }
  fold (main_body w float_str percent round3 client p keys tty st1).
  pose proof (main_body_safe w float_str percent round3 client p keys tty st1)
    as [Hstatus [_ Hpaths]].
  cbv zeta in Hstatus, Hpaths.
  destruct (main_body w float_str percent round3 client p keys tty st1) as [[r tty1] st2].
  simpl in *.
  rewrite engine_close_closed. simpl. split.
  - split; [done|]. split; [done|]. split; [done|].
    intros pool. destruct (Hpaths pool) as [<- <-]. by destruct pool.
  - split; [done|]. by intros (? & ? & [=]).
Qed.

(** X23. [main] with two arguments, once the engine is constructed, makes
    one lookup and closes the engine.  A result is printed on the standard
    output as the seven entries of [to_dict], one per line with the key
    right-aligned in twenty columns, and [main] returns; [PostcodeInvalid]
    and [NoMatchFound] each write one line to the standard error and exit
    with status 1; any other exception leaves [main] as it was raised, after
    the engine was closed, with nothing written.  A postcode that [validate]
    rejects exits with status 1 and the line [Invalid postcode: ] followed by
    the argument as given, without any database being consulted. *)
Theorem X23_main_with_two_arguments
    (w : world) (float_str percent : Q -> str) (round3 : Q -> Q)
    (p : process) (keys : list keyboard) (tty : terminal) (st : state)
    (prog postcode_raw address_line : str) (client : UKGeolocate) (st1 : state) :
  argv p = [prog; postcode_raw; address_line] ->
  __init__ w (_DEFAULT_EPC p) (_DEFAULT_OS p) _DEFAULT_THRESHOLD st = (inr client, st1) ->
  let found := find_coordinates w client postcode_raw address_line st1 in
  let run := main w float_str percent round3 p keys tty st in
  run.2 = closed found.2
  /\ match found.1 with
     | inr result =>
         run.1.1 = inr tt /\ stderr run.1.2 = stderr tty
         /\ stdout run.1.2
            = stdout tty
              ++ map (fun kv => rjust 20 kv.1 ++ s ": " ++ value_str float_str kv.2 ++ LF)
                     (to_dict round3 result)
     | inl (PostcodeInvalid pc) =>
         run.1.1 = inl (SystemExit 1)
         /\ run.1.2 = print_err (s "Invalid postcode: " ++ pc) tty
     | inl (NoMatchFound _ _) =>
         run.1.1 = inl (SystemExit 1)
         /\ run.1.2 = print_err (s "No match found.") tty
     | inl e => run.1.1 = inl (Raised e) /\ run.1.2 = tty
     end
  /\ (Postcode.validate postcode_raw = false ->
      run = (inl (SystemExit 1),
             print_err (s "Invalid postcode: " ++ postcode_raw) tty,
             closed st1)).
Proof.
  intros Hargv Hinit. cbv zeta. unfold main. rewrite Hinit, Hargv.
  pose proof (single_shot_cases w float_str round3 client postcode_raw address_line tty st1)
    as [H2 H1].
  cbv zeta in H1, H2.
  destruct (single_shot w float_str round3 client postcode_raw address_line tty st1)
    as [[r tty1] st2] eqn:Hs.
  simpl in H1, H2. rewrite engine_close_closed. simpl. subst st2.
  split; [done|]. split; [done|].
  intros Hv.
  assert (find_coordinates w client postcode_raw address_line st1
          = (inl (PostcodeInvalid postcode_raw), st1)) as Hf.
  { unfold find_coordinates, bind, lift, Postcode.normalise. by rewrite Hv. }
  rewrite Hf in H1 |- *. simpl in H1. by destruct H1 as [-> ->].
Qed.

(** ** The further properties on concrete data *)

Lemma X2_witness :
  Address.normalise (s "10" ++ " "%char :: "009"%char :: s "Downing Street")
  = Address.normalise (s "10" ++ " "%char :: s "Downing Street").
Proof.
  exact (proj1 (X2_address_normalise_ignores_spacing (s "10") (s "Downing Street")
                  " " "009" eq_refl eq_refl)).
Defined.

Lemma X4_witness : Address.similarity (s "ABC") (s "XYZ") = 0%Q.
Proof.
  apply (X4_similarity_is_0_iff_nothing_in_common (s "ABC") (s "XYZ")).
  - vm_compute. lia.
  - split; [left; vm_compute; discriminate|].
    apply Forall_forall. apply (bool_decide_unpack _). vm_compute. exact I.
Defined.

Lemma X5_witness :
  scan_rows _DEFAULT_THRESHOLD (Address.normalise (s "10 downing street")) None
    ([row_12] ++ row_10 :: downing_street_rows)
  = Some (100023336956%Z, best_address row_10, 1%Q).
Proof.
  apply (proj2 (X5_exact_match_is_selected _DEFAULT_THRESHOLD (s "10 downing street"))).
  - vm_compute. discriminate.
  - cbv beta iota zeta delta [has_exact_column row_10].
    apply Exists_cons_hd. vm_compute. reflexivity.
  - reflexivity.
  - intros r Hr [_ [u Hu]]. apply list_elem_of_singleton in Hr. subst r.
    vm_compute in Hu. discriminate.
Defined.

Lemma X6_witness :
  find_coordinates test_world {| _threshold := 3 # 10 |} (s "SW1A 2AA")
    (s "10 Downing Street") client_state
  = (inr downing_10_result, advance 2 client_state).
Proof.
  apply (proj2 (X6_lower_threshold_keeps_the_result (3 # 10) _DEFAULT_THRESHOLD
                  ltac:(vm_compute; discriminate)) test_world).
  vm_compute. reflexivity.
Defined.

Lemma X7_witness :
  scan_rows 2 (Address.normalise (s "10 Downing Street")) None downing_street_rows = None.
Proof.
  exact (proj1 (proj1 (X7_threshold_extremes 2 (Address.normalise (s "10 Downing Street"))
                         downing_street_rows) ltac:(vm_compute; reflexivity))).
Defined.

Lemma X8_witness :
  find_coordinates test_world client (s "INVALID") (s "10 Downing Street") client_state
  = (inl (PostcodeInvalid (s "INVALID")), client_state).
Proof.
  exact (proj1 (X8_find_coordinates_fails_in_four_ways test_world client (s "INVALID")
                  (s "10 Downing Street") client_state)
           ltac:(vm_compute; reflexivity)).
Defined.

Lemma X9_witness :
  exists pc r c,
    Postcode.normalise (s "sw1a2aa") = inr pc
    /\ col_postcode r = Some pc
    /\ col_uprn r ≫= Py.int = Some (uprn downing_10_result)
    /\ col_UPRN c = uprn downing_10_result.
Proof.
  destruct (X9_find_coordinates_result_is_in_the_data test_world client (s "sw1a2aa")
              (s "10 Downing Street") client_state (advance 2 client_state)
              downing_10_result)
    as (pc & t1 & t2 & r & l1 & c & l2 & H1 & _ & _ & _ & _ & _ & H2 & H3 & _ & _ & _ & _
        & _ & _ & H4 & _).
  - intros c Hc. vm_compute in Hc. injection Hc as <-. reflexivity.
  - intros c Hc. vm_compute in Hc. injection Hc as <-. reflexivity.
  - vm_compute. reflexivity.
  - by exists pc, r, c.
Defined.

Lemma X10_witness : is_file stale_world 6 epc_path = false.
Proof.
  destruct (X10_execute_raises_not_found_only_for_a_missing_file stale_world _epc_pool
              Select_tables open_state
              {| now := 7;
                 epc_pool := {| _path := epc_path; _name := s "EPC"; _conn := None |};
                 os_pool := no_pool |}
              (DatabaseNotFound epc_path (s "EPC")) eq_refl)
    as [(_ & _ & H & _)|[[msg H]|[msg H]]].
  - exact H.
  - discriminate H.
  - discriminate H.
Defined.

Lemma X12_witness :
  run_query Select_tables (content test_world 8 epc_path) = inr [s "epc_addresses"]
  /\ execute test_world _epc_pool Select_tables client_state
     = (inr [s "epc_addresses"], advance 1 client_state).
Proof.
  assert (execute test_world _epc_pool Select_tables client_state
          = (inr [s "epc_addresses"], advance 1 client_state)) as E
    by (vm_compute; reflexivity).
  destruct (X12_execute_returns_the_rows_of_the_file test_world _epc_pool Select_tables
              client_state (advance 1 client_state) [s "epc_addresses"])
    as (_ & _ & H & _).
  - intros c Hc. vm_compute in Hc. injection Hc as <-. reflexivity.
  - exact E.
  - split; [exact H|exact E].
Defined.

Lemma X13_witness :
  execute returning_world _epc_pool Select_tables open_state
  = (inl (DatabaseNotFound epc_path (s "EPC")), dropped_state)
  /\ execute returning_world _epc_pool Select_tables dropped_state
     = (inr [s "epc_addresses"], connected _epc_pool (advance 4 dropped_state)).
Proof.
  assert (execute returning_world _epc_pool Select_tables open_state
          = (inl (DatabaseNotFound epc_path (s "EPC")), dropped_state)) as E
    by reflexivity.
  split; [exact E|].
  exact (proj2 (X13_execute_reconnects_once_the_file_is_back returning_world _epc_pool
                  Select_tables Select_tables open_state dropped_state epc_path (s "EPC")
                  [s "epc_addresses"] E eq_refl eq_refl eq_refl eq_refl eq_refl)).
Defined.

Lemma X17_witness :
  health_check test_world client_state
  = (inr {| healthy := true; epc_db := s "ok"; os_db := s "ok" |}, advance 2 client_state).
Proof.
  assert (__init__ test_world epc_path os_path _DEFAULT_THRESHOLD boot
          = (inr client, client_state)) as E by (vm_compute; reflexivity).
  apply (proj1 (proj2 (X17_health_check_of_a_new_engine test_world epc_path os_path
                         _DEFAULT_THRESHOLD boot client client_state E))).
  - reflexivity.
  - reflexivity.
  - vm_compute. apply list_elem_of_here.
  - vm_compute. apply list_elem_of_here.
Defined.

Lemma X18_witness :
  seven_bit (s " sw1a 2aa ")
  /\ Postcode.normalise (Py.upper (s " sw1a 2aa ")) = inr (s "SW1A 2AA")
  /\ Postcode.normalise (Py.strip (s " sw1a 2aa ")) = inr (s "SW1A 2AA").
Proof.
  assert (seven_bit (s " sw1a 2aa ")) as H7.
  { repeat (constructor; [vm_compute; lia|]). constructor. }
  destruct (proj2 (X18_postcode_ignores_margins_and_ascii_case (s " sw1a 2aa "))
              (s "SW1A 2AA") ltac:(vm_compute; reflexivity)) as (H1 & _ & H3).
  split; [exact H7|]. split; [exact (proj1 (H3 H7))|exact H1].
Defined.

Lemma X19_witness :
  exists outward sep inward,
    s "SW1A 2AA" = outward ++ Py.replace " " [] sep ++ " "%char :: inward
    /\ 2 <= length outward <= 4.
Proof.
  destruct (X19_postcode_normalise_shape (s "sw1a2aa") (s "SW1A 2AA")
              ltac:(vm_compute; reflexivity))
    as (outward & sep & inward & _ & H1 & H2 & _).
  exists outward, sep, inward. split; [exact H1|exact H2].
Defined.

Lemma X20_witness : Postcode.normalise (s "SW1A 2AA") = inr (s "SW1A 2AA").
Proof.
  apply (proj2 (X20_postcode_normalise_fixed_point_iff (s "sw1a 2aa") (s "SW1A 2AA")
                  ltac:(vm_compute; reflexivity))).
  vm_compute. repeat (constructor; [first [discriminate|reflexivity]|]). constructor.
Defined.

Lemma X23_witness :
  main test_world float_text float_text same_float bad_postcode [] blank_terminal boot
  = (inl (SystemExit 1),
     print_err (s "Invalid postcode: INVALID") blank_terminal,
     closed client_state).
Proof.
  exact (proj2 (proj2 (X23_main_with_two_arguments test_world float_text float_text
                         same_float bad_postcode [] blank_terminal boot
                         (s "ukgeolocate") (s "INVALID") (s "10 Downing Street")
                         client client_state eq_refl ltac:(vm_compute; reflexivity)))
           ltac:(vm_compute; reflexivity)).
Defined.

(** ** The test-suite of the package, replayed on the model *)

Example test_normalise_formats_correctly :
  map Postcode.normalise [s "sw1a2aa"; s "  EC1A1BB  "; s "m1 1ae"; s "W1A 0AX"]
  = [inr (s "SW1A 2AA"); inr (s "EC1A 1BB"); inr (s "M1 1AE"); inr (s "W1A 0AX")].
Proof. vm_compute. reflexivity. Qed.

Example test_normalise_raises_on_invalid :
  map Postcode.normalise [s "12345"; []; s "INVALID"; s "75001"]
  = [inl (PostcodeInvalid (s "12345")); inl (PostcodeInvalid []);
     inl (PostcodeInvalid (s "INVALID")); inl (PostcodeInvalid (s "75001"))].
Proof. vm_compute. reflexivity. Qed.

Example test_valid_postcodes :
  map Postcode.validate
    [s "SW1A 2AA"; s "EC1A 1BB"; s "W1A 0AX"; s "M1 1AE"; s "B33 8TH"; s "CR2 6XH";
     s "sw1a2aa"; s "  EC1A 1BB  "; s "m11ae"]
  = [true; true; true; true; true; true; true; true; true].
Proof. vm_compute. reflexivity. Qed.

Example test_invalid_postcodes :
  map Postcode.validate [s "12345"; s "ABCDE"; []; s "75001"; s "INVALID"; s "123 ABC"]
  = [false; false; false; false; false; false].
Proof. vm_compute. reflexivity. Qed.

Example test_address_normalise :
  map Address.normalise
    [s "hello world"; s "10, Downing Street, London"; s "  10   Downing   Street  ";
     s "  flat a, 1 example road,  london  "]
  = [s "HELLO WORLD"; s "10 DOWNING STREET LONDON"; s "10 DOWNING STREET";
     s "FLAT A 1 EXAMPLE ROAD LONDON"].
Proof. vm_compute. reflexivity. Qed.

Example test_similarity_case_insensitive :
  Address.similarity (s "10 downing street") (s "10 DOWNING STREET") = 1%Q.
Proof. vm_compute. reflexivity. Qed.

Example test_similarity_comma_tolerance :
  (9 # 10 < Address.similarity (s "10, Downing Street, London") (s "10 Downing Street London"))%Q.
Proof. vm_compute. reflexivity. Qed.

Example test_similarity_completely_different :
  (Address.similarity (s "10 DOWNING STREET") (s "99 BUCKINGHAM PALACE ROAD") < 4 # 10)%Q.
Proof. vm_compute. reflexivity. Qed.

Example difflib_docstring_find_longest_match :
  Difflib.find_longest_match (s " abcd") (s "abcd abcd") 0 5 0 9 = (0, 4, 5)
  /\ Difflib.find_longest_match (s "ab") (s "c") 0 2 0 1 = (0, 0, 0).
Proof. split; vm_compute; reflexivity. Qed.

Example difflib_docstring_get_matching_blocks :
  Difflib.get_matching_blocks (s "abxcd") (s "abcd") = [(0, 0, 2); (3, 2, 2); (5, 4, 0)].
Proof. vm_compute. reflexivity. Qed.

Example difflib_docstring_ratio : Difflib.ratio (s "abcd") (s "bcde") = (3 # 4)%Q.
Proof. vm_compute. reflexivity. Qed.

Example python_int :
  map Py.int [s "42"; s " 100023336956 "; s "+7"; s "-7"; s "1_000"; s "007";
              s "not_a_number"; []; s "1__0"; s "_1"; s "1_"; s "- 1"; s "1.0";
              ["009"; "1"; "2"; "010"]%char; ["028"; "1"; "2"]%char; s "+-5"; s "0x10"]
  = [Some 42%Z; Some 100023336956%Z; Some 7%Z; Some (-7)%Z; Some 1000%Z; Some 7%Z;
     None; None; None; None; None; None; None;
     Some 12%Z; None; None; None].
Proof. vm_compute. reflexivity. Qed.

Example test_successful_lookup :
  (find_coordinates test_world client (s "SW1A 2AA") (s "10 Downing Street")
     client_state).1
  = inr downing_10_result.
Proof. vm_compute. reflexivity. Qed.

Example test_different_postcode :
  (find_coordinates test_world client (s "M1 1AE") (s "50 High Street") client_state).1
  = inr {| uprn := 300000000001; matched_address := s "50, HIGH STREET, MANCHESTER";
           match_score := 1; easting := 383800; northing := 398000;
           latitude := 53.4808; longitude := -2.2426 |}.
Proof. vm_compute. reflexivity. Qed.

Example test_invalid_postcode_raises :
  find_coordinates test_world client (s "INVALID") (s "10 Downing Street") client_state
  = (inl (PostcodeInvalid (s "INVALID")), client_state).
Proof. vm_compute. reflexivity. Qed.

Example test_no_match_raises :
  (find_coordinates test_world client (s "SW1A 2AA")
     (s "ZZZZZ COMPLETELY UNRELATED XYZZY") client_state).1
  = inl (NoMatchFound (s "SW1A 2AA") (s "ZZZZZ COMPLETELY UNRELATED XYZZY")).
Proof. vm_compute. reflexivity. Qed.

Example test_healthy :
  (health_check test_world client_state).1
  = inr {| healthy := true; epc_db := s "ok"; os_db := s "ok" |}.
Proof. vm_compute. reflexivity. Qed.

Example test_missing_epc_db :
  (__init__ test_world (s "/nonexistent/path.db") os_path _DEFAULT_THRESHOLD boot).1
  = inl (DatabaseNotFound (s "/nonexistent/path.db") (s "EPC")).
Proof. vm_compute. reflexivity. Qed.

Example test_missing_os_db :
  (__init__ test_world epc_path (s "/nonexistent/path.db") _DEFAULT_THRESHOLD boot).1
  = inl (DatabaseNotFound (s "/nonexistent/path.db") (s "OS Open UPRN")).
Proof. vm_compute. reflexivity. Qed.

Example test_context_manager_closes :
  _conn (epc_pool (engine_close client_state).2) = None
  /\ _conn (os_pool (engine_close client_state).2) = None.
Proof. split; vm_compute; reflexivity. Qed.

Example validate_tables_names_what_is_missing :
  (validate_tables sparse_world _epc_pool [s "uprns"; s "epc_addresses"; s "audit"; s "audit"]
     (fresh_pools epc_path os_path boot)).1
  = inl (DatabaseInvalid epc_path (s "missing tables: audit, epc_addresses")).
Proof. vm_compute. reflexivity. Qed.

Example cli_single_lookup :
  let run := main test_world float_text float_text same_float one_lookup [] blank_terminal boot in
  exit_status run.1.1 = 0
  /\ stderr run.1.2 = []
  /\ stdout run.1.2
     = [ s "                uprn: 100023336956" ++ LF;
         s "     matched_address: 10, DOWNING STREET, LONDON" ++ LF;
         s "         match_score: <float>" ++ LF;
         s "             easting: <float>" ++ LF;
         s "            northing: <float>" ++ LF;
         s "            latitude: <float>" ++ LF;
         s "           longitude: <float>" ++ LF ]
  /\ run.2 = closed (advance 2 client_state).
Proof. vm_compute. repeat split; reflexivity. Qed.

Example cli_without_databases :
  let run := main world_without_epc float_text float_text same_float elsewhere []
               blank_terminal boot in
  exit_status run.1.1 = 2
  /\ stdout run.1.2 = []
  /\ stderr run.1.2
     = [ s "Error: EPC database not found at: /srv/EPClocations.db" ++ LF;
         s "Set EPCLOCATIONS_DB and OSOPENUPRN_DB environment variables, or run from the directory containing the databases." ++ LF ].
Proof. vm_compute. repeat split; reflexivity. Qed.

Example cli_session :
  let run := main test_world float_text float_text same_float session
               [Line []; Line (s "12345"); Line (s "sw1a 2aa"); Line (s " ");
                Line (s "SW1A 2AA"); Line (s "zzzzz"); Line (s " Quit ")]
               blank_terminal boot in
  exit_status run.1.1 = 0
  /\ stderr run.1.2 = []
  /\ stdout run.1.2
     = [ _BANNER ++ LF;
         LF ++ s "Postcode:        "; s "  ✗ Postcode is required." ++ LF;
         LF ++ s "Postcode:        "; s "  ✗ Invalid UK postcode format: '12345'" ++ LF;
         LF ++ s "Postcode:        "; s "Address line 1:  ";
         s "  ✗ Address line 1 is required." ++ LF;
         LF ++ s "Postcode:        "; s "Address line 1:  ";
         s "  ⏳ Searching EPC database …";
         CR ++ s "  ✗ No matching UPRN for 'SW1A 2AA' / 'zzzzz'" ++ LF;
         LF ++ s "Postcode:        "; s "Bye!" ++ LF ]
  /\ run.2 = closed (advance 1 client_state).
Proof. vm_compute. repeat split; reflexivity. Qed.

Example kelvin_street_lowered :
  Unicode.lower latin_and_kelvin kelvin_street = of_str (s "12 king street")
  /\ Unicode.similarity latin_and_kelvin kelvin_street kelvin_street = 1%Q
  /\ Unicode.similarity latin_and_kelvin (Unicode.lower latin_and_kelvin kelvin_street)
       kelvin_street = (13 # 14)%Q.
Proof. vm_compute. repeat split. Qed.

Example cli_session_on_the_terminal :
  let run := main test_world float_text float_text same_float session_on_the_terminal
               [Line (s "12345"); Line (s "sw1a 2aa"); Line (s "zzzzz"); Ctrl_C]
               blank_terminal boot in
  exit_status run.1.1 = 0
  /\ stderr run.1.2
     = [ LF ++ s "Postcode:        "; LF ++ s "Postcode:        ";
         s "Address line 1:  "; LF ++ s "Postcode:        " ]
  /\ stdout run.1.2
     = [ _BANNER ++ LF;
         s "  ✗ Invalid UK postcode format: '12345'" ++ LF;
         s "  ⏳ Searching EPC database …";
         CR ++ s "  ✗ No matching UPRN for 'sw1a 2aa' / 'zzzzz'" ++ LF;
         LF ++ s "Bye!" ++ LF ]
  /\ run.2 = closed (advance 1 client_state).
Proof. vm_compute. repeat split; reflexivity. Qed.
